(** * BackupPeer: a shallow embedding of the peer core

    The development follows the JavaScript sources of the repository:
    - the allocation ledger      ([StorageAllocation]),
    - the rate limiter and the inbound dispatch path
                                 ([RateLimiter], [P2PConnection] 'data' handler),
    - the reputation engine      ([ReputationSystem]),
    - the crypto component       ([BackupCrypto]),
    - the verification protocol  ([StorageVerification]),
    - the receive side of the transfer pipeline ([FileTransfer]).

    Conventions.  JavaScript numbers that hold byte counts, counters and
    millisecond clocks are integers ([Z]); numbers that hold scores and
    averages are exact rationals ([Q]), an idealisation of IEEE doubles.
    [Date.now()] is an explicit argument [now].  A JS [Map] keyed by
    strings is a [gmap string _].  A [throw] is a [None] / an error
    constructor.  Console output and event emission are omitted; messages
    sent over the channel are returned as a list.  A field of a message
    parsed from a peer's JSON that the code reads as a number is an
    [option Z]: [None] when the field is missing, so that the code reads
    [undefined] and computes with NaN. *)

From Stdlib Require Import ZArith QArith Qminmax Lia Lra Ascii.
From stdpp Require Import gmap strings list fin_maps.

From Stdlib Require Import Lqa.

Local Open Scope Z_scope.

(* ===================================================================== *)
(** * Part I: the model *)
(* ===================================================================== *)

(* ===================================================================== *)
(** * Allocation ledger ([StorageAllocation]) *)
(* ===================================================================== *)

Module Allocation.

(** One element of [existing.backups]. *)
Record backup_ref := BackupRef {
  br_id : string;
  br_size : Z;
  br_timestamp : Z
}.

(** A value of the [allocations] map: peerId -> { offered, used, backups, timestamp }. *)
Record peer_alloc := PeerAlloc {
  offered : Z;
  used : Z;
  backups : list backup_ref;
  timestamp : Z
}.

(** [this.allocation]. *)
Record allocation := Ledger {
  maxStorageOffered : Z;
  storageOffered : Z;
  storageUsed : Z;
  ratio : string;
  allocations : gmap string peer_alloc
}.

(** The ledger built by the constructor. *)
Definition initial : allocation :=
  {| maxStorageOffered := 0; storageOffered := 0; storageUsed := 0;
     ratio := "1:1"; allocations := ∅ |}.

(** [setMaxStorage(bytes)] *)
Definition setMaxStorage (st : allocation) (bytes : Z) : allocation :=
  {| maxStorageOffered := bytes; storageOffered := storageOffered st;
     storageUsed := storageUsed st; ratio := ratio st;
     allocations := allocations st |}.

(** [getAllocatedToPeer(peerId)] *)
Definition getAllocatedToPeer (st : allocation) (peerId : string) : Z :=
  match allocations st !! peerId with
  | Some a => offered a
  | None => 0
  end.

(** [getUsedFromPeer(peerId)] *)
Definition getUsedFromPeer (st : allocation) (peerId : string) : Z :=
  match allocations st !! peerId with
  | Some a => used a
  | None => 0
  end.

(** The object returned by [canAcceptBackup].  The two rejections carry the
    source's [reason] strings; the human-readable [currentRatio] and the
    formatted byte strings are kept as the raw numbers they are printed
    from. *)
Inductive accept_result :=
| Accept
| RejectRatio (currentOffered currentUsed requiredOffering : Z)
| RejectCapacity (maxOffered currentOffered : Z).

Definition canAccept (r : accept_result) : bool :=
  match r with Accept => true | _ => false end.

Definition reason (r : accept_result) : option string :=
  match r with
  | Accept => None
  | RejectRatio _ _ _ => Some "Insufficient allocation - violates 1:1 ratio"%string
  | RejectCapacity _ _ => Some "Maximum storage capacity reached"%string
  end.

(** [canAcceptBackup(requestedBytes, fromPeerId)] *)
Definition canAcceptBackup (st : allocation) (requestedBytes : Z)
    (fromPeerId : string) : accept_result :=
  let currentUsed := storageUsed st in
  let currentOffered := storageOffered st in
  let maxOffered := maxStorageOffered st in
  if currentOffered + getAllocatedToPeer st fromPeerId <? currentUsed + requestedBytes
  then RejectRatio currentOffered currentUsed (currentUsed + requestedBytes)
  else if maxOffered <=? currentOffered
  then RejectCapacity maxOffered currentOffered
  else Accept.

(** [allocations.get(peerId) || { offered: 0, used: 0, backups: [] }];
    the timestamp of the fresh object is assigned before it is stored. *)
Definition existing_or_new (st : allocation) (peerId : string) : peer_alloc :=
  match allocations st !! peerId with
  | Some a => a
  | None => {| offered := 0; used := 0; backups := []; timestamp := 0 |}
  end.

(** [allocateStorageToPeer(peerId, bytes, backupId)] *)
Definition allocateStorageToPeer (st : allocation) (peerId : string)
    (bytes : Z) (backupId : string) (now : Z) : allocation :=
  let existing := existing_or_new st peerId in
  let existing' :=
    {| offered := offered existing + bytes;
       used := used existing + bytes;
       backups := backups existing ++ [BackupRef backupId bytes now];
       timestamp := now |} in
  {| maxStorageOffered := maxStorageOffered st;
     storageOffered := storageOffered st + bytes;
     storageUsed := storageUsed st;
     ratio := ratio st;
     allocations := <[peerId := existing']> (allocations st) |}.

(** [recordStorageUsed(peerId, bytes, backupId)] *)
Definition recordStorageUsed (st : allocation) (peerId : string)
    (bytes : Z) (backupId : string) (now : Z) : allocation :=
  let existing := existing_or_new st peerId in
  let existing' :=
    {| offered := offered existing;
       used := used existing + bytes;
       backups := backups existing;
       timestamp := now |} in
  {| maxStorageOffered := maxStorageOffered st;
     storageOffered := storageOffered st;
     storageUsed := storageUsed st + bytes;
     ratio := ratio st;
     allocations := <[peerId := existing']> (allocations st) |}.

(** [releaseAllocation(peerId, bytes, isOffered = true)] *)
Definition releaseAllocation (st : allocation) (peerId : string)
    (bytes : Z) (isOffered : bool) (now : Z) : allocation :=
  match allocations st !! peerId with
  | None => st
  | Some existing =>
    let existing' :=
      if isOffered
      then {| offered := Z.max 0 (offered existing - bytes);
              used := used existing;
              backups := backups existing; timestamp := now |}
      else {| offered := offered existing;
              used := Z.max 0 (used existing - bytes);
              backups := backups existing; timestamp := now |} in
    let so := if isOffered then Z.max 0 (storageOffered st - bytes)
              else storageOffered st in
    let su := if isOffered then storageUsed st
              else Z.max 0 (storageUsed st - bytes) in
    {| maxStorageOffered := maxStorageOffered st;
       storageOffered := so;
       storageUsed := su;
       ratio := ratio st;
       allocations :=
         if (offered existing' =? 0) && (used existing' =? 0)
         then delete peerId (allocations st)
         else <[peerId := existing']> (allocations st) |}
  end.

(** The loop of [validateAllocation] that adds up one field of the entries. *)
Definition sumOf (proj : peer_alloc → Z) (m : gmap string peer_alloc) : Z :=
  map_fold (λ _ a acc, acc + proj a) 0 m.

(** The two running sums of [validateAllocation]. *)
Definition sumOffered (m : gmap string peer_alloc) : Z := sumOf offered m.

Definition sumUsed (m : gmap string peer_alloc) : Z := sumOf used m.

(** The entries pushed on [issues]; each keeps the numbers its message prints. *)
Inductive issue :=
| OfferedMismatch (expected got : Z)
| UsedMismatch (expected got : Z)
| RatioViolation (usedBytes offeredBytes : Z).

Record validation := Validation { valid : bool; issues : list issue }.

(** [validateAllocation()] *)
Definition validateAllocation (st : allocation) : validation :=
  let so := sumOffered (allocations st) in
  let su := sumUsed (allocations st) in
  let i1 := if so =? storageOffered st then []
            else [OfferedMismatch so (storageOffered st)] in
  let i2 := if su =? storageUsed st then []
            else [UsedMismatch su (storageUsed st)] in
  let i3 := if storageOffered st <? storageUsed st
            then [RatioViolation (storageUsed st) (storageOffered st)] else [] in
  let all := i1 ++ i2 ++ i3 in
  {| valid := (length all =? 0)%nat; issues := all |}.

(** The allocation operations, as data, with the clock reading of each call. *)
Inductive op :=
| Allocate (peerId : string) (bytes : Z) (backupId : string) (now : Z)
| RecordUsed (peerId : string) (bytes : Z) (backupId : string) (now : Z)
| Release (peerId : string) (bytes : Z) (isOffered : bool) (now : Z).

Definition step (st : allocation) (o : op) : allocation :=
  match o with
  | Allocate p b i t => allocateStorageToPeer st p b i t
  | RecordUsed p b i t => recordStorageUsed st p b i t
  | Release p b o t => releaseAllocation st p b o t
  end.

Definition run (ops : list op) : allocation := fold_left step ops initial.

(** Calls with a non-negative size; a release on the offered side asks for
    no more than is recorded as offered to that peer. *)
Definition op_ok (st : allocation) (o : op) : bool :=
  match o with
  | Allocate _ b _ _ => 0 <=? b
  | RecordUsed _ b _ _ => 0 <=? b
  | Release p b true _ => (0 <=? b) && (b <=? getAllocatedToPeer st p)
  | Release _ b false _ => 0 <=? b
  end.

(** The part of [validateAllocation] that the operations maintain: the
    offered amounts are non-negative and add up to [storageOffered]. *)
Definition offered_reconciled (st : allocation) : Prop :=
  sumOffered (allocations st) = storageOffered st
  ∧ map_Forall (λ _ a, 0 ≤ offered a) (allocations st).

Inductive reachable : allocation → Prop :=
| reach_initial : reachable initial
| reach_max st bytes : reachable st → reachable (setMaxStorage st bytes)
| reach_step st o : reachable st → op_ok st o = true → reachable (step st o).

(** ** Calls with non-negative sizes, releases unrestricted *)

Definition op_nonneg (o : op) : bool :=
  match o with
  | Allocate _ b _ _ | RecordUsed _ b _ _ | Release _ b _ _ => 0 <=? b
  end.

(** No amount of the ledger is negative. *)
Definition amounts_nonneg (st : allocation) : Prop :=
  0 ≤ storageOffered st ∧ 0 ≤ storageUsed st
  ∧ map_Forall (λ _ a, 0 ≤ offered a ∧ 0 ≤ used a) (allocations st).

End Allocation.

(* ===================================================================== *)
(** * Rate limiter ([RateLimiter]) and the inbound dispatch path *)
(* ===================================================================== *)

(** [x > y] on exact rationals, as a boolean. *)
Definition Qgtb (x y : Q) : bool := negb (Qle_bool x y).

Module RateLimiter.

(** The fields of a [RateLimiter].  [bannedPeers] is created by the first
    [banPeer], hence the option. *)
Record limiter := Limiter {
  maxRequests : Z;
  windowMs : Z;
  maxBurst : Z;
  burstWindowMs : Z;
  requests : gmap string (list Z);
  bursts : gmap string (list Z);
  bannedPeers : option (gmap string Z)
}.

(** [new RateLimiter(options)]; [o || d] takes [d] for a missing or zero option. *)
Definition or_default (o : option Z) (d : Z) : Z :=
  match o with
  | Some v => if v =? 0 then d else v
  | None => d
  end.

Definition new (oMaxRequests oWindowMs oMaxBurst oBurstWindowMs : option Z) : limiter :=
  {| maxRequests := or_default oMaxRequests 100;
     windowMs := or_default oWindowMs 60000;
     maxBurst := or_default oMaxBurst 20;
     burstWindowMs := or_default oBurstWindowMs 1000;
     requests := ∅; bursts := ∅; bannedPeers := None |}.

Definition set_requests (l : limiter) (r : gmap string (list Z)) : limiter :=
  {| maxRequests := maxRequests l; windowMs := windowMs l;
     maxBurst := maxBurst l; burstWindowMs := burstWindowMs l;
     requests := r; bursts := bursts l; bannedPeers := bannedPeers l |}.

Definition set_bursts (l : limiter) (b : gmap string (list Z)) : limiter :=
  {| maxRequests := maxRequests l; windowMs := windowMs l;
     maxBurst := maxBurst l; burstWindowMs := burstWindowMs l;
     requests := requests l; bursts := b; bannedPeers := bannedPeers l |}.

Definition set_bannedPeers (l : limiter) (b : option (gmap string Z)) : limiter :=
  {| maxRequests := maxRequests l; windowMs := windowMs l;
     maxBurst := maxBurst l; burstWindowMs := burstWindowMs l;
     requests := requests l; bursts := bursts l; bannedPeers := b |}.

(** [list.filter(time => now - time < window)] *)
Definition recent (now window : Z) (times : list Z) : list Z :=
  List.filter (λ time, now - time <? window) times.

(** [map.get(key) || []] *)
Definition history (m : gmap string (list Z)) (key : string) : list Z :=
  match m !! key with Some l => l | None => [] end.

(** [checkBurstLimit(peerId, now)] *)
Definition checkBurstLimit (l : limiter) (peerId : string) (now : Z) : bool :=
  Z.of_nat (length (recent now (burstWindowMs l) (history (bursts l) peerId)))
    <? maxBurst l.

(** [checkWindowLimit(peerId, now)] *)
Definition checkWindowLimit (l : limiter) (peerId : string) (now : Z) : bool :=
  Z.of_nat (length (recent now (windowMs l) (history (requests l) peerId)))
    <? maxRequests l.

(** The [messageLimits] table: type -> (max, window). *)
Definition messageLimits (messageType : string) : option (Z * Z) :=
  if String.eqb messageType "file_chunk" then Some (200, 60000)
  else if String.eqb messageType "ping" then Some (60, 60000)
  else if String.eqb messageType "storage_challenge" then Some (10, 60000)
  else if String.eqb messageType "peer_identity" then Some (5, 60000)
  else if String.eqb messageType "file_start" then Some (20, 60000)
  else None.

(** [checkMessageTypeLimit(peerId, messageType, now)]: the per-type history
    lives in the same [requests] map under the key [peerId-messageType]. *)
Definition checkMessageTypeLimit (l : limiter) (peerId messageType : string)
    (now : Z) : limiter * bool :=
  match messageLimits messageType with
  | None => (l, true)
  | Some (max, window) =>
    let key := (peerId ++ "-" ++ messageType)%string in
    let recentRequests := recent now window (history (requests l) key) in
    if max <=? Z.of_nat (length recentRequests) then (l, false)
    else (set_requests l (<[key := recentRequests ++ [now]]> (requests l)), true)
  end.

(** [recordRequest(peerId, timestamp)] *)
Definition recordRequest (l : limiter) (peerId : string) (ts : Z) : limiter :=
  let l1 := set_requests l
              (<[peerId := history (requests l) peerId ++ [ts]]> (requests l)) in
  set_bursts l1 (<[peerId := history (bursts l1) peerId ++ [ts]]> (bursts l1)).

(** The [reason] of the emitted [rate_limited] event. *)
Inductive denial := burst_limit | window_limit | message_type_limit.

(** [isAllowed(peerId, messageType)] at clock reading [now]; [inr] is a
    denial with the reason of the emitted event. *)
Definition isAllowed (l : limiter) (peerId messageType : string) (now : Z)
    : limiter * (unit + denial) :=
  if negb (checkBurstLimit l peerId now) then (l, inr burst_limit)
  else if negb (checkWindowLimit l peerId now) then (l, inr window_limit)
  else
    let '(l1, ok) := checkMessageTypeLimit l peerId messageType now in
    if negb ok then (l1, inr message_type_limit)
    else (recordRequest l1 peerId now, inl tt).

(** The two utilisation figures of [getStats(peerId)], in percent. *)
Definition windowUtilization (l : limiter) (peerId : string) (now : Z) : Q :=
  (inject_Z (Z.of_nat (length (recent now (windowMs l) (history (requests l) peerId))))
     / inject_Z (maxRequests l) * 100)%Q.

Definition burstUtilization (l : limiter) (peerId : string) (now : Z) : Q :=
  (inject_Z (Z.of_nat (length (recent now (burstWindowMs l) (history (bursts l) peerId))))
     / inject_Z (maxBurst l) * 100)%Q.

(** [banPeer(peerId, durationMs = 300000)] *)
Definition banPeer (l : limiter) (peerId : string) (durationMs : Z) (now : Z)
    : limiter :=
  let banUntil := now + durationMs in
  let banned := match bannedPeers l with Some b => b | None => ∅ end in
  set_bannedPeers l (Some (<[peerId := banUntil]> banned)).

(** The timer armed by [banPeer], when it fires. *)
Definition unbanTimer (l : limiter) (peerId : string) : limiter :=
  match bannedPeers l with
  | Some b => set_bannedPeers l (Some (delete peerId b))
  | None => l
  end.

(** [isBanned(peerId)] at clock reading [now]; a stored [banUntil] of 0 is falsy. *)
Definition isBanned (l : limiter) (peerId : string) (now : Z) : limiter * bool :=
  match bannedPeers l with
  | None => (l, false)
  | Some b =>
    match b !! peerId with
    | None => (l, false)
    | Some banUntil =>
      if banUntil =? 0 then (l, false)
      else if banUntil <? now
      then (set_bannedPeers l (Some (delete peerId b)), false)
      else (l, true)
    end
  end.

(** The loop body of [cleanup()] over one of the two maps: every history
    is cut to the entries younger than [window], and a history left empty
    is deleted. *)
Definition prune (now window : Z) (m : gmap string (list Z))
    : gmap string (list Z) :=
  omap (λ times,
          let kept := recent now window times in
          if (length kept =? 0)%nat then None else Some kept) m.

(** [cleanup()] at clock reading [now]. *)
Definition cleanup (l : limiter) (now : Z) : limiter :=
  let l1 := set_requests l (prune now (windowMs l * 2) (requests l)) in
  set_bursts l1 (prune now (burstWindowMs l1 * 2) (bursts l1)).

(** [close()]: the histories are cleared, and the ban table if there is one. *)
Definition close (l : limiter) : limiter :=
  {| maxRequests := maxRequests l; windowMs := windowMs l;
     maxBurst := maxBurst l; burstWindowMs := burstWindowMs l;
     requests := ∅; bursts := ∅;
     bannedPeers := match bannedPeers l with Some _ => Some ∅ | None => None end |}.

End RateLimiter.

Module Dispatch.
Import RateLimiter.

(** What the peer 'data' handler of [P2PConnection] reads: its rate limiter,
    the authenticated peer id and whether a file-transfer component is
    attached. *)
Record connection := Connection {
  rateLimiter : limiter;
  currentPeerId : option string;
  hasFileTransfer : bool
}.

(** What the handler did with the message. *)
Inductive outcome :=
| Dropped (why : denial) (banned : bool)
| HandledPing
| HandledPong
| HandledPeerIdentity
| RoutedToFileTransfer
| RoutedToVerification.

(** [isFileTransferMessage(messageType)] *)
Definition isFileTransferMessage (messageType : string) : bool :=
  existsb (String.eqb messageType)
    ["file_start"; "file_chunk"; "file_complete"; "file_start_ack";
     "file_complete_ack"; "chunk_ack"; "backup_start"; "backup_complete"]%string.

(** [this.currentPeerId || 'unknown'] *)
Definition senderId (c : connection) : string :=
  match currentPeerId c with
  | Some s => if String.eqb s "" then "unknown"%string else s
  | None => "unknown"%string
  end.

Definition with_limiter (c : connection) (l : limiter) : connection :=
  {| rateLimiter := l; currentPeerId := currentPeerId c;
     hasFileTransfer := hasFileTransfer c |}.

(** The body of [this.peer.on('data', ...)] for a decoded message of type
    [messageType].  [isAllowed], [getStats] and [banPeer] each read the
    clock for themselves: [now] is the reading of [isAllowed], [statsNow]
    that of [getStats] and [banNow] that of [banPeer]. *)
Definition onDataAt (c : connection) (messageType : string)
    (now statsNow banNow : Z) : connection * outcome :=
  let sender := senderId c in
  match isAllowed (rateLimiter c) sender messageType now with
  | (l, inr why) =>
    if Qgtb (windowUtilization l sender statsNow) 90
       || Qgtb (burstUtilization l sender statsNow) 95
    then (with_limiter c (banPeer l sender 300000 banNow), Dropped why true)
    else (with_limiter c l, Dropped why false)
  | (l, inl _) =>
    let c' := with_limiter c l in
    if String.eqb messageType "ping" then (c', HandledPing)
    else if String.eqb messageType "pong" then (c', HandledPong)
    else if String.eqb messageType "peer_identity" then (c', HandledPeerIdentity)
    else if hasFileTransfer c && isFileTransferMessage messageType
    then (c', RoutedToFileTransfer)
    else (c', RoutedToVerification)
  end.

(** The handler on a message handled within one millisecond, at clock
    reading [now]. *)
Definition onData (c : connection) (messageType : string) (now : Z)
    : connection * outcome :=
  onDataAt c messageType now now now.

(** A run of the handler over a list of (message type, arrival time). *)
Definition onDataAll (c : connection) (msgs : list (string * Z)) : connection :=
  fold_left (λ c m, fst (onData c (fst m) (snd m))) msgs c.

(** A connected session with the limiter of the [P2PConnection] constructor. *)
Definition session (peer : string) : connection :=
  {| rateLimiter := new (Some 100) (Some 60000) (Some 20) (Some 1000);
     currentPeerId := Some peer; hasFileTransfer := true |}.

End Dispatch.

(* ===================================================================== *)
(** * Reputation engine ([ReputationSystem]) *)
(* ===================================================================== *)

(** [x < y] on exact rationals, as a boolean. *)
Definition Qltb (x y : Q) : bool := negb (Qle_bool y x).

(** [x >= y] on exact rationals, as a boolean. *)
Definition Qgeb (x y : Q) : bool := Qle_bool y x.

Module Reputation.

(** [this.weights] *)
Definition weights_uptime : Q := 3 # 10.
Definition weights_responseTime : Q := 2 # 10.
Definition weights_verificationSuccess : Q := 3 # 10.
Definition weights_dataIntegrity : Q := 2 # 10.

(** [this.thresholds] *)
Definition thresholds_trusted : Q := 8 # 10.
Definition thresholds_acceptable : Q := 6 # 10.
Definition thresholds_suspicious : Q := 4 # 10.
Definition thresholds_blacklisted : Q := 2 # 10.

(** One element of [uptimeHistory]. *)
Record uptime_check := UptimeCheck { uc_timestamp : Z; available : bool }.

(** The record stored per peer, as [migrateReputationData] builds it. *)
Record reputation := Rep {
  peerId : string;
  firstSeen : Z;
  lastSeen : Z;
  totalConnections : Z;
  successfulConnections : Z;
  failedConnections : Z;
  averageResponseTime : Q;
  totalChallenges : Z;
  successfulChallenges : Z;
  failedChallenges : Z;
  averageVerificationTime : Q;
  dataIntegrityScore : Q;
  corruptedFiles : Z;
  totalFilesTransferred : Z;
  uptimeScore : Q;
  uptimeHistory : list uptime_check;
  overallScore : Q;
  trustLevel : string;
  isBlacklisted : bool;
  blacklistReason : option string;
  publicKey : option string;
  lastCommitment : option string;
  notes : list string
}.

(** The argument of [migrateReputationData]: an object read from disk or
    built by [getPeerReputation], any field of which may be missing. *)
Record raw_reputation := Raw {
  raw_peerId : string;
  raw_firstSeen : option Z;
  raw_lastSeen : option Z;
  raw_totalConnections : option Z;
  raw_successfulConnections : option Z;
  raw_failedConnections : option Z;
  raw_averageResponseTime : option Q;
  raw_totalChallenges : option Z;
  raw_successfulChallenges : option Z;
  raw_failedChallenges : option Z;
  raw_averageVerificationTime : option Q;
  raw_dataIntegrityScore : option Q;
  raw_corruptedFiles : option Z;
  raw_totalFilesTransferred : option Z;
  raw_uptimeScore : option Q;
  raw_uptimeHistory : option (list uptime_check);
  raw_overallScore : option Q;
  raw_trustLevel : option string;
  raw_isBlacklisted : option bool;
  raw_blacklistReason : option string;
  raw_publicKey : option string;
  raw_lastCommitment : option string;
  raw_notes : option (list string)
}.

(** JavaScript's [x || d]: [d] replaces a missing or falsy [x]. *)
Definition orZ (x : option Z) (d : Z) : Z :=
  match x with Some v => if v =? 0 then d else v | None => d end.

Definition orQ (x : option Q) (d : Q) : Q :=
  match x with Some v => if Qeq_bool v 0 then d else v | None => d end.

Definition orString (x : option string) (d : string) : string :=
  match x with Some v => if String.eqb v "" then d else v | None => d end.

Definition orNull (x : option string) : option string :=
  match x with Some v => if String.eqb v "" then None else Some v | None => None end.

Definition orList {A} (x : option (list A)) : list A :=
  match x with Some l => l | None => [] end.

Definition orFalse (x : option bool) : bool :=
  match x with Some b => b | None => false end.

(** [migrateReputationData(reputation)] at clock reading [now]. *)
Definition migrateReputationData (raw : raw_reputation) (now : Z) : reputation :=
  {| peerId := raw_peerId raw;
     firstSeen := orZ (raw_firstSeen raw) now;
     lastSeen := orZ (raw_lastSeen raw) now;
     totalConnections := orZ (raw_totalConnections raw) 0;
     successfulConnections := orZ (raw_successfulConnections raw) 0;
     failedConnections := orZ (raw_failedConnections raw) 0;
     averageResponseTime := orQ (raw_averageResponseTime raw) 0;
     totalChallenges := orZ (raw_totalChallenges raw) 0;
     successfulChallenges := orZ (raw_successfulChallenges raw) 0;
     failedChallenges := orZ (raw_failedChallenges raw) 0;
     averageVerificationTime := orQ (raw_averageVerificationTime raw) 0;
     dataIntegrityScore := orQ (raw_dataIntegrityScore raw) 1;
     corruptedFiles := orZ (raw_corruptedFiles raw) 0;
     totalFilesTransferred := orZ (raw_totalFilesTransferred raw) 0;
     uptimeScore := orQ (raw_uptimeScore raw) 1;
     uptimeHistory := orList (raw_uptimeHistory raw);
     overallScore := orQ (raw_overallScore raw) (1 # 2);
     trustLevel := orString (raw_trustLevel raw) "unknown";
     isBlacklisted := orFalse (raw_isBlacklisted raw);
     blacklistReason := orNull (raw_blacklistReason raw);
     publicKey := orNull (raw_publicKey raw);
     lastCommitment := orNull (raw_lastCommitment raw);
     notes := orList (raw_notes raw) |}.

(** The literal [{ peerId, firstSeen: Date.now(), lastSeen: Date.now() }]. *)
Definition new_raw (p : string) (now : Z) : raw_reputation :=
  {| raw_peerId := p; raw_firstSeen := Some now; raw_lastSeen := Some now;
     raw_totalConnections := None; raw_successfulConnections := None;
     raw_failedConnections := None; raw_averageResponseTime := None;
     raw_totalChallenges := None; raw_successfulChallenges := None;
     raw_failedChallenges := None; raw_averageVerificationTime := None;
     raw_dataIntegrityScore := None; raw_corruptedFiles := None;
     raw_totalFilesTransferred := None; raw_uptimeScore := None;
     raw_uptimeHistory := None; raw_overallScore := None;
     raw_trustLevel := None; raw_isBlacklisted := None;
     raw_blacklistReason := None; raw_publicKey := None;
     raw_lastCommitment := None; raw_notes := None |}.

(** [this.peers]. *)
Abbreviation peers := (gmap string reputation).

(** [getPeerReputation(peerId)]: get or create. *)
Definition getPeerReputation (st : peers) (p : string) (now : Z)
    : peers * reputation :=
  match st !! p with
  | Some r => (st, r)
  | None =>
    let newReputation := migrateReputationData (new_raw p now) now in
    (<[p := newReputation]> st, newReputation)
  end.

(** [calculateResponseTimeScore(avgResponseTime)] *)
Definition calculateResponseTimeScore (avgResponseTime : Q) : Q :=
  if Qeq_bool avgResponseTime 0 then 1 # 2
  else
    let maxAcceptableTime : Q := 30000 # 1 in
    let score := Qmax 0 (1 - avgResponseTime / maxAcceptableTime) in
    Qmin 1 score.

(** [getTrustLevel(score)] *)
Definition getTrustLevel (score : Q) : string :=
  if Qgeb score thresholds_trusted then "trusted"
  else if Qgeb score thresholds_acceptable then "acceptable"
  else if Qgeb score thresholds_suspicious then "suspicious"
  else "untrusted".

(** The three component scores computed inside [updateOverallScore]. *)
Definition connectionScore (r : reputation) : Q :=
  if 0 <? totalConnections r
  then inject_Z (successfulConnections r) / inject_Z (totalConnections r)
  else 1 # 2.

Definition verificationScore (r : reputation) : Q :=
  if 0 <? totalChallenges r
  then inject_Z (successfulChallenges r) / inject_Z (totalChallenges r)
  else 1 # 2.

Definition responseTimeScore (r : reputation) : Q :=
  calculateResponseTimeScore (averageResponseTime r).

(** The weighted sum assigned to [reputation.overallScore]. *)
Definition weightedScore (r : reputation) : Q :=
  connectionScore r * weights_uptime
  + responseTimeScore r * weights_responseTime
  + verificationScore r * weights_verificationSuccess
  + dataIntegrityScore r * weights_dataIntegrity.

(** The assignments of [blacklistPeer] to the record. *)
Definition blacklisted_record (r : reputation) (why : string) : reputation :=
  {| peerId := peerId r; firstSeen := firstSeen r; lastSeen := lastSeen r;
     totalConnections := totalConnections r;
     successfulConnections := successfulConnections r;
     failedConnections := failedConnections r;
     averageResponseTime := averageResponseTime r;
     totalChallenges := totalChallenges r;
     successfulChallenges := successfulChallenges r;
     failedChallenges := failedChallenges r;
     averageVerificationTime := averageVerificationTime r;
     dataIntegrityScore := dataIntegrityScore r;
     corruptedFiles := corruptedFiles r;
     totalFilesTransferred := totalFilesTransferred r;
     uptimeScore := uptimeScore r; uptimeHistory := uptimeHistory r;
     overallScore := 0;
     trustLevel := "blacklisted";
     isBlacklisted := true;
     blacklistReason := Some why;
     publicKey := publicKey r; lastCommitment := lastCommitment r;
     notes := notes r |}.

(** [blacklistPeer(peerId, reason)] *)
Definition blacklistPeer (st : peers) (p : string) (why : string) (now : Z)
    : peers :=
  let '(st1, r) := getPeerReputation st p now in
  <[p := blacklisted_record r why]> st1.

(** The assignments of [updateOverallScore] to the record, before the
    automatic blacklist. *)
Definition scored_record (r : reputation) : reputation :=
  {| peerId := peerId r; firstSeen := firstSeen r; lastSeen := lastSeen r;
     totalConnections := totalConnections r;
     successfulConnections := successfulConnections r;
     failedConnections := failedConnections r;
     averageResponseTime := averageResponseTime r;
     totalChallenges := totalChallenges r;
     successfulChallenges := successfulChallenges r;
     failedChallenges := failedChallenges r;
     averageVerificationTime := averageVerificationTime r;
     dataIntegrityScore := dataIntegrityScore r;
     corruptedFiles := corruptedFiles r;
     totalFilesTransferred := totalFilesTransferred r;
     uptimeScore := uptimeScore r; uptimeHistory := uptimeHistory r;
     overallScore := weightedScore r;
     trustLevel := getTrustLevel (weightedScore r);
     isBlacklisted := isBlacklisted r;
     blacklistReason := blacklistReason r;
     publicKey := publicKey r; lastCommitment := lastCommitment r;
     notes := notes r |}.

(** [updateOverallScore(peerId)] *)
Definition updateOverallScore (st : peers) (p : string) (now : Z) : peers :=
  let '(st1, r) := getPeerReputation st p now in
  let r1 := scored_record r in
  let st2 := <[p := r1]> st1 in
  if Qltb (overallScore r1) thresholds_blacklisted && negb (isBlacklisted r1)
  then blacklistPeer st2 p "Automatic blacklist due to low reputation" now
  else st2.

(** The assignments of [recordConnection] to the record. *)
Definition connection_recorded (r : reputation) (responseTime : Q)
    (success : bool) (now : Z) : reputation :=
  let total := totalConnections r + 1 in
  {| peerId := peerId r; firstSeen := firstSeen r;
     lastSeen := now;
     totalConnections := total;
     successfulConnections :=
       if success then successfulConnections r + 1 else successfulConnections r;
     failedConnections :=
       if success then failedConnections r else failedConnections r + 1;
     averageResponseTime :=
       if success && Qgtb responseTime 0
       then (averageResponseTime r * inject_Z (total - 1) + responseTime)
            / inject_Z total
       else averageResponseTime r;
     totalChallenges := totalChallenges r;
     successfulChallenges := successfulChallenges r;
     failedChallenges := failedChallenges r;
     averageVerificationTime := averageVerificationTime r;
     dataIntegrityScore := dataIntegrityScore r;
     corruptedFiles := corruptedFiles r;
     totalFilesTransferred := totalFilesTransferred r;
     uptimeScore := uptimeScore r; uptimeHistory := uptimeHistory r;
     overallScore := overallScore r; trustLevel := trustLevel r;
     isBlacklisted := isBlacklisted r; blacklistReason := blacklistReason r;
     publicKey := publicKey r; lastCommitment := lastCommitment r;
     notes := notes r |}.

(** [recordConnection(peerId, responseTime = 0, success = true)].  The
    record returned by [getPeerReputation] is the object held by the map:
    its mutation is an update of the map entry. *)
Definition recordConnection (st : peers) (p : string) (responseTime : Q)
    (success : bool) (now : Z) : peers :=
  let '(st1, r) := getPeerReputation st p now in
  updateOverallScore (<[p := connection_recorded r responseTime success now]> st1)
    p now.

(** The assignments of [recordVerification] to the record. *)
Definition verification_recorded (r : reputation) (success : bool)
    (responseTime : Q) : reputation :=
  let total := totalChallenges r + 1 in
  {| peerId := peerId r; firstSeen := firstSeen r; lastSeen := lastSeen r;
     totalConnections := totalConnections r;
     successfulConnections := successfulConnections r;
     failedConnections := failedConnections r;
     averageResponseTime := averageResponseTime r;
     totalChallenges := total;
     successfulChallenges :=
       if success then successfulChallenges r + 1 else successfulChallenges r;
     failedChallenges :=
       if success then failedChallenges r else failedChallenges r + 1;
     averageVerificationTime :=
       if success && Qgtb responseTime 0
       then (averageVerificationTime r * inject_Z (total - 1) + responseTime)
            / inject_Z total
       else averageVerificationTime r;
     dataIntegrityScore := dataIntegrityScore r;
     corruptedFiles := corruptedFiles r;
     totalFilesTransferred := totalFilesTransferred r;
     uptimeScore := uptimeScore r; uptimeHistory := uptimeHistory r;
     overallScore := overallScore r; trustLevel := trustLevel r;
     isBlacklisted := isBlacklisted r; blacklistReason := blacklistReason r;
     publicKey := publicKey r; lastCommitment := lastCommitment r;
     notes := notes r |}.

(** [recordVerification(peerId, success = true, responseTime = 0)] *)
Definition recordVerification (st : peers) (p : string) (success : bool)
    (responseTime : Q) (now : Z) : peers :=
  let '(st1, r) := getPeerReputation st p now in
  updateOverallScore (<[p := verification_recorded r success responseTime]> st1)
    p now.

(** The assignments of [recordFileTransfer] to the record. *)
Definition transfer_recorded (r : reputation) (filesCount corruptedCount : Z)
    : reputation :=
  let total := totalFilesTransferred r + filesCount in
  let corrupted := corruptedFiles r + corruptedCount in
  {| peerId := peerId r; firstSeen := firstSeen r; lastSeen := lastSeen r;
     totalConnections := totalConnections r;
     successfulConnections := successfulConnections r;
     failedConnections := failedConnections r;
     averageResponseTime := averageResponseTime r;
     totalChallenges := totalChallenges r;
     successfulChallenges := successfulChallenges r;
     failedChallenges := failedChallenges r;
     averageVerificationTime := averageVerificationTime r;
     dataIntegrityScore :=
       if 0 <? total then 1 - inject_Z corrupted / inject_Z total
       else dataIntegrityScore r;
     corruptedFiles := corrupted;
     totalFilesTransferred := total;
     uptimeScore := uptimeScore r; uptimeHistory := uptimeHistory r;
     overallScore := overallScore r; trustLevel := trustLevel r;
     isBlacklisted := isBlacklisted r; blacklistReason := blacklistReason r;
     publicKey := publicKey r; lastCommitment := lastCommitment r;
     notes := notes r |}.

(** [recordFileTransfer(peerId, success = true, filesCount = 1, corruptedCount = 0)];
    [success] is not read by the body. *)
Definition recordFileTransfer (st : peers) (p : string) (success : bool)
    (filesCount corruptedCount : Z) (now : Z) : peers :=
  let '(st1, r) := getPeerReputation st p now in
  updateOverallScore (<[p := transfer_recorded r filesCount corruptedCount]> st1)
    p now.

(** [list.slice(-n)]: the last [n] elements. *)
Definition slice_last {A} (n : nat) (l : list A) : list A :=
  skipn (length l - n) l.

(** The average of the last 50 checks; 1 when there is none. *)
Definition uptime_of (history : list uptime_check) : Q :=
  let recentChecks := slice_last 50 history in
  let upCount := length (List.filter available recentChecks) in
  if (0 <? length recentChecks)%nat
  then inject_Z (Z.of_nat upCount) / inject_Z (Z.of_nat (length recentChecks))
  else 1.

(** The assignments of [recordUptime] to the record. *)
Definition uptime_recorded (r : reputation) (wasAvailable : bool) (now : Z)
    : reputation :=
  let shifted :=
    if (100 <=? length (uptimeHistory r))%nat then tl (uptimeHistory r)
    else uptimeHistory r in
  let history := shifted ++ [UptimeCheck now wasAvailable] in
  {| peerId := peerId r; firstSeen := firstSeen r; lastSeen := lastSeen r;
     totalConnections := totalConnections r;
     successfulConnections := successfulConnections r;
     failedConnections := failedConnections r;
     averageResponseTime := averageResponseTime r;
     totalChallenges := totalChallenges r;
     successfulChallenges := successfulChallenges r;
     failedChallenges := failedChallenges r;
     averageVerificationTime := averageVerificationTime r;
     dataIntegrityScore := dataIntegrityScore r;
     corruptedFiles := corruptedFiles r;
     totalFilesTransferred := totalFilesTransferred r;
     uptimeScore := uptime_of history;
     uptimeHistory := history;
     overallScore := overallScore r; trustLevel := trustLevel r;
     isBlacklisted := isBlacklisted r; blacklistReason := blacklistReason r;
     publicKey := publicKey r; lastCommitment := lastCommitment r;
     notes := notes r |}.

(** [recordUptime(peerId, wasAvailable = true)] *)
Definition recordUptime (st : peers) (p : string) (wasAvailable : bool)
    (now : Z) : peers :=
  let '(st1, r) := getPeerReputation st p now in
  updateOverallScore (<[p := uptime_recorded r wasAvailable now]> st1) p now.

(** The result of [isPeerAcceptable]; a rejection keeps the numbers its
    reason prints. *)
Inductive acceptability :=
| Acceptable
| RejectedBlacklisted
| RejectedTooLow (score threshold : Q).

Definition acceptable (a : acceptability) : bool :=
  match a with Acceptable => true | _ => false end.

(** [isPeerAcceptable(peerId, minScore = null)] *)
Definition isPeerAcceptable (st : peers) (p : string) (minScore : option Q)
    (now : Z) : peers * acceptability :=
  let '(st1, r) := getPeerReputation st p now in
  if isBlacklisted r then (st1, RejectedBlacklisted)
  else
    let threshold := orQ minScore thresholds_acceptable in
    if Qltb (overallScore r) threshold
    then (st1, RejectedTooLow (overallScore r) threshold)
    else (st1, Acceptable).

(** The recorded reputation events.  File and corruption counts are
    natural numbers; every event carries the clock reading of its call. *)
Inductive event :=
| ConnectionEvent (p : string) (responseTime : Q) (success : bool) (now : Z)
| VerificationEvent (p : string) (success : bool) (responseTime : Q) (now : Z)
| FileTransferEvent (p : string) (success : bool) (filesCount corruptedCount : N) (now : Z)
| UptimeEvent (p : string) (wasAvailable : bool) (now : Z).

Definition event_peer (e : event) : string :=
  match e with
  | ConnectionEvent p _ _ _ | VerificationEvent p _ _ _
  | FileTransferEvent p _ _ _ _ | UptimeEvent p _ _ => p
  end.

Definition record (st : peers) (e : event) : peers :=
  match e with
  | ConnectionEvent p rt ok now => recordConnection st p rt ok now
  | VerificationEvent p ok rt now => recordVerification st p ok rt now
  | FileTransferEvent p ok n c now =>
      recordFileTransfer st p ok (Z.of_N n) (Z.of_N c) now
  | UptimeEvent p up now => recordUptime st p up now
  end.

(** The store after a sequence of events, starting with no peer. *)
Definition record_all (evs : list event) : peers := fold_left record evs ∅.

(** ** The scoring formula as the specification words it *)

Definition spec_uptime_score (r : reputation) : Q := uptime_of (uptimeHistory r).

Definition spec_response_time_score (r : reputation) : Q :=
  Qmax 0 (1 - averageResponseTime r / (30000 # 1)).

Definition spec_verification_score (r : reputation) : Q :=
  if totalChallenges r =? 0 then 1 # 2
  else inject_Z (successfulChallenges r) / inject_Z (totalChallenges r).

Definition spec_integrity_score (r : reputation) : Q :=
  if totalFilesTransferred r =? 0 then 1
  else 1 - inject_Z (corruptedFiles r) / inject_Z (totalFilesTransferred r).

Definition spec_overall_score (r : reputation) : Q :=
  (3 # 10) * spec_uptime_score r
  + (2 # 10) * spec_response_time_score r
  + (3 # 10) * spec_verification_score r
  + (2 # 10) * spec_integrity_score r.

(** ** The scoring formula that the code implements, in the same words *)

(** connection-score = successful / total connections (0.5 if total = 0). *)
Definition spec_connection_score (r : reputation) : Q :=
  if totalConnections r =? 0 then 1 # 2
  else inject_Z (successfulConnections r) / inject_Z (totalConnections r).

(** The weighted sum with the connection score as its first component and
    the response-time score of [calculateResponseTimeScore] (0.5 when no
    time was measured). *)
Definition designed_overall_score (r : reputation) : Q :=
  (3 # 10) * spec_connection_score r
  + (2 # 10) * calculateResponseTimeScore (averageResponseTime r)
  + (3 # 10) * spec_verification_score r
  + (2 # 10) * spec_integrity_score r.

Local Open Scope Q_scope.

(** ** Invariants of the store *)

(** What the counters of a record satisfy along every event sequence. *)
Record counters_ok (r : reputation) : Prop := CountersOk {
  conn_nonneg : (0 ≤ successfulConnections r)%Z;
  conn_le : (successfulConnections r ≤ totalConnections r)%Z;
  chal_nonneg : (0 ≤ successfulChallenges r)%Z;
  chal_le : (successfulChallenges r ≤ totalChallenges r)%Z;
  files_nonneg : (0 ≤ totalFilesTransferred r)%Z;
  integrity_stored : dataIntegrityScore r == spec_integrity_score r
}.

(** What [updateOverallScore] leaves in the derived fields. *)
Definition score_ok (r : reputation) : Prop :=
  overallScore r == weightedScore r
  ∨ (isBlacklisted r = true ∧ trustLevel r = "blacklisted"%string
     ∧ overallScore r == 0 ∧ weightedScore r < thresholds_blacklisted).

(** The record that [updateOverallScore] stores for a record [r]. *)
Definition rescored (r : reputation) : reputation :=
  if Qltb (weightedScore r) thresholds_blacklisted && negb (isBlacklisted r)
  then blacklisted_record (scored_record r)
         "Automatic blacklist due to low reputation"
  else scored_record r.

(** The clock reading and the record mutation of an event. *)
Definition event_now (e : event) : Z :=
  match e with
  | ConnectionEvent _ _ _ now | VerificationEvent _ _ _ now
  | FileTransferEvent _ _ _ _ now | UptimeEvent _ _ now => now
  end.

Definition applied (e : event) (r : reputation) : reputation :=
  match e with
  | ConnectionEvent _ rt ok now => connection_recorded r rt ok now
  | VerificationEvent _ ok rt _ => verification_recorded r ok rt
  | FileTransferEvent _ _ n c _ => transfer_recorded r (Z.of_N n) (Z.of_N c)
  | UptimeEvent _ up now => uptime_recorded r up now
  end.

(** The invariant of the store: every record has consistent counters and
    freshly derived fields. *)
Definition store_ok (st : peers) : Prop :=
  ∀ p r, st !! p = Some r → counters_ok r ∧ score_ok r.

(** The stored uptime score is the average over the last 50 samples. *)
Definition uptime_ok (st : peers) : Prop :=
  ∀ q x, st !! q = Some x → uptimeHistory x ≠ [] →
         uptimeScore x = uptime_of (uptimeHistory x).

(** ** Blacklist removal, clean-up and merge *)

(** The assignments of [unblacklistPeer] to the record. *)
Definition unblacklisted_record (r : reputation) : reputation :=
  {| peerId := peerId r; firstSeen := firstSeen r; lastSeen := lastSeen r;
     totalConnections := totalConnections r;
     successfulConnections := successfulConnections r;
     failedConnections := failedConnections r;
     averageResponseTime := averageResponseTime r;
     totalChallenges := totalChallenges r;
     successfulChallenges := successfulChallenges r;
     failedChallenges := failedChallenges r;
     averageVerificationTime := averageVerificationTime r;
     dataIntegrityScore := dataIntegrityScore r;
     corruptedFiles := corruptedFiles r;
     totalFilesTransferred := totalFilesTransferred r;
     uptimeScore := uptimeScore r; uptimeHistory := uptimeHistory r;
     overallScore := overallScore r; trustLevel := trustLevel r;
     isBlacklisted := false;
     blacklistReason := None;
     publicKey := publicKey r; lastCommitment := lastCommitment r;
     notes := notes r |}.

(** [unblacklistPeer(peerId)] *)
Definition unblacklistPeer (st : peers) (p : string) (now : Z) : peers :=
  let '(st1, r) := getPeerReputation st p now in
  updateOverallScore (<[p := unblacklisted_record r]> st1) p now.

(** The test of [cleanup] on one record. *)
Definition stale (cutoff : Z) (r : reputation) : bool :=
  (lastSeen r <? cutoff)%Z && (totalConnections r <? 5)%Z
  && (totalChallenges r <? 5)%Z.

(** [cleanup(maxAge)] at clock reading [now]: the store without the stale
    records, and the number of records deleted. *)
Definition cleanup (st : peers) (maxAge : Z) (now : Z) : peers * nat :=
  let cutoff := (now - maxAge)%Z in
  (filter (λ kv, stale cutoff kv.2 = false) st,
   size (filter (λ kv, stale cutoff kv.2 = true) st)).

(** [a || b || null] on two optional strings. *)
Definition orElse (a b : option string) : option string :=
  match orNull a with Some s => Some s | None => orNull b end.

(** [mergeReputationData(current, incoming)] *)
Definition mergeReputationData (current : reputation) (incoming : raw_reputation)
    : reputation :=
  {| peerId := peerId current; firstSeen := firstSeen current;
     lastSeen := Z.max (lastSeen current) (orZ (raw_lastSeen incoming) 0);
     totalConnections :=
       (totalConnections current + orZ (raw_totalConnections incoming) 0)%Z;
     successfulConnections :=
       (successfulConnections current
        + orZ (raw_successfulConnections incoming) 0)%Z;
     failedConnections :=
       (failedConnections current + orZ (raw_failedConnections incoming) 0)%Z;
     averageResponseTime := averageResponseTime current;
     totalChallenges :=
       (totalChallenges current + orZ (raw_totalChallenges incoming) 0)%Z;
     successfulChallenges :=
       (successfulChallenges current
        + orZ (raw_successfulChallenges incoming) 0)%Z;
     failedChallenges :=
       (failedChallenges current + orZ (raw_failedChallenges incoming) 0)%Z;
     averageVerificationTime := averageVerificationTime current;
     dataIntegrityScore := dataIntegrityScore current;
     corruptedFiles :=
       (corruptedFiles current + orZ (raw_corruptedFiles incoming) 0)%Z;
     totalFilesTransferred :=
       (totalFilesTransferred current
        + orZ (raw_totalFilesTransferred incoming) 0)%Z;
     uptimeScore := uptimeScore current; uptimeHistory := uptimeHistory current;
     overallScore := overallScore current; trustLevel := trustLevel current;
     isBlacklisted := isBlacklisted current || orFalse (raw_isBlacklisted incoming);
     blacklistReason :=
       orElse (blacklistReason current) (raw_blacklistReason incoming);
     publicKey := publicKey current; lastCommitment := lastCommitment current;
     notes := notes current |}.

(** ** Further invariants of the records *)

(** The tallies add up: every connection and every challenge is counted as
    a success or as a failure, no count is negative, and the uptime window
    holds at most 100 checks. *)
Record tallies_ok (r : reputation) : Prop := TalliesOk {
  conn_sum : (successfulConnections r + failedConnections r
              = totalConnections r)%Z;
  conn_parts : (0 ≤ successfulConnections r ∧ 0 ≤ failedConnections r)%Z;
  chal_sum : (successfulChallenges r + failedChallenges r
              = totalChallenges r)%Z;
  chal_parts : (0 ≤ successfulChallenges r ∧ 0 ≤ failedChallenges r)%Z;
  files_parts : (0 ≤ corruptedFiles r ∧ 0 ≤ totalFilesTransferred r)%Z;
  window_size : (length (uptimeHistory r) ≤ 100)%nat
}.

(** The trust level is the one of the stored score, or the record was
    just blacklisted and its score is 0. *)
Definition trust_ok (r : reputation) : Prop :=
  trustLevel r = getTrustLevel (overallScore r)
  ∨ (trustLevel r = "blacklisted"%string ∧ isBlacklisted r = true
     ∧ overallScore r = 0).

(** A file-transfer event that reports no more corrupted files than files. *)
Definition event_sane (e : event) : Prop :=
  match e with
  | FileTransferEvent _ _ n c _ => (c ≤ n)%N
  | _ => True
  end.

(** The record that [getPeerReputation] creates. *)
Definition fresh (p : string) (now : Z) : reputation :=
  migrateReputationData (new_raw p now) now.

(** The files tally: no more corrupted files than files. *)
Definition files_ok (r : reputation) : Prop :=
  (0 ≤ corruptedFiles r ∧ corruptedFiles r ≤ totalFilesTransferred r)%Z.

(** The counters of an imported record, read with their defaults. *)
Definition incoming_tallies_ok (incoming : raw_reputation) : Prop :=
  (orZ (raw_successfulConnections incoming) 0
   + orZ (raw_failedConnections incoming) 0
   = orZ (raw_totalConnections incoming) 0
   ∧ 0 ≤ orZ (raw_successfulConnections incoming) 0
   ∧ 0 ≤ orZ (raw_failedConnections incoming) 0
   ∧ orZ (raw_successfulChallenges incoming) 0
     + orZ (raw_failedChallenges incoming) 0
     = orZ (raw_totalChallenges incoming) 0
   ∧ 0 ≤ orZ (raw_successfulChallenges incoming) 0
   ∧ 0 ≤ orZ (raw_failedChallenges incoming) 0
   ∧ 0 ≤ orZ (raw_corruptedFiles incoming) 0
   ∧ 0 ≤ orZ (raw_totalFilesTransferred incoming) 0)%Z.

End Reputation.

(* ===================================================================== *)
(** * The platform: Node buffers and the sodium-native primitives *)
(* ===================================================================== *)

(** A [Buffer] is a list of bytes; a JavaScript string is the byte string
    of its UTF-8 encoding. *)
Abbreviation buffer := (list Byte.byte).

(** A call that returns a value or throws an [Error] with a message. *)
Inductive result (A : Type) :=
| Ok (a : A)
| Throw (message : string).
Arguments Ok {A} a.
Arguments Throw {A} message.

(** [buf.toString('hex')] *)
Definition hex_digit (n : N) : ascii :=
  match String.get (N.to_nat n) "0123456789abcdef" with
  | Some c => c
  | None => "0"%char
  end.

Definition hex_of_byte (b : Byte.byte) : string :=
  let n := Byte.to_N b in
  String (hex_digit (n / 16)) (String (hex_digit (n mod 16)) EmptyString).

Fixpoint to_hex (l : buffer) : string :=
  match l with
  | [] => EmptyString
  | b :: rest => (hex_of_byte b ++ to_hex rest)%string
  end.

(** [Buffer.from(s, 'hex')]: pairs of hexadecimal digits, of either case,
    up to the first pair that is not one. *)
Definition hex_value (c : ascii) : option N :=
  let n := N_of_ascii c in
  if (48 <=? n)%N && (n <=? 57)%N then Some (n - 48)%N
  else if (97 <=? n)%N && (n <=? 102)%N then Some (n - 87)%N
  else if (65 <=? n)%N && (n <=? 70)%N then Some (n - 55)%N
  else None.

Definition byte_of_N (n : N) : Byte.byte :=
  match Byte.of_N n with Some b => b | None => Byte.x00 end.

Fixpoint from_hex (s : string) : buffer :=
  match s with
  | String a (String b rest) =>
    match hex_value a, hex_value b with
    | Some x, Some y => byte_of_N (16 * x + y) :: from_hex rest
    | _, _ => []
    end
  | _ => []
  end.

(** [Buffer.from(s, 'utf8')] *)
Definition from_utf8 (s : string) : buffer := String.list_byte_of_string s.

(** Sizes exported by sodium-native. *)
Definition crypto_box_NONCEBYTES : nat := 24.
Definition crypto_box_MACBYTES : nat := 16.
Definition crypto_sign_PUBLICKEYBYTES : nat := 32.
Definition crypto_sign_BYTES : nat := 64.

(** The functions the sources call and do not define: SHA-256, the
    Ed25519 detached verification (which throws on ill-sized arguments),
    the secret-box pair keyed by a shared secret, base64 decoding and the
    two [JSON.stringify] calls on fixed object shapes.  [randombytes_buf]
    is an explicit nonce argument where it is used.  A call on the
    [sodium] object throws when the binding has no function of that name
    (a TypeError), hence the [result] of the two secret-box calls; the
    opening call returns a falsy value, here [Ok None], for a box it
    cannot open. *)
Class Platform := {
  sha256 : buffer → buffer;
  crypto_sign_verify_detached :
    buffer (* signature *) → buffer (* message *) → buffer (* public key *)
    → result bool;
  crypto_box_easy_afternm :
    buffer (* message *) → buffer (* nonce *) → buffer (* shared secret *)
    → result buffer;
  crypto_box_open_easy_afternm :
    buffer (* ciphertext *) → buffer (* nonce *) → buffer (* shared secret *)
    → result (option buffer);
  base64_decode : string → buffer;
  stringify_commitment :
    string (* peerId *) → option Z (* storageOffered *)
    → option Z (* timestamp *) → option Z (* expiresAt *) → string;
  stringify_metadata :
    string (* backupId *) → Z (* timestamp *) → nat (* fileCount *)
    → string (* nonce *) → string
}.

(** Further things the sources use and do not define: the Ed25519
    detached signature, the size constant and the X25519 precomputation
    of a shared secret ([None] and a throwing call when the binding has
    none of that name), [JSON.stringify] on the session-proof object and
    [path.join]. *)
Class PlatformExt := {
  crypto_sign_detached :
    buffer (* message *) → buffer (* private key *) → buffer;
  crypto_box_BEFORENMBYTES : option nat;
  crypto_box_beforenm :
    buffer (* their public key *) → buffer (* our private key *)
    → result buffer;
  stringify_session :
    string (* iceCandidate *) → Z (* timestamp *) → string (* nonce *) → string;
  path_join : string → string → string
}.

(** The secret-box functions of sodium-native, the binding the sources
    load as [sodium]: it has [crypto_box_easy] and [crypto_box_open_easy]
    but no [crypto_box_beforenm], [crypto_box_easy_afternm] or
    [crypto_box_open_easy_afternm] and no constant
    [crypto_box_BEFORENMBYTES], so that the constant reads [undefined]
    and each of the three calls throws a TypeError. *)
Class SodiumNative (P : Platform) (E : PlatformExt) : Prop := {
  no_BEFORENMBYTES : crypto_box_BEFORENMBYTES = None;
  no_beforenm : ∀ pk sk,
    crypto_box_beforenm pk sk
    = Throw "sodium.crypto_box_beforenm is not a function";
  no_easy_afternm : ∀ m n k,
    crypto_box_easy_afternm m n k
    = Throw "sodium.crypto_box_easy_afternm is not a function";
  no_open_easy_afternm : ∀ c n k,
    crypto_box_open_easy_afternm c n k
    = Throw "sodium.crypto_box_open_easy_afternm is not a function"
}.

(** A small instance with a key agreement: a signature is 64 zero bytes
    and every pair of keys shares the same secret. *)
Definition demo_platform_ext : PlatformExt :=
  {| crypto_sign_detached := λ m k, replicate 64 Byte.x00;
     crypto_box_BEFORENMBYTES := Some 32%nat;
     crypto_box_beforenm := λ pk sk, Ok [Byte.x2a];
     stringify_session := λ ice t nonce, (ice ++ ":" ++ nonce)%string;
     path_join := λ dir name, (dir ++ "/" ++ name)%string |}.

(** The same instance with the exports of sodium-native. *)
Definition sodium_native_ext : PlatformExt :=
  {| crypto_sign_detached := λ m k, replicate 64 Byte.x00;
     crypto_box_BEFORENMBYTES := None;
     crypto_box_beforenm := λ pk sk,
       Throw "sodium.crypto_box_beforenm is not a function";
     stringify_session := λ ice t nonce, (ice ++ ":" ++ nonce)%string;
     path_join := λ dir name, (dir ++ "/" ++ name)%string |}.

(** A small instance of the interface on which the statements below can
    be run: the hash pads or cuts its input to 32 bytes, a signature is
    accepted when it and the key have the right sizes, and a sealed box is
    the message behind 16 zero bytes. *)
Definition demo_open (c : buffer) : option buffer :=
  if (crypto_box_MACBYTES <=? length c)%nat
     && forallb (Byte.eqb Byte.x00) (take crypto_box_MACBYTES c)
  then Some (drop crypto_box_MACBYTES c) else None.

Definition demo_platform : Platform :=
  {| sha256 := λ m, take 32 (m ++ replicate 32 Byte.x00);
     crypto_sign_verify_detached := λ s m k,
       if (length s =? crypto_sign_BYTES)%nat
          && (length k =? crypto_sign_PUBLICKEYBYTES)%nat
       then Ok true else Throw "bad argument size";
     crypto_box_easy_afternm := λ m n k,
       Ok (replicate crypto_box_MACBYTES Byte.x00 ++ m);
     crypto_box_open_easy_afternm := λ c n k, Ok (demo_open c);
     base64_decode := from_hex;
     stringify_commitment := λ p o t e, p;
     stringify_metadata := λ b t n nonce, (b ++ nonce)%string |}.

(** The same instance with the exports of sodium-native. *)
Definition sodium_native_platform : Platform :=
  {| sha256 := λ m, take 32 (m ++ replicate 32 Byte.x00);
     crypto_sign_verify_detached := λ s m k,
       if (length s =? crypto_sign_BYTES)%nat
          && (length k =? crypto_sign_PUBLICKEYBYTES)%nat
       then Ok true else Throw "bad argument size";
     crypto_box_easy_afternm := λ m n k,
       Throw "sodium.crypto_box_easy_afternm is not a function";
     crypto_box_open_easy_afternm := λ c n k,
       Throw "sodium.crypto_box_open_easy_afternm is not a function";
     base64_decode := from_hex;
     stringify_commitment := λ p o t e, p;
     stringify_metadata := λ b t n nonce, (b ++ nonce)%string |}.

(* ===================================================================== *)
(** * Crypto component ([BackupCrypto]) *)
(* ===================================================================== *)

Module BackupCrypto.
Section WithPlatform.
Context {P : Platform}.

Record key_pair := KeyPair { kp_publicKey : buffer; kp_privateKey : buffer }.

(** The fields of a [BackupCrypto]. *)
Record backup_crypto := Crypto {
  keyPair : option key_pair;
  signingKeyPair : option key_pair;
  sharedSecrets : gmap string buffer
}.

(** [generatePeerIdHash(publicKey = null)]: without an argument and
    without signing keys the property access throws. *)
Definition generatePeerIdHash (c : backup_crypto) (publicKey : option buffer)
    : result string :=
  let hash_of pubKey := String.substring 0 16 (to_hex (sha256 pubKey)) in
  match publicKey with
  | Some pubKey => Ok (hash_of pubKey)
  | None =>
    match signingKeyPair c with
    | Some kp => Ok (hash_of (kp_publicKey kp))
    | None => Throw "Cannot read properties of null"
    end
  end.

(** The object built by [signPeerIdHash]. *)
Record signed_hash := SignedHash {
  sh_peerIdHash : string;
  sh_signature : string;
  sh_publicKey : string;
  sh_timestamp : option Z;
  sh_version : string
}.

(** The object returned by [verifyPeerIdHash]. *)
Record hash_verification := HashVerification {
  valid : bool;
  reason : string;
  v_peerIdHash : option string;
  v_publicKey : option string;
  v_trustLevel : option string
}.

Definition rejected (why : string) : hash_verification :=
  {| valid := false; reason := why; v_peerIdHash := None;
     v_publicKey := None; v_trustLevel := None |}.

(** [Date.now() - timestamp > 3600000]: false when the timestamp is
    missing, the difference being NaN. *)
Definition older_than_an_hour (timestamp : option Z) (now : Z) : bool :=
  match timestamp with
  | Some t => 3600000 <? now - t
  | None => false
  end.

(** [verifyPeerIdHash(signedHash)] at clock reading [now]. *)
Definition verifyPeerIdHash (signedHash : signed_hash) (now : Z)
    : hash_verification :=
  if negb (String.eqb (sh_version signedHash) "1.0")
  then rejected "Unsupported signature version"
  else if older_than_an_hour (sh_timestamp signedHash) now
  then rejected "Signature expired"
  else
    let message := from_hex (sh_peerIdHash signedHash) in
    let sig := from_hex (sh_signature signedHash) in
    let pubKey := from_hex (sh_publicKey signedHash) in
    match crypto_sign_verify_detached sig message pubKey with
    | Throw msg => rejected ("Verification failed: " ++ msg)
    | Ok isValid =>
      let expectedHash := String.substring 0 16 (to_hex (sha256 pubKey)) in
      let hashMatches := String.eqb expectedHash (sh_peerIdHash signedHash) in
      {| valid := isValid && hashMatches;
         reason := if isValid && hashMatches then "Valid peer ID hash"
                   else "Invalid signature or hash mismatch";
         v_peerIdHash := Some (sh_peerIdHash signedHash);
         v_publicKey := Some (sh_publicKey signedHash);
         v_trustLevel := Some "software-verified"%string |}
    end.

(** [encrypt(data, peerId)], with the bytes drawn by [randombytes_buf]
    as the argument [nonce]. *)
Definition encrypt (c : backup_crypto) (data : buffer) (peerId : string)
    (nonce : buffer) : result buffer :=
  match sharedSecrets c !! peerId with
  | None => Throw ("No shared secret for peer: " ++ peerId)
  | Some sharedSecret =>
    match crypto_box_easy_afternm data nonce sharedSecret with
    | Throw msg => Throw msg
    | Ok ciphertext => Ok (nonce ++ ciphertext)
    end
  end.

(** [decrypt(encryptedData, peerId)] *)
Definition decrypt (c : backup_crypto) (encryptedData : buffer)
    (peerId : string) : result buffer :=
  match sharedSecrets c !! peerId with
  | None => Throw ("No shared secret for peer: " ++ peerId)
  | Some sharedSecret =>
    if (length encryptedData <? crypto_box_NONCEBYTES + crypto_box_MACBYTES)%nat
    then Throw "Invalid encrypted data length"
    else
      let nonce := take crypto_box_NONCEBYTES encryptedData in
      let ciphertext := drop crypto_box_NONCEBYTES encryptedData in
      match crypto_box_open_easy_afternm ciphertext nonce sharedSecret with
      | Throw msg => Throw msg
      | Ok None => Throw "Decryption failed - invalid ciphertext or key"
      | Ok (Some plaintext) => Ok plaintext
      end
  end.

(** [BackupCrypto.hashData(data)] *)
Definition hashData (data : buffer) : string := to_hex (sha256 data).

(** ** Key agreement, identities and session proofs *)

Context {E : PlatformExt}.

(** [generateSharedSecret(peerPublicKey, peerId)]: the component with the
    secret cached, and the secret.  [Buffer.alloc] throws on a size that
    is not a number (its message is given here without the quotation
    marks around the argument's name); nothing is cached when a call
    throws. *)
Definition generateSharedSecret (c : backup_crypto) (peerPublicKey : buffer)
    (peerId : string) : result (backup_crypto * buffer) :=
  match keyPair c with
  | None => Throw "Keys not initialized"
  | Some kp =>
    match crypto_box_BEFORENMBYTES with
    | None =>
      Throw "The size argument must be of type number. Received undefined"
    | Some _ =>
      match crypto_box_beforenm peerPublicKey (kp_privateKey kp) with
      | Throw msg => Throw msg
      | Ok sharedSecret =>
        Ok ({| keyPair := keyPair c; signingKeyPair := signingKeyPair c;
               sharedSecrets := <[peerId := sharedSecret]> (sharedSecrets c) |},
            sharedSecret)
      end
    end
  end.

(** [signPeerIdHash(peerIdHash, privateKey = null)] at clock reading [now].
    The public key put in the result is the component's own, whatever
    private key signs. *)
Definition signPeerIdHash (c : backup_crypto) (peerIdHash : string)
    (privateKey : option buffer) (now : Z) : result signed_hash :=
  match signingKeyPair c with
  | None => Throw "Cannot read properties of null"
  | Some kp =>
    let privKey := match privateKey with
                   | Some k => k
                   | None => kp_privateKey kp
                   end in
    let message := from_hex peerIdHash in
    let signature := crypto_sign_detached message privKey in
    Ok {| sh_peerIdHash := peerIdHash;
          sh_signature := to_hex signature;
          sh_publicKey := to_hex (kp_publicKey kp);
          sh_timestamp := Some now;
          sh_version := "1.0" |}
  end.

(** [getMyPeerIdHash()] *)
Definition getMyPeerIdHash (c : backup_crypto) : result string :=
  match signingKeyPair c with
  | None => Throw "Signing keys not initialized"
  | Some _ => generatePeerIdHash c None
  end.

(** The object returned by [createPeerIdentity]: the signed hash spread
    into it, and the three fields added. *)
Record peer_identity := PeerIdentity {
  pi_signed : signed_hash;
  pi_capabilities : list string;
  pi_protocol : string;
  pi_created : Z
}.

(** [createPeerIdentity()] at clock reading [now]. *)
Definition createPeerIdentity (c : backup_crypto) (now : Z) : result peer_identity :=
  match signingKeyPair c with
  | None => Throw "Signing keys not initialized"
  | Some _ =>
    match generatePeerIdHash c None with
    | Throw msg => Throw msg
    | Ok peerIdHash =>
      match signPeerIdHash c peerIdHash None now with
      | Throw msg => Throw msg
      | Ok signedHash =>
        Ok {| pi_signed := signedHash;
              pi_capabilities := ["backup"; "restore"; "verify"]%string;
              pi_protocol := "backuppeer-v1";
              pi_created := now |}
      end
    end
  end.

(** The argument of [generateSessionProof]. *)
Record session_data := SessionData {
  sd_iceCandidate : option string;
  sd_timestamp : Z;
  sd_nonce : string
}.

(** The object returned by [generateSessionProof]. *)
Record session_proof := SessionProof {
  sp_proof : string;
  sp_signature : string;
  sp_nonce : string;
  sp_timestamp : Z;
  sp_sessionData : string
}.

(** [iceCandidate || 'no-ice'] *)
Definition ice_or_default (ice : option string) : string :=
  match ice with
  | Some s => if String.eqb s "" then "no-ice"%string else s
  | None => "no-ice"%string
  end.

(** [generateSessionProof(sessionData)] *)
Definition generateSessionProof (c : backup_crypto) (sessionData : session_data)
    : result session_proof :=
  let proofData :=
    stringify_session (ice_or_default (sd_iceCandidate sessionData))
      (sd_timestamp sessionData) (sd_nonce sessionData) in
  let proofHash := sha256 (from_utf8 proofData) in
  match signingKeyPair c with
  | None => Throw "Cannot read properties of null"
  | Some kp =>
    let signature := crypto_sign_detached proofHash (kp_privateKey kp) in
    Ok {| sp_proof := to_hex proofHash;
          sp_signature := to_hex signature;
          sp_nonce := sd_nonce sessionData;
          sp_timestamp := sd_timestamp sessionData;
          sp_sessionData := proofData |}
  end.

(** The object returned by [verifySessionProof]. *)
Record session_verification := SessionVerification {
  sv_valid : bool;
  sv_reason : string;
  sv_timestamp : option Z;
  sv_nonce : option string
}.

Definition session_rejected (why : string) : session_verification :=
  {| sv_valid := false; sv_reason := why; sv_timestamp := None; sv_nonce := None |}.

(** [verifySessionProof(sessionProof, peerPublicKey, expectedSessionData)]
    at clock reading [now]; of the expected data only the ICE candidate
    is read. *)
Definition verifySessionProof (sessionProof : session_proof)
    (peerPublicKey : buffer) (expectedIce : option string) (now : Z)
    : session_verification :=
  if 300000 <? Z.abs (now - sp_timestamp sessionProof)
  then session_rejected "Session proof timestamp too old"
  else
    let expectedProofData :=
      stringify_session (ice_or_default expectedIce)
        (sp_timestamp sessionProof) (sp_nonce sessionProof) in
    let expectedProofHash := sha256 (from_utf8 expectedProofData) in
    if negb (String.eqb (to_hex expectedProofHash) (sp_proof sessionProof))
    then session_rejected "Session proof hash mismatch"
    else
      let sig := from_hex (sp_signature sessionProof) in
      let proofBuffer := from_hex (sp_proof sessionProof) in
      match crypto_sign_verify_detached sig proofBuffer peerPublicKey with
      | Throw msg =>
        session_rejected ("Session proof verification failed: " ++ msg)
      | Ok isValid =>
        {| sv_valid := isValid;
           sv_reason := if isValid then "Valid session proof"
                        else "Invalid session signature";
           sv_timestamp := Some (sp_timestamp sessionProof);
           sv_nonce := Some (sp_nonce sessionProof) |}
      end.

End WithPlatform.
End BackupCrypto.

(* ===================================================================== *)
(** * Verification protocol ([StorageVerification]) *)
(* ===================================================================== *)

Module StorageVerification.
Section WithPlatform.
Context {P : Platform}.

(** The object built by [signCommitment]. *)
Record commitment_signature := CommitmentSignature {
  cs_signature : string;
  cs_publicKey : string;
  cs_algorithm : string
}.

(** A storage commitment as it arrives from a peer, with the fields
    [verifyCommitment] reads.  The [signature] field is [None] when it is
    missing or not an object, a numeric field when it is missing. *)
Record commitment := Commitment {
  peerId : string;
  publicKey : string;
  storageOffered : option Z;
  timestamp : option Z;
  expiresAt : option Z;
  signature : option commitment_signature
}.

(** The object returned by [verifyCommitment]. *)
Inductive commitment_check :=
| Valid
| Invalid (reason : string).

Definition valid (c : commitment_check) : bool :=
  match c with Valid => true | Invalid _ => false end.

Definition MiB : Z := 1024 * 1024.
Definition TiB : Z := 1024 * 1024 * 1024 * 1024.

(** The [try] block of [verifyCommitment]: [None] when it falls through to
    the checks after it, [Some r] when it returns [r]. *)
Definition verifySignature (c : commitment) : option commitment_check :=
  let commitmentData :=
    stringify_commitment (peerId c) (storageOffered c) (timestamp c) (expiresAt c) in
  match signature c with
  | None => Some (Invalid "Invalid signature format")
  | Some s =>
    let message := from_utf8 commitmentData in
    let sig := from_hex (cs_signature s) in
    let pubKey := from_hex (cs_publicKey s) in
    if negb (length pubKey =? crypto_sign_PUBLICKEYBYTES)%nat
    then Some (Invalid "Invalid public key length for Ed25519 signature")
    else if negb (length sig =? crypto_sign_BYTES)%nat
    then Some (Invalid "Invalid signature length for Ed25519")
    else
      match crypto_sign_verify_detached sig message pubKey with
      | Throw msg => Some (Invalid ("Signature verification failed: " ++ msg))
      | Ok isValid =>
        if negb isValid then Some (Invalid "Invalid Ed25519 signature")
        else if negb (String.eqb (cs_publicKey s) (publicKey c))
        then Some (Invalid "Public key mismatch")
        else None
      end
  end.

(** [x < field] and [field < x] on a numeric field of a message: false
    when the field is missing, as every comparison with NaN is. *)
Definition below_field (x : Z) (field : option Z) : bool :=
  match field with Some v => x <? v | None => false end.

Definition field_below (field : option Z) (x : Z) : bool :=
  match field with Some v => v <? x | None => false end.

(** [verifyCommitment(commitment)] at clock reading [now]. *)
Definition verifyCommitment (c : commitment) (now : Z) : commitment_check :=
  match verifySignature c with
  | Some r => r
  | None =>
    if field_below (expiresAt c) now then Invalid "Commitment expired"
    else if field_below (storageOffered c) MiB
    then Invalid "Storage offering too small"
    else if below_field TiB (storageOffered c)
    then Invalid "Storage offering suspiciously large"
    else Valid
  end.

(** The kind-specific part of a challenge built by [generateChallenge]:
    the [type] tag with the one field that the kind adds. *)
Inductive challenge_kind :=
| random_blocks (blockIndices : list nat)
| file_hash (fileIndices : list nat)
| metadata_proof (nonce : string)
| unknown_kind (type : string).

Record challenge := Challenge {
  ch_id : string;
  ch_backupId : string;
  ch_kind : challenge_kind;
  ch_timestamp : Z;
  ch_expiresAt : Z
}.

(** One element of [proof.blocks] or [proof.files]. *)
Record proof_entry := ProofEntry {
  pe_index : nat;
  pe_hash : string;
  pe_size : Z
}.

(** A [storage_proof] payload as received: any field may be missing. *)
Record proof := Proof {
  pr_error : option string;
  pr_backupId : option string;
  pr_blocks : option (list proof_entry);
  pr_files : option (list proof_entry);
  pr_metadataHash : option string;
  pr_nonce : option string
}.

(** JavaScript truthiness of an optional string. *)
Definition truthy (s : option string) : bool :=
  match s with
  | Some v => negb (String.eqb v "")
  | None => false
  end.

(** [verifyProof(challenge, proof)], as the truth value that [handleProof]
    tests. *)
Definition verifyProof (c : challenge) (p : proof) : bool :=
  if truthy (pr_error p) then false
  else
    match ch_kind c with
    | random_blocks blockIndices =>
      match pr_blocks p with
      | Some blocks => (length blocks =? length blockIndices)%nat
      | None => false
      end
    | file_hash fileIndices =>
      match pr_files p with
      | Some files => (length files =? length fileIndices)%nat
      | None => false
      end
    | metadata_proof nonce =>
      truthy (pr_metadataHash p)
      && match pr_nonce p with
         | Some n => String.eqb n nonce
         | None => false
         end
    | unknown_kind _ => false
    end.

(** A file entry of the challenger's local backup metadata. *)
Record file_meta := FileMeta {
  fm_name : string;
  fm_hash : string;
  fm_size : Z
}.

Record backup := Backup {
  b_id : string;
  b_timestamp : Z;
  b_files : list file_meta
}.

(** ** The check as the specification words it *)

(** A returned entry matches the local metadata: its index was asked for
    and the local file at that index has the returned hash. *)
Definition entry_matches (local : backup) (asked : list nat) (e : proof_entry)
    : bool :=
  existsb (Nat.eqb (pe_index e)) asked
  && match b_files local !! pe_index e with
     | Some f => String.eqb (fm_hash f) (pe_hash e)
     | None => false
     end.

(** The hash of [generateMetadataProof], recomputed from the local backup. *)
Definition metadata_hash (local : backup) (nonce : string) : string :=
  to_hex (sha256 (from_utf8
    (stringify_metadata (b_id local) (b_timestamp local)
                        (length (b_files local)) nonce))).

Definition spec_proof_matches (local : backup) (c : challenge) (p : proof)
    : bool :=
  match ch_kind c with
  | random_blocks asked =>
    match pr_blocks p with
    | Some blocks => forallb (entry_matches local asked) blocks
    | None => false
    end
  | file_hash asked =>
    match pr_files p with
    | Some files => forallb (entry_matches local asked) files
    | None => false
    end
  | metadata_proof _ =>
    match pr_metadataHash p, pr_nonce p with
    | Some h, Some echoed => String.eqb h (metadata_hash local echoed)
    | _, _ => false
    end
  | unknown_kind _ => false
  end.

(** ** The custodian's side: proofs for a challenge *)

(** What a proof generator returns: the payload that [verifyProof] reads,
    with the [type] tag and, for a metadata proof, the two figures added
    beside the hash. *)
Record generated_proof := GeneratedProof {
  gp_type : string;
  gp_proof : proof;
  gp_fileCount : option nat;
  gp_totalSize : option Z
}.

(** The loop of [generateBlockProof]: an entry for every requested index
    that is below the number of files, none for the others. *)
Fixpoint block_entries (files : list file_meta) (blockIndices : list nat)
    : list proof_entry :=
  match blockIndices with
  | [] => []
  | blockIndex :: rest =>
    match files !! blockIndex with
    | Some file =>
      ProofEntry blockIndex (fm_hash file) (fm_size file)
        :: block_entries files rest
    | None => block_entries files rest
    end
  end.

(** [generateBlockProof(backup, blockIndices)] *)
Definition generateBlockProof (b : backup) (blockIndices : list nat)
    : generated_proof :=
  {| gp_type := "random_blocks";
     gp_proof := {| pr_error := None; pr_backupId := Some (b_id b);
                    pr_blocks := Some (block_entries (b_files b) blockIndices);
                    pr_files := None; pr_metadataHash := None;
                    pr_nonce := None |};
     gp_fileCount := None; gp_totalSize := None |}.

(** [generateMetadataProof(backup, nonce)] *)
Definition generateMetadataProof (b : backup) (nonce : string) : generated_proof :=
  {| gp_type := "metadata_proof";
     gp_proof := {| pr_error := None; pr_backupId := Some (b_id b);
                    pr_blocks := None; pr_files := None;
                    pr_metadataHash := Some (metadata_hash b nonce);
                    pr_nonce := Some nonce |};
     gp_fileCount := Some (length (b_files b));
     gp_totalSize := Some (fold_left (λ sum f, sum + fm_size f) (b_files b) 0) |}.

(** ** Accounting of challenges *)

(** An entry of [activeVerifications].  The response time is set by
    [handleProof]; the fields [proof] and [valid] that it sets too are
    read by nothing. *)
Record verification := Verification {
  vf_challenge : challenge;
  vf_peerId : string;
  vf_backupId : string;
  vf_startTime : Z;
  vf_status : string;
  vf_responseTime : option Z
}.

(** A verification result, as pushed on the history and emitted. *)
Record verification_result := VerificationResult {
  vr_challengeId : string;
  vr_peerId : string;
  vr_backupId : string;
  vr_success : bool;
  vr_error : option string;
  vr_responseTime : option Z;
  vr_timestamp : Z
}.

(** The two maps of a [StorageVerification] that the accounting touches. *)
Record accounting := Accounting {
  activeVerifications : gmap string verification;
  challengeHistory : gmap string (list verification_result)
}.

(** The part of [sendChallenge] that registers the challenge it sends. *)
Definition registerChallenge (st : accounting) (c : challenge) (peer : string)
    (now : Z) : accounting :=
  {| activeVerifications :=
       <[ch_id c := {| vf_challenge := c; vf_peerId := peer;
                       vf_backupId := ch_backupId c; vf_startTime := now;
                       vf_status := "pending"; vf_responseTime := None |}]>
         (activeVerifications st);
     challengeHistory := challengeHistory st |}.

(** [peerHistory.splice(0, peerHistory.length - 100)] when it is longer
    than 100. *)
Definition keep_last_100 {A} (l : list A) : list A :=
  if (100 <? length l)%nat then drop (length l - 100) l else l.

(** [handleVerificationResult(challengeId, proof, error)] at clock reading
    [now]: the new state and the result emitted, if any. *)
Definition handleVerificationResult (st : accounting) (challengeId : string)
    (err : option string) (now : Z)
    : accounting * list verification_result :=
  match activeVerifications st !! challengeId with
  | None => (st, [])
  | Some v =>
    let result :=
      {| vr_challengeId := challengeId; vr_peerId := vf_peerId v;
         vr_backupId := vf_backupId v;
         vr_success := match err with None => true | Some _ => false end;
         vr_error := err; vr_responseTime := vf_responseTime v;
         vr_timestamp := now |} in
    let peerHistory :=
      match challengeHistory st !! vf_peerId v with
      | Some h => h
      | None => []
      end ++ [result] in
    ({| activeVerifications := delete challengeId (activeVerifications st);
        challengeHistory :=
          <[vf_peerId v := keep_last_100 peerHistory]> (challengeHistory st) |},
     [result])
  end.

(** An entry with its status, and with the response time just measured. *)
Definition with_vf_status (v : verification) (s : string) : verification :=
  {| vf_challenge := vf_challenge v; vf_peerId := vf_peerId v;
     vf_backupId := vf_backupId v; vf_startTime := vf_startTime v;
     vf_status := s; vf_responseTime := vf_responseTime v |}.

Definition answered (v : verification) (responseTime : Z) : verification :=
  {| vf_challenge := vf_challenge v; vf_peerId := vf_peerId v;
     vf_backupId := vf_backupId v; vf_startTime := vf_startTime v;
     vf_status := "completed"; vf_responseTime := Some responseTime |}.

Definition set_verification (st : accounting) (challengeId : string)
    (v : verification) : accounting :=
  {| activeVerifications := <[challengeId := v]> (activeVerifications st);
     challengeHistory := challengeHistory st |}.

(** [handleProof(challengeId, proof, fromPeer)] at clock reading [now],
    with the [proof] field of the message, [None] when the message has
    none: [verifyProof] then throws at [proof.error], after the entry was
    marked and before any result is recorded.  The state is the one the
    call leaves, also when it throws. *)
Definition handleProof (st : accounting) (challengeId : string)
    (p : option proof) (now : Z)
    : accounting * result (list verification_result) :=
  match activeVerifications st !! challengeId with
  | None => (st, Ok [])
  | Some v =>
    let st1 := set_verification st challengeId
                 (answered v (now - vf_startTime v)) in
    match p with
    | None => (st1, Throw "Cannot read properties of undefined (reading 'error')")
    | Some p =>
      let isValid := verifyProof (vf_challenge v) p in
      let '(st2, results) :=
        handleVerificationResult st1 challengeId
          (if isValid then None else Some "Invalid proof"%string) now in
      (st2, Ok results)
    end
  end.

(** The timer armed by [sendChallenge], when it fires. *)
Definition challengeTimeout (st : accounting) (challengeId : string) (now : Z)
    : accounting * list verification_result :=
  match activeVerifications st !! challengeId with
  | None => (st, [])
  | Some v =>
    if String.eqb (vf_status v) "pending"
    then handleVerificationResult
           (set_verification st challengeId (with_vf_status v "timeout"))
           challengeId (Some "Challenge timeout"%string) now
    else (st, [])
  end.

(** The calls that drive the accounting. *)
Inductive accounting_call :=
| Sent (c : challenge) (peer : string) (now : Z)
| ProofArrived (challengeId : string) (p : option proof) (now : Z)
| TimedOut (challengeId : string) (now : Z).

Definition account (st : accounting) (call : accounting_call) : accounting :=
  match call with
  | Sent c peer now => registerChallenge st c peer now
  | ProofArrived i p now => (handleProof st i p now).1
  | TimedOut i now => (challengeTimeout st i now).1
  end.

(** Every history holds at most 100 results. *)
Definition histories_capped (st : accounting) : Prop :=
  map_Forall (λ _ h, (length h ≤ 100)%nat) (challengeHistory st).

(** ** Statistics *)

(** The object returned by [getPeerStats]. *)
Record peer_stats := PeerStats {
  ps_peerId : string;
  ps_totalChallenges : nat;
  ps_successfulChallenges : nat;
  ps_successRate : Q;
  ps_averageResponseTime : Q;
  ps_lastChallenge : option Z
}.

Definition sevenDays : Z := 7 * 24 * 60 * 60 * 1000.

(** The results of the last seven days. *)
Definition recentResults (now : Z) (history : list verification_result)
    : list verification_result :=
  List.filter (λ h, now - vr_timestamp h <? sevenDays) history.

(** [h.responseTime || 0] *)
Definition responseTimeOrZero (h : verification_result) : Z :=
  match vr_responseTime h with Some t => t | None => 0 end.

(** [getPeerStats(peerId)] at clock reading [now].  With no recent result
    the average is [NaN || 0]. *)
Definition getPeerStats (st : accounting) (peerId : string) (now : Z) : peer_stats :=
  let history := match challengeHistory st !! peerId with
                 | Some h => h
                 | None => []
                 end in
  let recent := recentResults now history in
  let total := length recent in
  let successful := length (List.filter vr_success recent) in
  let sum := fold_left (λ sum h, sum + responseTimeOrZero h) recent 0 in
  {| ps_peerId := peerId;
     ps_totalChallenges := total;
     ps_successfulChallenges := successful;
     ps_successRate :=
       if (0 <? total)%nat
       then (inject_Z (Z.of_nat successful) / inject_Z (Z.of_nat total))%Q
       else 0%Q;
     ps_averageResponseTime :=
       if (0 <? total)%nat
       then (inject_Z sum / inject_Z (Z.of_nat total))%Q
       else 0%Q;
     ps_lastChallenge := vr_timestamp <$> last recent |}.

End WithPlatform.
End StorageVerification.

(* ===================================================================== *)
(** * Transfer pipeline, receive side ([FileTransfer]) *)
(* ===================================================================== *)

Module FileTransfer.
Section WithPlatform.
Context {P : Platform}.

(** The receive state stored by [handleFileStart] under a transfer id. *)
Record transfer := Transfer {
  fileName : string;
  fileSize : Z;
  totalChunks : Z;
  receivedCount : Z;
  expectedHash : string;
  startTime : Z;
  status : string
}.

(** The fields of a [FileTransfer] that the chunk handler touches. *)
Record file_transfer := State {
  crypto : BackupCrypto.backup_crypto;
  activeTransfers : gmap string transfer;
  receivedChunks : gmap string (gmap Z buffer)
}.

(** A [file_chunk] message. *)
Record file_chunk := FileChunk {
  transferId : string;
  chunkIndex : Z;
  encryptedData : string;
  chunkHash : string
}.

(** What the [try] block of [handleFileChunk] can throw. *)
Inductive failure :=
| CryptoFailure (message : string)
| IntegrityFailure (chunkIndex : Z)
| TypeFailure.

Inductive ack_status :=
| received
| error (why : failure).

(** A [chunk_ack] message handed to [connection.send]. *)
Record chunk_ack := ChunkAck {
  ack_transferId : string;
  ack_chunkIndex : Z;
  ack_status_of : ack_status
}.

Definition bump (t : transfer) : transfer :=
  {| fileName := fileName t; fileSize := fileSize t;
     totalChunks := totalChunks t; receivedCount := receivedCount t + 1;
     expectedHash := expectedHash t; startTime := startTime t;
     status := status t |}.

(** The [try] block of [handleFileChunk]: the state it leaves and either
    the point where it threw or its normal end. *)
Definition processChunk (st : file_transfer) (m : file_chunk) (from : string)
    : file_transfer * (unit + failure) :=
  let encryptedBuffer := base64_decode (encryptedData m) in
  match BackupCrypto.decrypt (crypto st) encryptedBuffer from with
  | Throw msg => (st, inr (CryptoFailure msg))
  | Ok decryptedChunk =>
    let actualHash := BackupCrypto.hashData decryptedChunk in
    if negb (String.eqb actualHash (chunkHash m))
    then (st, inr (IntegrityFailure (chunkIndex m)))
    else
      match receivedChunks st !! transferId m with
      | None => (st, inr TypeFailure)
      | Some chunks =>
        let stored :=
          {| crypto := crypto st; activeTransfers := activeTransfers st;
             receivedChunks :=
               <[transferId m := <[chunkIndex m := decryptedChunk]> chunks]>
                 (receivedChunks st) |} in
        match activeTransfers st !! transferId m with
        | None => (stored, inr TypeFailure)
        | Some t =>
          ({| crypto := crypto st;
              activeTransfers := <[transferId m := bump t]> (activeTransfers st);
              receivedChunks := receivedChunks stored |}, inl tt)
        end
      end
  end.

(** [handleFileChunk(message, peerId)]: the new state and the messages sent. *)
Definition handleFileChunk (st : file_transfer) (m : file_chunk) (from : string)
    : file_transfer * list chunk_ack :=
  match processChunk st m from with
  | (st', inl _) => (st', [ChunkAck (transferId m) (chunkIndex m) received])
  | (st', inr why) => (st', [ChunkAck (transferId m) (chunkIndex m) (error why)])
  end.

(** ** The rest of the receive path *)

Context {E : PlatformExt}.

(** A [file_start] message, with the fields [handleFileStart] reads. *)
Record file_start := FileStart {
  fs_transferId : string;
  fs_fileName : string;
  fs_fileSize : Z;
  fs_totalChunks : Z;
  fs_fileHash : string
}.

(** A [file_start_ack] message. *)
Record start_ack := StartAck {
  sa_transferId : string;
  sa_status : string
}.

(** [handleFileStart(message, peerId)] at clock reading [now].  (The entry
    also gets a field [chunks] holding a fresh map that nothing reads.) *)
Definition handleFileStart (st : file_transfer) (m : file_start) (now : Z)
    : file_transfer * list start_ack :=
  ({| crypto := crypto st;
      activeTransfers :=
        <[fs_transferId m :=
            {| fileName := fs_fileName m; fileSize := fs_fileSize m;
               totalChunks := fs_totalChunks m; receivedCount := 0;
               expectedHash := fs_fileHash m; startTime := now;
               status := "receiving" |}]> (activeTransfers st);
      receivedChunks := <[fs_transferId m := ∅]> (receivedChunks st) |},
   [StartAck (fs_transferId m) "ready"]).

(** A [file_complete] message. *)
Record file_complete := FileComplete {
  fc_transferId : string;
  fc_totalChunks : Z;
  fc_fileHash : string
}.

(** What the [try] block of [handleFileComplete] throws. *)
Inductive complete_failure :=
| MissingChunk (i : Z)
| FileIntegrityFailure.

Inductive complete_status :=
| success (outputPath : string)
| failed (why : complete_failure).

(** A [file_complete_ack] message. *)
Record complete_ack := CompleteAck {
  ca_transferId : string;
  ca_status : complete_status
}.

(** What [handleFileComplete] does beside the state below and the message
    it sends: the file it opens, the chunks it hands to [write] in order,
    and the fields it adds to the transfer entry. *)
Record completion := Completion {
  co_outputPath : string;
  co_written : list buffer;
  co_endTime : option Z;
  co_entryOutputPath : option string;
  co_entryError : option complete_failure
}.

(** The loop [for (let i = 0; i < totalChunks; i++)], from index [i] with
    [count] rounds to go: the chunks written, and the index whose chunk is
    missing if the loop threw. *)
Fixpoint write_from (chunks : gmap Z buffer) (i : Z) (count : nat)
    : list buffer * option Z :=
  match count with
  | O => ([], None)
  | S k =>
    match chunks !! i with
    | None => ([], Some i)
    | Some chunk =>
      let '(w, missing) := write_from chunks (i + 1) k in (chunk :: w, missing)
    end
  end.

Definition with_status (t : transfer) (s : string) : transfer :=
  {| fileName := fileName t; fileSize := fileSize t;
     totalChunks := totalChunks t; receivedCount := receivedCount t;
     expectedHash := expectedHash t; startTime := startTime t;
     status := s |}.

(** [handleFileComplete(message, peerId)] at clock reading [now], the file
    system doing what it is asked: the new state, the messages sent and
    what was written.  [hashFile] of the file just written is the hash of
    the chunks written. *)
Definition handleFileComplete (st : file_transfer) (m : file_complete) (now : Z)
    : file_transfer * list complete_ack * option completion :=
  match activeTransfers st !! fc_transferId m,
        receivedChunks st !! fc_transferId m with
  | Some t, Some chunks =>
    if negb (Z.of_nat (size chunks) =? fc_totalChunks m)
    then (st, [], None)
    else
      let outputPath := path_join "./received" (fileName t) in
      let '(w, missing) := write_from chunks 0 (Z.to_nat (fc_totalChunks m)) in
      let thrown (why : complete_failure) :=
        ({| crypto := crypto st;
            activeTransfers :=
              <[fc_transferId m := with_status t "error"]> (activeTransfers st);
            receivedChunks := receivedChunks st |},
         [CompleteAck (fc_transferId m) (failed why)],
         Some {| co_outputPath := outputPath; co_written := w;
                 co_endTime := None; co_entryOutputPath := None;
                 co_entryError := Some why |}) in
      match missing with
      | Some i => thrown (MissingChunk i)
      | None =>
        let actualFileHash := BackupCrypto.hashData (concat w) in
        if negb (String.eqb actualFileHash (fc_fileHash m))
        then thrown FileIntegrityFailure
        else
          ({| crypto := crypto st;
              activeTransfers :=
                <[fc_transferId m := with_status t "completed"]>
                  (activeTransfers st);
              receivedChunks := delete (fc_transferId m) (receivedChunks st) |},
           [CompleteAck (fc_transferId m) (success (fileName t))],
           Some {| co_outputPath := outputPath; co_written := w;
                   co_endTime := Some now;
                   co_entryOutputPath := Some outputPath;
                   co_entryError := None |})
      end
  | _, _ => (st, [], None)
  end.

(** The messages [handleTransferMessage] dispatches on this state. *)
Inductive transfer_message :=
| file_start_msg (m : file_start)
| file_chunk_msg (m : file_chunk)
| file_complete_msg (m : file_complete)
| chunk_ack_msg (m : chunk_ack)
| other_msg (type : string).

(** [handleTransferMessage(message, peerId)] at clock reading [now]: the
    state it leaves.  [handleChunkAck] only writes to the database. *)
Definition handleTransferMessage (st : file_transfer) (peerId : string)
    (now : Z) (message : transfer_message) : file_transfer :=
  match message with
  | file_start_msg m => (handleFileStart st m now).1
  | file_chunk_msg m => (handleFileChunk st m peerId).1
  | file_complete_msg m => (handleFileComplete st m now).1.1
  | chunk_ack_msg _ => st
  | other_msg _ => st
  end.

(** The state the constructor leaves. *)
Definition new_file_transfer (c : BackupCrypto.backup_crypto) : file_transfer :=
  {| crypto := c; activeTransfers := ∅; receivedChunks := ∅ |}.

(** Every transfer with stored chunks has its entry, whose counter is at
    least the number of chunks stored. *)
Definition chunks_have_entry (st : file_transfer) : Prop :=
  ∀ id chunks, receivedChunks st !! id = Some chunks →
    ∃ t, activeTransfers st !! id = Some t
       ∧ Z.of_nat (size chunks) ≤ receivedCount t.

(** A run of transfer messages, each with its sender and the clock reading
    at its arrival. *)
Definition handleTransferMessages (st : file_transfer)
    (run : list (string * Z * transfer_message)) : file_transfer :=
  fold_left (λ acc x, handleTransferMessage acc x.1.1 x.1.2 x.2) run st.

End WithPlatform.
End FileTransfer.

(* ===================================================================== *)
(** * Reconnection of a [P2PConnection] (src/client/lib/p2p.js) *)
(* ===================================================================== *)

Module Reconnection.

(** The fields of a [P2PConnection] that a connection drop touches. *)
Record link := Link {
  connected : bool;
  reconnectAttempts : Z
}.

Definition maxReconnectAttempts : Z := 5.
Definition reconnectDelay : Z := 1000.

(** What a drop leads to: a timer for [attemptReconnection], or the event
    [connection_failed]. *)
Inductive drop_outcome :=
| retry_in (delay : Z)
| connection_failed.

(** [handleConnectionDrop()] *)
Definition handleConnectionDrop (c : link) : link * drop_outcome :=
  if reconnectAttempts c <? maxReconnectAttempts
  then
    let attempts := reconnectAttempts c + 1 in
    ({| connected := false; reconnectAttempts := attempts |},
     retry_in (reconnectDelay * 2 ^ (attempts - 1)))
  else
    ({| connected := false; reconnectAttempts := reconnectAttempts c |},
     connection_failed).

(** The [connect] handler of the peer, on these fields. *)
Definition onConnect (c : link) : link :=
  {| connected := true; reconnectAttempts := 0 |}.

(** A run of [n] drops with no connection in between. *)
Fixpoint drops (n : nat) (c : link) : link * list drop_outcome :=
  match n with
  | O => (c, [])
  | S k =>
    let '(c', o) := handleConnectionDrop c in
    let '(c'', os) := drops k c' in (c'', o :: os)
  end.

(** The waiting time a run of outcomes adds up to. *)
Definition totalDelay (os : list drop_outcome) : Z :=
  fold_right (λ o sum, match o with retry_in d => d + sum | connection_failed => sum end)
    0 os.

End Reconnection.

(* ===================================================================== *)
(** * Concrete inputs on the small platform *)
(* ===================================================================== *)

Module Demo.
Import BackupCrypto StorageVerification FileTransfer.

(** A signed identity whose hash is the first 16 hex characters of the
    (small-platform) hash of its 32-byte key, with the timestamp it
    carries, if any. *)
Definition demo_signed_hash (timestamp : option Z) : signed_hash :=
  {| sh_peerIdHash := "0011223344556677";
     sh_signature :=
       "00112233445566778899aabbccddeeff00112233445566778899aabbccddeeff00112233445566778899aabbccddeeff00112233445566778899aabbccddeeff";
     sh_publicKey :=
       "00112233445566778899aabbccddeeff00112233445566778899aabbccddeeff";
     sh_timestamp := timestamp;
     sh_version := "1.0" |}.

(** A crypto component holding a shared secret for peerA. *)
Definition demo_crypto : backup_crypto :=
  {| keyPair := None; signingKeyPair := None;
     sharedSecrets := {[ "peerA"%string := [Byte.x01; Byte.x02] ]} |}.

(** The challenger's local metadata of a two-file backup. *)
Definition demo_backup : backup :=
  {| b_id := "backup-1"; b_timestamp := 1000;
     b_files := [FileMeta "a.txt" "aaaa" 10; FileMeta "b.txt" "bbbb" 20] |}.

(** A challenge of kind [k] on that backup. *)
Definition demo_challenge (k : challenge_kind) : challenge :=
  {| ch_id := "challenge-1"; ch_backupId := "backup-1"; ch_kind := k;
     ch_timestamp := 2000; ch_expiresAt := 302000 |}.

(** A well-signed commitment made at 1000, with the bytes it offers and
    the expiry it carries, if any. *)
Definition demo_commitment (offered expires : option Z) : commitment :=
  {| peerId := "peerA";
     publicKey := "00112233445566778899aabbccddeeff00112233445566778899aabbccddeeff";
     storageOffered := offered; timestamp := Some 1000; expiresAt := expires;
     signature := Some
       {| cs_signature :=
            "00112233445566778899aabbccddeeff00112233445566778899aabbccddeeff00112233445566778899aabbccddeeff00112233445566778899aabbccddeeff";
          cs_publicKey :=
            "00112233445566778899aabbccddeeff00112233445566778899aabbccddeeff";
          cs_algorithm := "Ed25519" |} |}.

(** A receiver that has seen the [file_start] of transfer t1. *)
Definition demo_receiver : file_transfer :=
  {| crypto := demo_crypto;
     activeTransfers :=
       {[ "t1"%string := Transfer "a.txt" 2 1 0 "aaaa" 3000 "receiving" ]};
     receivedChunks := {[ "t1"%string := ∅ ]} |}.

(** A chunk of two bytes for that receiver: nonce, tag, payload. *)
Definition demo_chunk (payload : buffer) (claimed : string) : file_chunk :=
  {| transferId := "t1"; chunkIndex := 0;
     encryptedData :=
       to_hex (replicate 24 Byte.x07 ++ replicate 16 Byte.x00 ++ payload);
     chunkHash := claimed |}.

(** A crypto component with an encryption and a signing key pair of the
    sizes libsodium uses, and no secret cached yet. *)
Definition demo_keyed_crypto (tag : Byte.byte) : backup_crypto :=
  {| keyPair := Some (KeyPair (replicate 32 tag) (replicate 32 Byte.x22));
     signingKeyPair := Some (KeyPair (replicate 32 tag) (replicate 64 Byte.x44));
     sharedSecrets := ∅ |}.

End Demo.

(* ===================================================================== *)
(** * Part II: properties *)
(* ===================================================================== *)

(** ** Allocation ledger *)

Module AllocationFacts.
Import Allocation.

(** C4. [canAcceptBackup] admits a request of [N] bytes from [P] exactly
    when consumed_global + N <= offered_global + offered_to_P and
    offered_global < max_offered; a rejection carries a reason that tells
    the ratio violation from the exhausted capacity. *)
Theorem canAcceptBackup_accepts_iff (st : allocation) (N : Z) (P : string) :
  (canAccept (canAcceptBackup st N P) = true ↔
     storageUsed st + N ≤ storageOffered st + getAllocatedToPeer st P
     ∧ storageOffered st < maxStorageOffered st)
  ∧ (reason (canAcceptBackup st N P)
       = Some "Insufficient allocation - violates 1:1 ratio"%string ↔
     ¬ storageUsed st + N ≤ storageOffered st + getAllocatedToPeer st P)
  ∧ (reason (canAcceptBackup st N P)
       = Some "Maximum storage capacity reached"%string ↔
     storageUsed st + N ≤ storageOffered st + getAllocatedToPeer st P
     ∧ ¬ storageOffered st < maxStorageOffered st).
Proof.
  unfold canAcceptBackup.
  destruct (Z.ltb_spec (storageOffered st + getAllocatedToPeer st P)
                       (storageUsed st + N)) as [Hr|Hr];
    [|destruct (Z.leb_spec (maxStorageOffered st) (storageOffered st)) as [Hc|Hc]];
    cbn; repeat split; try intros [? ?]; intros; try lia; try discriminate;
    try reflexivity.
Qed.

(** ** Sums over the per-peer entries *)

Section Sums.
Variable proj : peer_alloc → Z.

Lemma sumOf_empty : sumOf proj ∅ = 0.
Proof. apply map_fold_empty. Qed.

Lemma sumOf_insert_fresh m i x :
  m !! i = None → sumOf proj (<[i:=x]> m) = sumOf proj m + proj x.
Proof.
  intros Hi. unfold sumOf.
  rewrite map_fold_insert_L; [reflexivity| |exact Hi].
  intros; lia.
Qed.

Lemma sumOf_delete m i x :
  m !! i = Some x → sumOf proj m = sumOf proj (delete i m) + proj x.
Proof.
  intros Hi. unfold sumOf.
  rewrite (map_fold_delete_L _ _ i x m); [reflexivity| |exact Hi].
  intros; lia.
Qed.

Lemma sumOf_insert_present m i x y :
  m !! i = Some y → sumOf proj (<[i:=x]> m) = sumOf proj m - proj y + proj x.
Proof.
  intros Hi. rewrite <- insert_delete_eq.
  rewrite sumOf_insert_fresh by apply lookup_delete_eq.
  rewrite (sumOf_delete m i y Hi). lia.
Qed.

Lemma sumOf_nonneg m :
  map_Forall (λ _ a, 0 ≤ proj a) m → 0 ≤ sumOf proj m.
Proof.
  induction m as [|i x m Hi IH] using map_ind; intros Hall.
  - rewrite sumOf_empty. lia.
  - rewrite sumOf_insert_fresh by exact Hi.
    apply map_Forall_insert in Hall; [|exact Hi].
    destruct Hall as [Hx Hm]. specialize (IH Hm). lia.
Qed.

Lemma sumOf_ge_entry m i x :
  map_Forall (λ _ a, 0 ≤ proj a) m → m !! i = Some x → proj x ≤ sumOf proj m.
Proof.
  intros Hall Hi. rewrite (sumOf_delete m i x Hi).
  assert (0 ≤ sumOf proj (delete i m)); [|lia].
  apply sumOf_nonneg. intros j a Hj.
  apply lookup_delete_Some in Hj as [_ Hj]. exact (Hall j a Hj).
Qed.
End Sums.

Lemma sumOffered_is_sumOf m : sumOffered m = sumOf offered m.
Proof. reflexivity. Qed.

Lemma sumUsed_is_sumOf m : sumUsed m = sumOf used m.
Proof. reflexivity. Qed.

Lemma offered_reconciled_initial : offered_reconciled initial.
Proof.
  split; [apply map_fold_empty|]. cbn. apply map_Forall_empty.
Qed.

Lemma offered_reconciled_insert st p e so su :
  offered_reconciled st →
  0 ≤ offered e →
  so = storageOffered st - getAllocatedToPeer st p + offered e →
  offered_reconciled
    {| maxStorageOffered := maxStorageOffered st; storageOffered := so;
       storageUsed := su; ratio := ratio st;
       allocations := <[p := e]> (allocations st) |}.
Proof.
  intros [Hsum Hall] He ->. unfold offered_reconciled, getAllocatedToPeer. cbn.
  rewrite sumOffered_is_sumOf in *. split.
  - destruct (allocations st !! p) as [y|] eqn:Hp.
    + rewrite (sumOf_insert_present _ _ _ _ y Hp). lia.
    + rewrite sumOf_insert_fresh by exact Hp. lia.
  - intros j a Hj. apply lookup_insert_Some in Hj as [[_ <-]|[_ Hj]];
      [exact He|exact (Hall j a Hj)].
Qed.

Lemma offered_reconciled_delete st p e so su :
  offered_reconciled st →
  allocations st !! p = Some e →
  so = storageOffered st - offered e →
  offered_reconciled
    {| maxStorageOffered := maxStorageOffered st; storageOffered := so;
       storageUsed := su; ratio := ratio st;
       allocations := delete p (allocations st) |}.
Proof.
  intros [Hsum Hall] Hp ->. unfold offered_reconciled. cbn.
  rewrite sumOffered_is_sumOf in *. split.
  - rewrite (sumOf_delete _ _ _ _ Hp) in Hsum. lia.
  - intros j a Hj. apply lookup_delete_Some in Hj as [_ Hj]. exact (Hall j a Hj).
Qed.

Lemma offered_reconciled_step st o :
  offered_reconciled st → op_ok st o = true → offered_reconciled (step st o).
Proof.
  intros Hinv Hok. pose proof Hinv as [Hsum Hall].
  destruct o as [p b i t|p b i t|p b [|] t]; cbn in Hok |- *.
  - apply Z.leb_le in Hok.
    unfold allocateStorageToPeer. apply offered_reconciled_insert; [exact Hinv| |];
      unfold existing_or_new, getAllocatedToPeer;
      destruct (allocations st !! p) as [y|] eqn:Hp; cbn; try lia.
    specialize (Hall p y Hp). cbn in Hall. lia.
  - unfold recordStorageUsed. apply offered_reconciled_insert; [exact Hinv| |];
      unfold existing_or_new, getAllocatedToPeer;
      destruct (allocations st !! p) as [y|] eqn:Hp; cbn; try lia.
    exact (Hall p y Hp).
  - apply andb_true_iff in Hok as [Hb Hle].
    apply Z.leb_le in Hb. apply Z.leb_le in Hle.
    unfold releaseAllocation. unfold getAllocatedToPeer in Hle.
    destruct (allocations st !! p) as [y|] eqn:Hp; [|exact Hinv].
    pose proof (sumOf_ge_entry offered _ _ _ Hall Hp) as Hge.
    rewrite <- sumOffered_is_sumOf, Hsum in Hge. cbn.
    destruct ((Z.max 0 (offered y - b) =? 0) && (used y =? 0)) eqn:Hz.
    + apply andb_true_iff in Hz as [Hz _]. apply Z.eqb_eq in Hz.
      apply (offered_reconciled_delete st p y); [exact Hinv|exact Hp|lia].
    + apply offered_reconciled_insert; [exact Hinv|cbn; lia|].
      unfold getAllocatedToPeer. rewrite Hp. cbn. lia.
  - unfold releaseAllocation.
    destruct (allocations st !! p) as [y|] eqn:Hp; [|exact Hinv]. cbn.
    destruct ((offered y =? 0) && (Z.max 0 (used y - b) =? 0)) eqn:Hz.
    + apply andb_true_iff in Hz as [Hz _]. apply Z.eqb_eq in Hz.
      apply (offered_reconciled_delete st p y); [exact Hinv|exact Hp|lia].
    + apply offered_reconciled_insert; [exact Hinv|cbn; exact (Hall p y Hp)|].
      unfold getAllocatedToPeer. rewrite Hp. cbn. lia.
Qed.

Lemma reachable_offered_reconciled st : reachable st → offered_reconciled st.
Proof.
  induction 1 as [|st bytes _ IH|st o _ IH Hok].
  - apply offered_reconciled_initial.
  - exact IH.
  - apply offered_reconciled_step; assumption.
Qed.

Lemma validateAllocation_valid_iff st :
  valid (validateAllocation st) = true ↔
    sumOffered (allocations st) = storageOffered st
    ∧ sumUsed (allocations st) = storageUsed st
    ∧ storageUsed st ≤ storageOffered st.
Proof.
  unfold validateAllocation. cbn.
  destruct (Z.eqb_spec (sumOffered (allocations st)) (storageOffered st));
  destruct (Z.eqb_spec (sumUsed (allocations st)) (storageUsed st));
  destruct (Z.ltb_spec (storageOffered st) (storageUsed st));
  cbn; split; intros; try discriminate; try lia; repeat split; try lia;
  try reflexivity.
Qed.

(** ** The ledger invariant on reachable states *)

(** After a single allocation the entry's [used] has grown although
    [storageUsed] has not: the validator of the ledger reports it. *)
Example validate_after_allocate :
  validateAllocation (run [Allocate "peerA" 100 "b1" 0])
  = {| valid := false; issues := [UsedMismatch 100 0] |}.
Proof. vm_compute. reflexivity. Qed.

(** C5, as stated, fails: recording 100 bytes placed with a peer on the
    empty ledger is an allocation operation, and the validator then
    reports a ratio violation (consumed 100 > offered 0). *)
Lemma validate_reports_issue_on_reachable_state :
  reachable (run [RecordUsed "peerA" 100 "b1" 0])
  ∧ validateAllocation (run [RecordUsed "peerA" 100 "b1" 0])
    = {| valid := false; issues := [RatioViolation 100 0] |}
  ∧ ¬ storageUsed (run [RecordUsed "peerA" 100 "b1" 0])
      ≤ storageOffered (run [RecordUsed "peerA" 100 "b1" 0]).
Proof.
  split; [|split].
  - apply (reach_step initial (RecordUsed "peerA" 100 "b1" 0));
      [apply reach_initial|reflexivity].
  - vm_compute. reflexivity.
  - cbn. lia.
Qed.

(** C5, amended.  In every ledger state reachable from the empty ledger by
    allocate, record-consumed and release calls with non-negative sizes
    (a release on the offered side asking for no more than is recorded as
    offered to that peer), the per-peer offered amounts add up to
    offered_global; the validator reports no issue exactly when, in
    addition, the per-peer used amounts add up to consumed_global and
    consumed_global <= offered_global, which the operations do not
    enforce. *)
Theorem reachable_offered_sum_reconciles (st : allocation) :
  reachable st →
  sumOffered (allocations st) = storageOffered st
  ∧ (valid (validateAllocation st) = true ↔
       sumUsed (allocations st) = storageUsed st
       ∧ storageUsed st ≤ storageOffered st).
Proof.
  intros Hr. destruct (reachable_offered_reconciled st Hr) as [Hsum _].
  split; [exact Hsum|].
  rewrite validateAllocation_valid_iff. intuition.
Qed.

(** The same on a ledger reached by an allocation, a placement with another
    peer and a partial release. *)
Lemma reachable_offered_sum_reconciles_witness :
  let st := run [Allocate "peerA" 100 "b1" 0; RecordUsed "peerB" 30 "b2" 1;
                 Release "peerA" 40 true 2] in
  reachable st
  ∧ sumOffered (allocations st) = storageOffered st
  ∧ (valid (validateAllocation st) = true ↔
       sumUsed (allocations st) = storageUsed st
       ∧ storageUsed st ≤ storageOffered st).
Proof.
  intros st.
  assert (Hr : reachable st).
  { unfold st, run. cbn [fold_left].
    apply reach_step; [apply reach_step; [apply reach_step;
      [apply reach_initial|]|]|]; vm_compute; reflexivity. }
  split; [exact Hr|].
  exact (reachable_offered_sum_reconciles st Hr).
Defined.

(** ** More on the ledger operations *)

Lemma amounts_nonneg_step st o :
  amounts_nonneg st → op_nonneg o = true → amounts_nonneg (step st o).
Proof.
  intros (Ho & Hu & Hall) Hb.
  destruct o as [p b i t|p b i t|p b isOffered t]; cbn in Hb; apply Z.leb_le in Hb;
    cbn [step].
  - unfold allocateStorageToPeer, amounts_nonneg, existing_or_new. cbn.
    split; [lia|]. split; [lia|].
    apply map_Forall_insert_2; [|exact Hall].
    destruct (allocations st !! p) as [y|] eqn:Hp; cbn; [|lia].
    destruct (Hall p y Hp). lia.
  - unfold recordStorageUsed, amounts_nonneg, existing_or_new. cbn.
    split; [lia|]. split; [lia|].
    apply map_Forall_insert_2; [|exact Hall].
    destruct (allocations st !! p) as [y|] eqn:Hp; cbn; [|lia].
    destruct (Hall p y Hp). lia.
  - unfold releaseAllocation.
    destruct (allocations st !! p) as [y|] eqn:Hp;
      [|exact (conj Ho (conj Hu Hall))].
    destruct (Hall p y Hp) as [Hyo Hyu].
    unfold amounts_nonneg. cbn.
    split; [destruct isOffered; lia|]. split; [destruct isOffered; lia|].
    match goal with |- context [if ?c then _ else _] => destruct c end.
    + apply map_Forall_delete. exact Hall.
    + apply map_Forall_insert_2; [|exact Hall]. destruct isOffered; cbn; lia.
Qed.

(** X1.  Whatever sequence of allocate, record-consumed and release calls
    with non-negative sizes is applied to the empty ledger, releases of any
    size included, no amount ever goes negative: the two global totals and
    the offered and used amounts of every entry stay at or above 0. *)
Theorem amounts_never_negative (ops : list op) :
  Forall (λ o, op_nonneg o = true) ops → amounts_nonneg (run ops).
Proof.
  unfold run.
  assert (Hgen : ∀ st, amounts_nonneg st →
            Forall (λ o, op_nonneg o = true) ops →
            amounts_nonneg (fold_left step ops st)).
  { induction ops as [|o ops IH]; intros st Hst Hall; cbn; [exact Hst|].
    inversion Hall as [|? ? Ho Hrest]; subst.
    apply IH; [apply amounts_nonneg_step; assumption|exact Hrest]. }
  intros Hall. apply Hgen; [|exact Hall].
  split; [cbn; lia|]. split; [cbn; lia|]. apply map_Forall_empty.
Qed.

(** The same after an allocation, a release of ten times its size and a
    placement with another peer. *)
Lemma amounts_never_negative_witness :
  amounts_nonneg (run [Allocate "peerA" 100 "b1" 0; Release "peerA" 1000 true 1;
                       RecordUsed "peerB" 30 "b2" 2]).
Proof.
  apply amounts_never_negative.
  repeat constructor.
Defined.

(** X2.  Recording bytes placed with a peer that has no entry and then
    releasing the same bytes on the used side gives back the ledger as it
    was, entry and totals (the size and the consumed total being
    non-negative). *)
Theorem record_then_release_restores (st : allocation) (p : string) (b : Z)
    (backupId : string) (t t' : Z) :
  allocations st !! p = None → 0 ≤ b → 0 ≤ storageUsed st →
  releaseAllocation (recordStorageUsed st p b backupId t) p b false t' = st.
Proof.
  intros Hp Hb Hu. unfold releaseAllocation, recordStorageUsed, existing_or_new.
  cbn. rewrite lookup_insert_eq, Hp. cbn.
  replace (Z.max 0 (0 + b - b)) with 0 by lia. cbn.
  rewrite delete_insert_id by exact Hp.
  replace (Z.max 0 (storageUsed st + b - b)) with (storageUsed st) by lia.
  destruct st; reflexivity.
Qed.

Lemma record_then_release_restores_witness :
  releaseAllocation
    (recordStorageUsed (run [Allocate "peerA" 100 "b1" 0]) "peerB" 30 "b2" 1)
    "peerB" 30 false 2
  = run [Allocate "peerA" 100 "b1" 0].
Proof.
  apply record_then_release_restores; [vm_compute; reflexivity|lia|cbn; lia].
Defined.

(** X3.  Allocating bytes to a peer that has no entry and then releasing
    the same bytes on the offered side restores the offered total but not
    the entry: allocation also counted the bytes as used by that peer, so
    an entry with offered 0 and used equal to the size stays behind. *)
Theorem allocate_then_release_leaves_entry (st : allocation) (p : string)
    (b : Z) (backupId : string) (t t' : Z) :
  allocations st !! p = None → 0 < b → 0 ≤ storageOffered st →
  let st' := releaseAllocation (allocateStorageToPeer st p b backupId t) p b true t' in
  storageOffered st' = storageOffered st
  ∧ storageUsed st' = storageUsed st
  ∧ allocations st' !! p
    = Some {| offered := 0; used := b;
              backups := [BackupRef backupId b t]; timestamp := t' |}
  ∧ sumUsed (allocations st') = sumUsed (allocations st) + b.
Proof.
  intros Hp Hb Ho. unfold releaseAllocation, allocateStorageToPeer, existing_or_new.
  cbn. rewrite lookup_insert_eq, Hp. cbn.
  rewrite ?Z.add_0_l, ?Z.sub_diag. destruct (Z.eqb_spec b 0) as [|_]; [lia|].
  rewrite ?andb_false_r. cbn.
  split; [lia|]. split; [reflexivity|]. split.
  - rewrite lookup_insert_eq. reflexivity.
  - rewrite insert_insert_eq. rewrite !sumUsed_is_sumOf.
    rewrite (sumOf_insert_fresh used _ _ _ Hp). reflexivity.
Qed.

Lemma allocate_then_release_leaves_entry_witness :
  getUsedFromPeer
    (releaseAllocation (allocateStorageToPeer initial "peerA" 100 "b1" 0)
       "peerA" 100 true 1) "peerA" = 100
  ∧ storageOffered
      (releaseAllocation (allocateStorageToPeer initial "peerA" 100 "b1" 0)
         "peerA" 100 true 1) = 0.
Proof.
  destruct (allocate_then_release_leaves_entry initial "peerA" 100 "b1" 0 1)
    as (Ho & _ & He & _); [reflexivity|lia|cbn; lia|].
  split; [|exact Ho].
  unfold getUsedFromPeer. rewrite He. reflexivity.
Defined.

End AllocationFacts.

(** ** Inbound dispatch and bans *)

Module DispatchFacts.
Import RateLimiter Dispatch.

Lemma isAllowed_ignores_ban l b p m now :
  isAllowed (set_bannedPeers l b) p m now
  = (set_bannedPeers (fst (isAllowed l p m now)) b, snd (isAllowed l p m now)).
Proof.
  unfold isAllowed, checkBurstLimit, checkWindowLimit, checkMessageTypeLimit.
  cbn.
  destruct (_ <? maxBurst l); cbn; [|reflexivity].
  destruct (_ <? maxRequests l); cbn; [|reflexivity].
  destruct (messageLimits m) as [[mx w]|]; cbn; [|reflexivity].
  destruct (mx <=? _); cbn; reflexivity.
Qed.

(** The handler never consults the ban table: whatever it holds, the
    message meets the same fate. *)
Lemma onData_ignores_ban c b m now :
  snd (onData (with_limiter c (set_bannedPeers (rateLimiter c) b)) m now)
  = snd (onData c m now).
Proof.
  unfold onData, onDataAt. cbn [rateLimiter with_limiter senderId currentPeerId hasFileTransfer].
  change (senderId (with_limiter c (set_bannedPeers (rateLimiter c) b)))
    with (senderId c).
  rewrite isAllowed_ignores_ban.
  destruct (isAllowed (rateLimiter c) (senderId c) m now) as [l [[]|why]]; cbn.
  - repeat (match goal with |- context [if ?x then _ else _] => destruct x end);
      reflexivity.
  - unfold windowUtilization, burstUtilization. cbn.
    match goal with |- context [if ?x then _ else _] => destruct x end;
      reflexivity.
Qed.

(** C6 (the code at the failing input).  A peer sends 21 [chunk_ack]
    messages 10 ms apart, from t = 1000: the 21st is denied by the burst
    limit at 100% burst utilisation, and the handler bans the peer for
    300000 ms.  At t = 3000 the ban is still in force ([isBanned] says
    so), yet a [ping] of that peer is not dropped: it reaches the ping
    handler. *)
Example banned_peer_message_is_handled :
  let flood := map (λ i, ("chunk_ack"%string, 1000 + 10 * Z.of_nat i)) (seq 0 21) in
  let c := onDataAll (session "peerA") flood in
  bannedPeers (rateLimiter c) = Some {[ "peerA"%string := 301200 ]}
  ∧ snd (isBanned (rateLimiter c) "peerA" 3000) = true
  ∧ snd (onData c "ping" 3000) = HandledPing.
Proof. vm_compute. repeat split; reflexivity. Qed.

(** Once the ban duration has elapsed, [isBanned] admits the peer again. *)
Lemma isBanned_after_duration l p d now later :
  d ≠ 0 → 0 ≤ now → now + d < later →
  snd (isBanned (banPeer l p d now) p later) = false.
Proof.
  intros Hd Hnow Hlater. unfold isBanned, banPeer. cbn.
  rewrite lookup_insert_eq.
  destruct (Z.eqb_spec (now + d) 0); [reflexivity|].
  destruct (Z.ltb_spec (now + d) later); [reflexivity|lia].
Qed.

(** ** The limiter: denials, the burst boundary, cleanup and bans *)

(** X4.  A denied request leaves the limiter exactly as it was, whatever
    the reason of the denial: nothing is recorded for it. *)
Theorem denial_leaves_limiter_unchanged (l l' : limiter) (p m : string)
    (now : Z) (why : denial) :
  isAllowed l p m now = (l', inr why) → l' = l.
Proof.
  unfold isAllowed.
  destruct (checkBurstLimit l p now); cbn [negb]; [|intros [= <- _]; reflexivity].
  destruct (checkWindowLimit l p now); cbn [negb]; [|intros [= <- _]; reflexivity].
  unfold checkMessageTypeLimit.
  destruct (messageLimits m) as [[mx w]|]; [|cbn; discriminate].
  destruct (mx <=? _); cbn; [|discriminate].
  intros [= <- _]. reflexivity.
Qed.

(** The same on the limiter of the session after 20 simultaneous
    requests: the 21st is denied and changes nothing. *)
Lemma denial_leaves_limiter_unchanged_witness :
  let l20 := Nat.iter 20 (λ l, (isAllowed l "peerA" "chunk_ack" 5000).1)
               (rateLimiter (session "peerA")) in
  (isAllowed l20 "peerA" "chunk_ack" 5000).1 = l20.
Proof.
  intros l20.
  apply (denial_leaves_limiter_unchanged l20 _ "peerA" "chunk_ack" 5000 burst_limit).
  vm_compute. reflexivity.
Defined.

Lemma recent_all_now (now w : Z) (k : nat) :
  0 < w → recent now w (repeat now k) = repeat now k.
Proof.
  intros Hw. unfold recent. induction k as [|k IH]; [reflexivity|].
  cbn. rewrite Z.sub_diag.
  destruct (Z.ltb_spec 0 w); [|lia]. rewrite IH. reflexivity.
Qed.

Lemma recent_none_later (now later w : Z) (k : nat) :
  now + w ≤ later → recent later w (repeat now k) = [].
Proof.
  intros Hl. unfold recent. induction k as [|k IH]; [reflexivity|].
  cbn. destruct (Z.ltb_spec (later - now) w); [lia|exact IH].
Qed.

Lemma recent_length_le (now w : Z) (l : list Z) :
  (length (recent now w l) ≤ length l)%nat.
Proof. unfold recent. apply List.filter_length_le. Qed.

(** The limiter after [k] simultaneous requests that were all admitted. *)
Lemma admitted_requests_recorded (l : limiter) (p m : string) (now : Z) (k : nat) :
  requests l !! p = None → bursts l !! p = None → messageLimits m = None →
  0 < burstWindowMs l → 0 < windowMs l → maxBurst l ≤ maxRequests l →
  Z.of_nat k ≤ maxBurst l →
  let lk := Nat.iter k (λ l, (isAllowed l p m now).1) l in
  history (requests lk) p = repeat now k
  ∧ history (bursts lk) p = repeat now k
  ∧ maxRequests lk = maxRequests l ∧ windowMs lk = windowMs l
  ∧ maxBurst lk = maxBurst l ∧ burstWindowMs lk = burstWindowMs l.
Proof.
  intros Hr Hb Hm Hbw Hw Hle. induction k as [|k IH]; intros Hk lk.
  - cbn. unfold history. rewrite Hr, Hb. repeat split; reflexivity.
  - destruct IH as (Hrq & Hbs & E1 & E2 & E3 & E4); [lia|].
    subst lk. rewrite Nat.iter_succ.
    set (l0 := Nat.iter k (λ l, (isAllowed l p m now).1) l) in *.
    unfold isAllowed, checkBurstLimit, checkWindowLimit, checkMessageTypeLimit.
    rewrite Hrq, Hbs, E1, E2, E3, E4, Hm.
    rewrite !recent_all_now by assumption. rewrite repeat_length.
    destruct (Z.ltb_spec (Z.of_nat k) (maxBurst l)); [|lia].
    destruct (Z.ltb_spec (Z.of_nat k) (maxRequests l)); [|lia].
    cbn. unfold history. rewrite !lookup_insert_eq.
    fold (history (requests l0) p). fold (history (bursts l0) p).
    rewrite Hrq, Hbs. rewrite <- !repeat_cons.
    repeat split; assumption.
Qed.

(** X5.  The burst boundary.  A peer without history sends requests of a
    type that has no limit of its own, all at the same instant: while
    fewer than [maxBurst] have been admitted the next one is admitted;
    once exactly [maxBurst] have been admitted the next one is denied with
    reason burst-limit; and once the burst window has elapsed a request
    is admitted again. *)
Theorem burst_boundary (l : limiter) (p m : string) (now : Z) (k : nat) :
  requests l !! p = None → bursts l !! p = None → messageLimits m = None →
  0 < burstWindowMs l → 0 < windowMs l →
  0 < maxBurst l → maxBurst l < maxRequests l →
  let lk := Nat.iter k (λ l, (isAllowed l p m now).1) l in
  (Z.of_nat k < maxBurst l → (isAllowed lk p m now).2 = inl tt)
  ∧ (Z.of_nat k = maxBurst l →
       (isAllowed lk p m now).2 = inr burst_limit
       ∧ ∀ later, now + burstWindowMs l ≤ later →
           (isAllowed lk p m later).2 = inl tt).
Proof.
  intros Hr Hb Hm Hbw Hw Hpos Hlt lk. split; intros Hk.
  - destruct (admitted_requests_recorded l p m now k) as (Hrq & Hbs & E1 & E2 & E3 & E4);
      try assumption; try lia.
    fold lk in Hrq, Hbs, E1, E2, E3, E4.
    unfold isAllowed, checkBurstLimit, checkWindowLimit, checkMessageTypeLimit.
    rewrite Hrq, Hbs, E1, E2, E3, E4, Hm.
    rewrite !recent_all_now by assumption. rewrite repeat_length.
    destruct (Z.ltb_spec (Z.of_nat k) (maxBurst l)); [|lia].
    destruct (Z.ltb_spec (Z.of_nat k) (maxRequests l)); [|lia].
    reflexivity.
  - destruct (admitted_requests_recorded l p m now k) as (Hrq & Hbs & E1 & E2 & E3 & E4);
      try assumption; try lia.
    fold lk in Hrq, Hbs, E1, E2, E3, E4. split.
    + unfold isAllowed, checkBurstLimit.
      rewrite Hbs, E3, E4. rewrite recent_all_now by assumption.
      rewrite repeat_length.
      destruct (Z.ltb_spec (Z.of_nat k) (maxBurst l)); [lia|]. reflexivity.
    + intros later Hlater. cbn [snd].
      unfold isAllowed, checkBurstLimit, checkWindowLimit, checkMessageTypeLimit.
      rewrite Hrq, Hbs, E1, E2, E3, E4, Hm.
      rewrite (recent_none_later now later) by assumption. cbn [length].
      pose proof (recent_length_le later (windowMs l) (repeat now k)) as Hlen.
      rewrite repeat_length in Hlen.
      destruct (Z.ltb_spec (Z.of_nat 0) (maxBurst l)); [|lia].
      destruct (Z.ltb_spec (Z.of_nat (length (recent later (windowMs l) (repeat now k))))
                           (maxRequests l)); [|lia].
      reflexivity.
Qed.

(** The boundary on the limiter of the session, with [chunk_ack] messages:
    the 21st simultaneous one is denied, one second later one passes. *)
Lemma burst_boundary_witness :
  let l20 := Nat.iter 20 (λ l, (isAllowed l "peerA" "chunk_ack" 5000).1)
               (rateLimiter (session "peerA")) in
  (isAllowed l20 "peerA" "chunk_ack" 5000).2 = inr burst_limit
  ∧ (isAllowed l20 "peerA" "chunk_ack" 6000).2 = inl tt.
Proof.
  intros l20.
  destruct (burst_boundary (rateLimiter (session "peerA")) "peerA" "chunk_ack" 5000 20)
    as [_ H]; try reflexivity.
  destruct (H eq_refl) as [Hd Hl]. split; [exact Hd|]. apply Hl. cbn. lia.
Defined.

Lemma filter_filter_weaker {A} (P Q : A → bool) (l : list A) :
  (∀ x, P x = true → Q x = true) →
  List.filter P (List.filter Q l) = List.filter P l.
Proof.
  intros HPQ. induction l as [|x l IH]; [reflexivity|].
  cbn. destruct (Q x) eqn:HQ; cbn.
  - rewrite IH. reflexivity.
  - destruct (P x) eqn:HP; [|exact IH].
    apply HPQ in HP. congruence.
Qed.

(** Pruning at [now] with a window of [w2] does not touch what a later
    look at a window of at most [w2] sees. *)
Lemma recent_prune (now now' w w2 : Z) (m : gmap string (list Z)) (key : string) :
  now ≤ now' → w ≤ w2 →
  recent now' w (history (prune now w2 m) key) = recent now' w (history m key).
Proof.
  intros Hn Hw.
  assert (Hweak : ∀ times,
            recent now' w (recent now w2 times) = recent now' w times).
  { intros times. apply filter_filter_weaker. intros x Hx.
    apply Z.ltb_lt in Hx. apply Z.ltb_lt. lia. }
  unfold history, prune. rewrite lookup_omap.
  destruct (m !! key) as [times|]; cbn; [|reflexivity].
  destruct (Nat.eqb_spec (length (recent now w2 times)) 0) as [He|_].
  - rewrite <- (Hweak times).
    destruct (recent now w2 times); [reflexivity|discriminate].
  - apply Hweak.
Qed.

Lemma messageLimits_window m mx w : messageLimits m = Some (mx, w) → w = 60000.
Proof.
  unfold messageLimits.
  repeat (destruct (String.eqb m _); [intros [= _ <-]; reflexivity|]).
  discriminate.
Qed.

(** X6.  Garbage collection does not change admission: at any time at or
    after a [cleanup], a request is admitted, or denied for a given reason,
    exactly as it would have been without the cleanup, provided twice the
    coarse window covers the 60 s window of the per-type limits (it does
    for the default of 60 s). *)
Theorem cleanup_preserves_decisions (l : limiter) (p m : string) (now now' : Z) :
  0 ≤ burstWindowMs l → 60000 ≤ windowMs l * 2 → now ≤ now' →
  (isAllowed (cleanup l now) p m now').2 = (isAllowed l p m now').2.
Proof.
  intros Hb Hw Hn.
  unfold isAllowed, checkBurstLimit, checkWindowLimit, checkMessageTypeLimit, cleanup.
  cbn [bursts requests set_bursts set_requests maxBurst maxRequests
       burstWindowMs windowMs].
  rewrite (recent_prune now now' (burstWindowMs l)) by lia.
  rewrite (recent_prune now now' (windowMs l)) by lia.
  destruct (_ <? maxBurst l); cbn [negb]; [|reflexivity].
  destruct (_ <? maxRequests l); cbn [negb]; [|reflexivity].
  destruct (messageLimits m) as [[mx w]|] eqn:Hm; [|reflexivity].
  apply messageLimits_window in Hm. subst w.
  rewrite (recent_prune now now' 60000) by lia.
  destruct (mx <=? _); reflexivity.
Qed.

Lemma cleanup_preserves_decisions_witness :
  let l := rateLimiter (onDataAll (session "peerA")
             (map (λ i, ("ping"%string, 1000 * Z.of_nat i)) (seq 0 60))) in
  (isAllowed (cleanup l 100000) "peerA" "ping" 100000).2
  = (isAllowed l "peerA" "ping" 100000).2.
Proof.
  intros l. apply cleanup_preserves_decisions;
    [vm_compute; congruence|vm_compute; congruence|lia].
Defined.

(** X7.  A ban lasts its duration.  After [banPeer] at [now] for
    [durationMs], and until the timer of the ban fires, [isBanned] answers
    true at every time up to and including [now + durationMs] and leaves
    the table alone; at any later time it answers false and removes the
    entry; the answer for any other peer is what it was before the ban.
    Once the timer has fired the peer is not banned, even when it was
    banned again in the meantime. *)
Theorem ban_lasts_its_duration (l : limiter) (p : string) (d now : Z) :
  0 < now + d →
  (∀ t, t ≤ now + d → isBanned (banPeer l p d now) p t = (banPeer l p d now, true))
  ∧ (∀ t, now + d < t →
       (isBanned (banPeer l p d now) p t).2 = false
       ∧ ∃ b, bannedPeers (isBanned (banPeer l p d now) p t).1 = Some b
              ∧ b !! p = None)
  ∧ (∀ q t, q ≠ p →
       (isBanned (banPeer l p d now) q t).2 = (isBanned l q t).2)
  ∧ (∀ d' now' t,
       (isBanned (unbanTimer (banPeer (banPeer l p d now) p d' now') p) p t).2
       = false).
Proof.
  intros Hpos. unfold isBanned, unbanTimer, banPeer. cbn. split; [|split; [|split]].
  - intros t Ht. rewrite lookup_insert_eq.
    destruct (Z.eqb_spec (now + d) 0); [lia|].
    destruct (Z.ltb_spec (now + d) t); [lia|]. reflexivity.
  - intros t Ht. rewrite lookup_insert_eq.
    destruct (Z.eqb_spec (now + d) 0); [lia|].
    destruct (Z.ltb_spec (now + d) t); [|lia]. cbn.
    split; [reflexivity|]. eexists. split; [reflexivity|].
    apply lookup_delete_eq.
  - intros q t Hq. rewrite lookup_insert_ne by congruence.
    destruct (bannedPeers l) as [b|]; cbn.
    + destruct (b !! q) as [u|]; [|reflexivity].
      destruct (u =? 0); [reflexivity|]. destruct (u <? t); reflexivity.
    + rewrite lookup_empty. reflexivity.
  - intros d' now' t. rewrite lookup_delete_eq. reflexivity.
Qed.

Lemma ban_lasts_its_duration_witness :
  (isBanned (banPeer (rateLimiter (session "peerA")) "peerA" 300000 1200)
     "peerA" 301200).2 = true
  ∧ (isBanned (banPeer (rateLimiter (session "peerA")) "peerA" 300000 1200)
       "peerA" 301201).2 = false.
Proof.
  destruct (ban_lasts_its_duration (rateLimiter (session "peerA")) "peerA" 300000 1200)
    as (Hin & Hout & _); [lia|].
  split.
  - rewrite Hin by lia. reflexivity.
  - apply Hout. lia.
Defined.

Lemma utilization_full (n m : Z) (bound : Q) :
  0 < m → m ≤ n → (bound < 100)%Q →
  Qgtb (inject_Z n / inject_Z m * 100)%Q bound = true.
Proof.
  intros Hm Hn Hb. unfold Qgtb. rewrite negb_true_iff.
  destruct (Qle_bool _ bound) eqn:E; [|reflexivity].
  apply Qle_bool_iff in E. exfalso.
  assert (Hm' : (0 < inject_Z m)%Q) by (change 0%Q with (inject_Z 0); rewrite <- Zlt_Qlt; exact Hm).
  assert (H1 : (1 <= inject_Z n / inject_Z m)%Q).
  { apply Qle_shift_div_l; [exact Hm'|]. rewrite Qmult_1_l.
    rewrite <- Zle_Qle. exact Hn. }
  assert (H100 : (100 <= inject_Z n / inject_Z m * 100)%Q).
  { apply Qle_trans with (1 * 100)%Q; [discriminate|].
    apply Qmult_le_compat_r; [exact H1|discriminate]. }
  apply (Qlt_irrefl bound).
  eapply Qlt_le_trans; [exact Hb|]. eapply Qle_trans; [exact H100|exact E].
Qed.

(** X8.  A single denial by the burst limit or by the window limit is
    enough for a ban, as long as the statistics the handler reads next
    still count the requests that the admission check counted (they do
    when the clock has not moved on between the two readings): the
    utilisation of the limit that denied the request is then at least
    100%, above both thresholds (90% and 95%), and the handler drops the
    message and bans the sender for 300000 ms from the reading of
    [banPeer]. *)
Theorem burst_or_window_denial_bans (c : connection) (m : string)
    (now statsNow banNow : Z) (why : denial) :
  let l := rateLimiter c in
  0 < maxBurst l → 0 < maxRequests l →
  (isAllowed l (senderId c) m now).2 = inr why →
  why ≠ message_type_limit →
  recent statsNow (burstWindowMs l) (history (bursts l) (senderId c))
  = recent now (burstWindowMs l) (history (bursts l) (senderId c)) →
  recent statsNow (windowMs l) (history (requests l) (senderId c))
  = recent now (windowMs l) (history (requests l) (senderId c)) →
  onDataAt c m now statsNow banNow
  = (with_limiter c (banPeer l (senderId c) 300000 banNow), Dropped why true).
Proof.
  intros l Hb Hr Hd Hwhy Hsb Hsw. subst l. unfold onDataAt.
  destruct (isAllowed (rateLimiter c) (senderId c) m now) as [l' r] eqn:Ha.
  cbn in Hd. subst r.
  pose proof (denial_leaves_limiter_unchanged _ _ _ _ _ _ Ha) as ->.
  unfold isAllowed, checkBurstLimit, checkWindowLimit in Ha.
  unfold windowUtilization, burstUtilization. rewrite Hsb, Hsw.
  destruct (Z.ltb_spec
              (Z.of_nat (length (recent now (burstWindowMs (rateLimiter c))
                                   (history (bursts (rateLimiter c)) (senderId c)))))
              (maxBurst (rateLimiter c))) as [Hlt|Hge]; cbn [negb] in Ha.
  - destruct (Z.ltb_spec
                (Z.of_nat (length (recent now (windowMs (rateLimiter c))
                                     (history (requests (rateLimiter c)) (senderId c)))))
                (maxRequests (rateLimiter c))) as [Hlt'|Hge']; cbn [negb] in Ha.
    + destruct (checkMessageTypeLimit _ _ _ _) as [l2 [|]]; cbn in Ha;
        injection Ha as _ Hw; [discriminate|]. congruence.
    + rewrite (utilization_full _ _ 90 Hr Hge') by reflexivity. reflexivity.
  - rewrite (utilization_full _ _ 95 Hb Hge) by reflexivity.
    rewrite orb_true_r. reflexivity.
Qed.

(** Twenty requests at 5000; the next one is denied at 5000, the
    statistics are read at 5003 and the ban is set at 5004. *)
Lemma burst_or_window_denial_bans_witness :
  let c := onDataAll (session "peerA") (repeat ("chunk_ack"%string, 5000) 20) in
  (onDataAt c "chunk_ack" 5000 5003 5004).2 = Dropped burst_limit true
  ∧ bannedPeers (rateLimiter (onDataAt c "chunk_ack" 5000 5003 5004).1)
    = Some {[ "peerA"%string := 305004 ]}.
Proof.
  intros c.
  rewrite (burst_or_window_denial_bans c "chunk_ack" 5000 5003 5004 burst_limit);
    [split; reflexivity|reflexivity|reflexivity|vm_compute; reflexivity
    |discriminate|vm_compute; reflexivity|vm_compute; reflexivity].
Defined.

(** When the clock moves on between the denial and the statistics, the
    requests that caused the denial may have left the window: twenty
    requests at 0, the next one denied at 999, the statistics read at
    1000, and the message is dropped without a ban. *)
Example denial_without_ban_when_clock_moves :
  let c := onDataAll (session "peerA") (repeat ("chunk_ack"%string, 0) 20) in
  onDataAt c "chunk_ack" 999 1000 1000 = (c, Dropped burst_limit false).
Proof. vm_compute. reflexivity. Qed.

End DispatchFacts.

(** ** Reputation engine *)

Module ReputationFacts.
Import Reputation.

Local Open Scope Q_scope.

Lemma Qltb_lt (x y : Q) : Qltb x y = true ↔ x < y.
Proof.
  unfold Qltb. rewrite negb_true_iff. split.
  - intros H. apply Qnot_le_lt. intros Hle.
    apply Qle_bool_iff in Hle. congruence.
  - intros H. destruct (Qle_bool y x) eqn:E; [|reflexivity].
    apply Qle_bool_iff in E. exfalso. exact (Qlt_not_le _ _ H E).
Qed.

Lemma ratio_in_unit (s t : Z) :
  (0 ≤ s)%Z → (s ≤ t)%Z → (0 < t)%Z →
  0 <= inject_Z s / inject_Z t ∧ inject_Z s / inject_Z t <= 1.
Proof.
  intros Hs Hst Ht.
  assert (Ht' : 0 < inject_Z t) by (change 0 with (inject_Z 0); rewrite <- Zlt_Qlt; exact Ht).
  split.
  - apply Qle_shift_div_l; [exact Ht'|]. rewrite Qmult_0_l.
    change 0 with (inject_Z 0). rewrite <- Zle_Qle. exact Hs.
  - apply Qle_shift_div_r; [exact Ht'|]. rewrite Qmult_1_l.
    rewrite <- Zle_Qle. exact Hst.
Qed.

Lemma updateOverallScore_present st p r now :
  st !! p = Some r → updateOverallScore st p now = <[p := rescored r]> st.
Proof.
  intros Hp. unfold updateOverallScore, getPeerReputation, rescored. rewrite Hp.
  cbn [overallScore scored_record isBlacklisted].
  destruct (Qltb (weightedScore r) thresholds_blacklisted && negb (isBlacklisted r));
    [|reflexivity].
  unfold blacklistPeer, getPeerReputation. rewrite lookup_insert_eq.
  apply insert_insert_eq.
Qed.

Lemma counters_ok_fresh p now :
  counters_ok (migrateReputationData (new_raw p now) now).
Proof. split; cbn; try lia. reflexivity. Qed.

Lemma counters_ok_rescored r : counters_ok r → counters_ok (rescored r).
Proof.
  intros [? ? ? ? ? ?]. unfold rescored.
  destruct (_ && _); split; cbn; assumption.
Qed.

Lemma score_ok_rescored r : score_ok (rescored r).
Proof.
  unfold rescored, score_ok.
  destruct (Qltb (weightedScore r) thresholds_blacklisted) eqn:Hlow; cbn [andb].
  - destruct (isBlacklisted r) eqn:Hb; cbn [negb].
    + left. reflexivity.
    + right. apply Qltb_lt in Hlow. cbn [isBlacklisted trustLevel overallScore blacklisted_record].
      repeat split; try reflexivity. exact Hlow.
  - left. reflexivity.
Qed.

Lemma counters_ok_connection r rt ok now :
  counters_ok r → counters_ok (connection_recorded r rt ok now).
Proof.
  intros [? ? ? ? ? ?]. split; cbn; try assumption; destruct ok; lia.
Qed.

Lemma counters_ok_verification r ok rt :
  counters_ok r → counters_ok (verification_recorded r ok rt).
Proof.
  intros [? ? ? ? ? ?]. split; cbn; try assumption; destruct ok; lia.
Qed.

Lemma counters_ok_uptime r up now :
  counters_ok r → counters_ok (uptime_recorded r up now).
Proof. intros [? ? ? ? ? ?]. split; cbn; assumption. Qed.

Lemma counters_ok_transfer r (n c : N) :
  counters_ok r → counters_ok (transfer_recorded r (Z.of_N n) (Z.of_N c)).
Proof.
  intros [? ? ? ? Hf Hi]. split; cbn; try assumption; try lia.
  unfold spec_integrity_score in *. cbn.
  destruct (Z.ltb_spec 0 (totalFilesTransferred r + Z.of_N n)) as [Hpos|Hzero].
  - destruct (Z.eqb_spec (totalFilesTransferred r + Z.of_N n) 0); [lia|reflexivity].
  - assert (Ht : totalFilesTransferred r = 0%Z) by lia.
    assert (Hn : Z.of_N n = 0%Z) by lia.
    rewrite Ht, Hn in *. cbn in *. exact Hi.
Qed.

Lemma mutate_then_rescore (st : peers) p now f :
  updateOverallScore (<[p := f (getPeerReputation st p now).2]> (getPeerReputation st p now).1) p now
  = <[p := rescored (f (getPeerReputation st p now).2)]> st.
Proof.
  rewrite (updateOverallScore_present _ p _ now (lookup_insert_eq _ _ _)).
  rewrite insert_insert_eq.
  unfold getPeerReputation. destruct (st !! p); cbn; [reflexivity|].
  apply insert_insert_eq.
Qed.

(** Every event rewrites the entry of its own peer and nothing else. *)
Lemma record_eq (st : peers) (e : event) :
  record st e
  = <[event_peer e :=
        rescored (applied e (getPeerReputation st (event_peer e) (event_now e)).2)]> st.
Proof.
  destruct e as [p rt ok now|p ok rt now|p ok n c now|p up now]; cbn [record event_peer event_now applied].
  - unfold recordConnection.
    rewrite (surjective_pairing (getPeerReputation st p now)).
    apply (mutate_then_rescore st p now (λ r, connection_recorded r rt ok now)).
  - unfold recordVerification.
    rewrite (surjective_pairing (getPeerReputation st p now)).
    apply (mutate_then_rescore st p now (λ r, verification_recorded r ok rt)).
  - unfold recordFileTransfer.
    rewrite (surjective_pairing (getPeerReputation st p now)).
    apply (mutate_then_rescore st p now (λ r, transfer_recorded r (Z.of_N n) (Z.of_N c))).
  - unfold recordUptime.
    rewrite (surjective_pairing (getPeerReputation st p now)).
    apply (mutate_then_rescore st p now (λ r, uptime_recorded r up now)).
Qed.

Lemma counters_ok_applied e r : counters_ok r → counters_ok (applied e r).
Proof.
  destruct e; cbn [applied];
    auto using counters_ok_connection, counters_ok_verification,
               counters_ok_transfer, counters_ok_uptime.
Qed.

Lemma store_ok_record st e : store_ok st → store_ok (record st e).
Proof.
  intros Hst q r. rewrite record_eq.
  intros Hq. apply lookup_insert_Some in Hq as [[_ <-]|[_ Hq]]; [|exact (Hst q r Hq)].
  split; [|apply score_ok_rescored].
  apply counters_ok_rescored, counters_ok_applied.
  unfold getPeerReputation.
  destruct (st !! event_peer e) as [r0|] eqn:Hp; cbn [snd].
  - exact (proj1 (Hst _ _ Hp)).
  - apply counters_ok_fresh.
Qed.

Lemma store_ok_fold evs st : store_ok st → store_ok (fold_left record evs st).
Proof.
  revert st. induction evs as [|e evs IH]; intros st Hst; cbn; [exact Hst|].
  apply IH, store_ok_record, Hst.
Qed.

Lemma store_ok_record_all evs : store_ok (record_all evs).
Proof. apply store_ok_fold. intros p r Hp. rewrite lookup_empty in Hp. discriminate. Qed.

Lemma connectionScore_in_unit r :
  counters_ok r → 0 <= connectionScore r ∧ connectionScore r <= 1.
Proof.
  intros [Hs Hle _ _ _ _]. unfold connectionScore.
  destruct (Z.ltb_spec 0 (totalConnections r)) as [Hpos|_].
  - apply ratio_in_unit; assumption.
  - split; discriminate.
Qed.

Lemma verificationScore_spec r :
  counters_ok r → verificationScore r == spec_verification_score r.
Proof.
  intros [_ _ Hs Hle _ _]. unfold verificationScore, spec_verification_score.
  destruct (Z.ltb_spec 0 (totalChallenges r));
    destruct (Z.eqb_spec (totalChallenges r) 0); try lia; reflexivity.
Qed.

Lemma connectionScore_spec r :
  counters_ok r → connectionScore r == spec_connection_score r.
Proof.
  intros [Hs Hle _ _ _ _]. unfold connectionScore, spec_connection_score.
  destruct (Z.ltb_spec 0 (totalConnections r));
    destruct (Z.eqb_spec (totalConnections r) 0); try lia; reflexivity.
Qed.

(** The sum computed by the code is the designed sum over the counters. *)
Lemma weightedScore_designed r :
  counters_ok r → weightedScore r == designed_overall_score r.
Proof.
  intros Hc. pose proof (verificationScore_spec r Hc) as Hv.
  pose proof (connectionScore_spec r Hc) as Hn.
  pose proof (integrity_stored r Hc) as Hi.
  unfold weightedScore, designed_overall_score, responseTimeScore,
    weights_uptime, weights_responseTime, weights_verificationSuccess,
    weights_dataIntegrity.
  rewrite Hv, Hn, Hi. ring.
Qed.

(** After any sequence of events the stored score of every peer is the
    weighted sum of the code, or 0 right after the automatic blacklist. *)
Lemma overall_score_is_weighted_score evs p r :
  record_all evs !! p = Some r →
  overallScore r == weightedScore r
  ∨ (isBlacklisted r = true ∧ trustLevel r = "blacklisted"%string
     ∧ overallScore r == 0 ∧ weightedScore r < 2 # 10).
Proof. intros Hp. exact (proj2 (store_ok_record_all evs p r Hp)). Qed.

(** The stored uptime score is the average over the last 50 samples. *)
Lemma uptime_ok_fold evs st : uptime_ok st → uptime_ok (fold_left record evs st).
Proof.
  revert st. induction evs as [|e evs IH]; intros st Hst; cbn [fold_left];
    [exact Hst|].
  apply IH. intros q x. rewrite record_eq. intros Hq.
  apply lookup_insert_Some in Hq as [[_ <-]|[_ Hq]]; [|exact (Hst q x Hq)].
  assert (Hr0 : uptimeHistory (getPeerReputation st (event_peer e) (event_now e)).2 ≠ [] →
                uptimeScore (getPeerReputation st (event_peer e) (event_now e)).2
                = uptime_of (uptimeHistory (getPeerReputation st (event_peer e) (event_now e)).2)).
  { unfold getPeerReputation. destruct (st !! event_peer e) as [r0|] eqn:Hp; cbn [snd].
    - exact (Hst _ _ Hp).
    - cbn. congruence. }
  unfold rescored. destruct (_ && _); destruct e; cbn; try exact Hr0; reflexivity.
Qed.

Lemma uptimeScore_rolling_average evs p r :
  record_all evs !! p = Some r →
  uptimeHistory r ≠ [] → uptimeScore r = uptime_of (uptimeHistory r).
Proof.
  apply (uptime_ok_fold evs ∅). intros q x Hq.
  rewrite lookup_empty in Hq. discriminate.
Qed.

(** C1, as stated, fails, on two counts.  (1) One uptime sample
    (available) and one successful connection with no measured response
    time: the uptime score and the connection ratio are both 1, the stored
    overall score is 0.75, the claimed formula gives 0.85 (it scores an
    average response time of 0 as 1, the code as 0.5: no data).  (2) One
    successful connection measured at 15000 ms and one uptime sample
    (unavailable): both response-time scores are 0.5, the stored uptime
    score is 0, and the stored overall score is 0.75 where the claimed
    formula gives 0.45: the first weighted component is the connection
    success ratio, not the uptime score. *)
Lemma stored_score_differs_from_claimed_formula :
  (∃ r, record_all [UptimeEvent "p" true 10; ConnectionEvent "p" 0 true 20]
          !! "p"%string = Some r
     ∧ overallScore r == 3 # 4
     ∧ spec_overall_score r == 17 # 20
     ∧ ¬ overallScore r == spec_overall_score r)
  ∧ (∃ r, record_all [ConnectionEvent "p" (15000 # 1) true 10; UptimeEvent "p" false 20]
          !! "p"%string = Some r
     ∧ uptimeScore r == 0
     ∧ overallScore r == 3 # 4
     ∧ spec_overall_score r == 9 # 20
     ∧ ¬ overallScore r == spec_overall_score r).
Proof.
  split.
  - eexists. split; [vm_compute; reflexivity|].
    split; [vm_compute; reflexivity|].
    split; [vm_compute; reflexivity|].
    vm_compute. discriminate.
  - eexists. split; [vm_compute; reflexivity|].
    split; [vm_compute; reflexivity|].
    split; [vm_compute; reflexivity|].
    split; [vm_compute; reflexivity|].
    vm_compute. discriminate.
Qed.

(** C1, amended.  For every sequence of recorded reputation events
    starting from an empty store and every peer with a record, the stored
    overall score equals 0.3*connection-score + 0.2*response-time-score +
    0.3*verification-score + 0.2*integrity-score computed from the final
    counters, where connection-score is successful/total connections (0.5
    if total = 0), response-time-score is 0.5 when the average response
    time is 0 and min(1, max(0, 1 - avg_ms/30000)) otherwise,
    verification-score is successful/total challenges (0.5 if total = 0)
    and integrity-score is 1 - corrupted/transferred (1 if transferred =
    0); the one exception is a peer whose sum fell below 0.2 and was
    blacklisted by that update: its stored score is 0.  The uptime score
    (the rolling average over the last 50 samples) is stored beside it and
    does not enter the sum. *)
Theorem overall_score_after_events (evs : list event) (p : string) (r : reputation) :
  record_all evs !! p = Some r →
  (overallScore r == designed_overall_score r
   ∨ (isBlacklisted r = true ∧ overallScore r == 0
      ∧ designed_overall_score r < 2 # 10))
  ∧ (uptimeHistory r ≠ [] → uptimeScore r = uptime_of (uptimeHistory r)).
Proof.
  intros Hp. split; [|exact (uptimeScore_rolling_average evs p r Hp)].
  destruct (store_ok_record_all evs p r Hp) as [Hc Hs].
  pose proof (weightedScore_designed r Hc) as Hw.
  destruct Hs as [Hs|(Hb & _ & Hz & Hlow)].
  - left. rewrite Hs. exact Hw.
  - right. split; [exact Hb|]. split; [exact Hz|].
    rewrite <- Hw. exact Hlow.
Qed.

(** The same on a peer driven below 0.2 by a failed connection, a failed
    challenge and a corrupted file: its stored score is 0. *)
Lemma overall_score_after_events_witness :
  ∃ r, record_all [ConnectionEvent "p" 0 false 10; VerificationEvent "p" false 0 11;
                   FileTransferEvent "p" true 1 1 12; UptimeEvent "q" true 13]
         !! "p"%string = Some r
    ∧ overallScore r == 0
    ∧ (overallScore r == designed_overall_score r
       ∨ (isBlacklisted r = true ∧ overallScore r == 0
          ∧ designed_overall_score r < 2 # 10)).
Proof.
  eexists. split; [vm_compute; reflexivity|].
  split; [vm_compute; reflexivity|].
  apply (overall_score_after_events
           [ConnectionEvent "p" 0 false 10; VerificationEvent "p" false 0 11;
            FileTransferEvent "p" true 1 1 12; UptimeEvent "q" true 13] "p").
  vm_compute. reflexivity.
Defined.

(** C10.  Looking up a peer that has no record creates one with overall
    score exactly 0.5 and trust level 'unknown'; the acceptance predicate
    with the default threshold (0.6) then rejects that peer; and a lookup
    changes no existing record: the records present before the creating
    lookup are present unchanged after it, and looking up a peer that has a
    record returns it and leaves the store as it was. *)
Theorem never_seen_peer_defaults (st : peers) (p : string) (now : Z) :
  st !! p = None →
  (getPeerReputation st p now).1 = <[p := (getPeerReputation st p now).2]> st
  ∧ overallScore (getPeerReputation st p now).2 = 1 # 2
  ∧ trustLevel (getPeerReputation st p now).2 = "unknown"%string
  ∧ (isPeerAcceptable st p None now).2 = RejectedTooLow (1 # 2) (6 # 10)
  ∧ acceptable (isPeerAcceptable st p None now).2 = false
  ∧ (∀ q x, st !! q = Some x →
       (getPeerReputation st p now).1 !! q = Some x
       ∧ ∀ now', getPeerReputation st q now' = (st, x)).
Proof.
  intros Hp. unfold isPeerAcceptable, getPeerReputation. rewrite Hp. cbn.
  repeat split; try reflexivity.
  - rewrite lookup_insert_ne; [assumption|]. intros ->. congruence.
  - match goal with Hq : st !! _ = Some _ |- _ => rewrite Hq end. reflexivity.
Qed.

(** The same on a store that knows one other peer. *)
Lemma never_seen_peer_defaults_witness :
  let st := record_all [ConnectionEvent "q" 0 true 1] in
  st !! "p"%string = None
  ∧ overallScore (getPeerReputation st "p" 2).2 = 1 # 2
  ∧ trustLevel (getPeerReputation st "p" 2).2 = "unknown"%string
  ∧ acceptable (isPeerAcceptable st "p" None 2).2 = false.
Proof.
  intros st.
  assert (Hp : st !! "p"%string = None) by (vm_compute; reflexivity).
  split; [exact Hp|].
  destruct (never_seen_peer_defaults st "p" 2 Hp) as (_ & Ho & Ht & _ & Ha & _).
  split; [exact Ho|]. split; [exact Ht|exact Ha].
Defined.

(** ** More invariants of the records *)

(** A property of records that the fresh record has and that every
    admissible event and every rescoring keep holds of every record after
    any sequence of admissible events. *)
Lemma record_all_invariant (I : reputation → Prop) (ok : event → Prop) :
  (∀ p now, I (fresh p now)) →
  (∀ e r, ok e → I r → I (applied e r)) →
  (∀ r, I r → I (rescored r)) →
  ∀ evs, Forall ok evs → ∀ p r, record_all evs !! p = Some r → I r.
Proof.
  intros Hfresh Happ Hres evs Hok. unfold record_all.
  assert (Hgen : ∀ st : peers, (∀ p r, st !! p = Some r → I r) →
            ∀ p r, fold_left record evs st !! p = Some r → I r).
  { induction Hok as [|e evs He _ IH]; intros st Hst; cbn [fold_left];
      [exact Hst|].
    apply IH. intros q x. rewrite record_eq. intros Hq.
    apply lookup_insert_Some in Hq as [[_ <-]|[_ Hq]]; [|exact (Hst q x Hq)].
    apply Hres, Happ; [exact He|].
    unfold getPeerReputation.
    destruct (st !! event_peer e) as [r0|] eqn:Hp; cbn [snd].
    - exact (Hst _ _ Hp).
    - apply Hfresh. }
  apply Hgen. intros p r Hp. rewrite lookup_empty in Hp. discriminate.
Qed.

Lemma tallies_ok_applied e r : tallies_ok r → tallies_ok (applied e r).
Proof.
  intros [Hc [Hc1 Hc2] Hv [Hv1 Hv2] [Hf1 Hf2] Hw].
  destruct e as [p rt ok now|p ok rt now|p ok n c now|p up now];
    cbn [applied].
  - split; cbn; try assumption; try (split; assumption); destruct ok; lia.
  - split; cbn; try assumption; try (split; assumption); destruct ok; lia.
  - split; cbn; try assumption; try (split; assumption); lia.
  - split; try solve [cbn; assumption | cbn; split; assumption].
    unfold uptime_recorded. cbn [uptimeHistory].
    rewrite length_app. cbn [length].
    destruct (Nat.leb_spec 100 (length (uptimeHistory r))) as [Hfull|Hroom].
    + destruct (uptimeHistory r) as [|x h]; cbn [tail length] in *; lia.
    + lia.
Qed.

Lemma tallies_ok_rescored r : tallies_ok r → tallies_ok (rescored r).
Proof.
  intros [? ? ? ? ? ?]. unfold rescored. destruct (_ && _); split; cbn; assumption.
Qed.

(** X9.  After any sequence of recorded events, for every peer: each
    connection and each challenge is counted either as a success or as a
    failure (successful + failed = total, so successful <= total), no
    counter is negative, and the uptime window holds at most 100 checks. *)
Theorem tallies_add_up (evs : list event) (p : string) (r : reputation) :
  record_all evs !! p = Some r →
  (successfulConnections r + failedConnections r = totalConnections r
   ∧ 0 ≤ successfulConnections r ∧ 0 ≤ failedConnections r)%Z
  ∧ (successfulChallenges r + failedChallenges r = totalChallenges r
     ∧ 0 ≤ successfulChallenges r ∧ 0 ≤ failedChallenges r)%Z
  ∧ (0 ≤ corruptedFiles r ∧ 0 ≤ totalFilesTransferred r)%Z
  ∧ (length (uptimeHistory r) ≤ 100)%nat.
Proof.
  intros Hp.
  assert (Ht : tallies_ok r).
  { apply (record_all_invariant tallies_ok (λ _, True)) with (evs := evs) (p := p).
    - intros q now. split; cbn; lia.
    - intros e x _. apply tallies_ok_applied.
    - apply tallies_ok_rescored.
    - apply Forall_forall. intros; exact I.
    - exact Hp. }
  destruct Ht as [Hc [Hc1 Hc2] Hv [Hv1 Hv2] [Hf1 Hf2] Hw].
  repeat split; assumption.
Qed.

Lemma tallies_add_up_witness :
  ∃ r, record_all [ConnectionEvent "p" 0 false 10; ConnectionEvent "p" (120 # 1) true 11;
                   VerificationEvent "p" true (90 # 1) 12] !! "p"%string = Some r
     ∧ (successfulConnections r + failedConnections r = totalConnections r)%Z
     ∧ totalConnections r = 2%Z.
Proof.
  eexists. split; [vm_compute; reflexivity|].
  split; [|vm_compute; reflexivity].
  apply (tallies_add_up
           [ConnectionEvent "p" 0 false 10; ConnectionEvent "p" (120 # 1) true 11;
            VerificationEvent "p" true (90 # 1) 12] "p").
  vm_compute. reflexivity.
Defined.

Lemma trust_ok_rescored r : trust_ok (rescored r).
Proof.
  unfold rescored, trust_ok. destruct (_ && _); cbn; [right|left]; auto.
Qed.

(** X10.  After any sequence of recorded events the stored trust level of
    every peer is determined by its stored score: it is the level
    [getTrustLevel] gives for the stored overall score (trusted from 0.8,
    acceptable from 0.6, suspicious from 0.4, untrusted below), unless
    the peer has just been blacklisted, in which case the level is
    'blacklisted', the flag is set and the score is 0. *)
Theorem trust_level_follows_score (evs : list event) (p : string) (r : reputation) :
  record_all evs !! p = Some r →
  trustLevel r = getTrustLevel (overallScore r)
  ∨ (trustLevel r = "blacklisted"%string ∧ isBlacklisted r = true
     ∧ overallScore r = 0).
Proof.
  unfold record_all.
  assert (Hgen : ∀ st : peers, (∀ q x, st !! q = Some x → trust_ok x) →
            ∀ q x, fold_left record evs st !! q = Some x → trust_ok x).
  { induction evs as [|e evs IH]; intros st Hst; cbn [fold_left]; [exact Hst|].
    apply IH. intros q x. rewrite record_eq. intros Hq.
    apply lookup_insert_Some in Hq as [[_ <-]|[_ Hq]]; [|exact (Hst q x Hq)].
    apply trust_ok_rescored. }
  apply Hgen. intros q x Hq. rewrite lookup_empty in Hq. discriminate.
Qed.

Lemma trust_level_follows_score_witness :
  ∃ r, record_all [ConnectionEvent "p" (1500 # 1) true 10;
                   VerificationEvent "p" true (90 # 1) 12] !! "p"%string = Some r
     ∧ trustLevel r = "trusted"%string
     ∧ (trustLevel r = getTrustLevel (overallScore r)
        ∨ (trustLevel r = "blacklisted"%string ∧ isBlacklisted r = true
           ∧ overallScore r = 0)).
Proof.
  eexists. split; [vm_compute; reflexivity|].
  split; [vm_compute; reflexivity|].
  apply (trust_level_follows_score
           [ConnectionEvent "p" (1500 # 1) true 10;
            VerificationEvent "p" true (90 # 1) 12] "p").
  vm_compute. reflexivity.
Defined.

Lemma calculateResponseTimeScore_in_unit (avg : Q) :
  0 <= calculateResponseTimeScore avg ∧ calculateResponseTimeScore avg <= 1.
Proof.
  unfold calculateResponseTimeScore.
  destruct (Qeq_bool avg 0); [split; discriminate|]. split.
  - apply Q.min_glb; [discriminate|apply Q.le_max_l].
  - apply Q.le_min_l.
Qed.

(** X11.  The response-time score is always within [0,1]; among measured
    averages (above 0) a slower average never scores higher; and an
    average of 30 seconds or more scores 0.  (An average of exactly 0 is
    read as no data and scores 0.5.) *)
Theorem response_time_score_shape (a b : Q) :
  (0 <= calculateResponseTimeScore a ∧ calculateResponseTimeScore a <= 1)
  ∧ (0 < a → a <= b →
       calculateResponseTimeScore b <= calculateResponseTimeScore a)
  ∧ (30000 # 1 <= a → calculateResponseTimeScore a == 0).
Proof.
  split; [apply calculateResponseTimeScore_in_unit|]. split.
  - intros Ha Hab. unfold calculateResponseTimeScore.
    assert (Hb : 0 < b) by (eapply Qlt_le_trans; eassumption).
    destruct (Qeq_bool a 0) eqn:Ea.
    { apply Qeq_bool_iff in Ea. rewrite Ea in Ha. destruct (Qlt_irrefl 0 Ha). }
    destruct (Qeq_bool b 0) eqn:Eb.
    { apply Qeq_bool_iff in Eb. rewrite Eb in Hb. destruct (Qlt_irrefl 0 Hb). }
    apply Q.min_le_compat_l, Q.max_le_compat_l.
    unfold Qminus. apply Qplus_le_r. apply Qopp_le_compat.
    apply Qmult_le_compat_r; [exact Hab|discriminate].
  - intros Ha. unfold calculateResponseTimeScore.
    destruct (Qeq_bool a 0) eqn:Ea.
    { apply Qeq_bool_iff in Ea. rewrite Ea in Ha.
      destruct (Qlt_not_le 0 (30000 # 1) eq_refl Ha). }
    assert (Hneg : 1 - a / (30000 # 1) <= 0).
    { assert (H1 : 1 <= a / (30000 # 1)).
      { apply Qle_shift_div_l; [reflexivity|]. rewrite Qmult_1_l. exact Ha. }
      set (x := a / (30000 # 1)) in *. lra. }
    rewrite (Q.max_l 0 _ Hneg). apply Q.min_r. discriminate.
Qed.

Lemma response_time_score_shape_witness :
  calculateResponseTimeScore (20000 # 1) <= calculateResponseTimeScore (10000 # 1)
  ∧ calculateResponseTimeScore (45000 # 1) == 0.
Proof.
  destruct (response_time_score_shape (10000 # 1) (20000 # 1)) as (_ & Hmono & _).
  destruct (response_time_score_shape (45000 # 1) 0) as (_ & _ & Hzero).
  split; [apply Hmono; [reflexivity|discriminate]|apply Hzero; discriminate].
Defined.

Lemma spec_integrity_in_unit r :
  files_ok r → 0 <= spec_integrity_score r ∧ spec_integrity_score r <= 1.
Proof.
  intros [H0 Hle]. unfold spec_integrity_score.
  destruct (Z.eqb_spec (totalFilesTransferred r) 0) as [|Hne]; [split; discriminate|].
  destruct (ratio_in_unit (corruptedFiles r) (totalFilesTransferred r))
    as [Hlo Hhi]; [assumption|assumption|lia|].
  split; lra.
Qed.

Lemma weightedScore_in_unit r :
  counters_ok r → files_ok r → 0 <= weightedScore r ∧ weightedScore r <= 1.
Proof.
  intros Hc Hf.
  pose proof (connectionScore_in_unit r Hc) as [Hc0 Hc1].
  pose proof (calculateResponseTimeScore_in_unit (averageResponseTime r)) as [Hr0 Hr1].
  pose proof (spec_integrity_in_unit r Hf) as [Hi0 Hi1].
  pose proof (integrity_stored r Hc) as Hi.
  assert (Hv : 0 <= verificationScore r ∧ verificationScore r <= 1).
  { unfold verificationScore.
    destruct (Z.ltb_spec 0 (totalChallenges r)); [|split; discriminate].
    apply ratio_in_unit; [apply (chal_nonneg r Hc)|apply (chal_le r Hc)|assumption]. }
  destruct Hv as [Hv0 Hv1].
  unfold weightedScore, responseTimeScore, weights_uptime, weights_responseTime,
    weights_verificationSuccess, weights_dataIntegrity.
  rewrite Hi.
  set (c := connectionScore r) in *.
  set (t := calculateResponseTimeScore (averageResponseTime r)) in *.
  set (v := verificationScore r) in *.
  set (i := spec_integrity_score r) in *.
  split; lra.
Qed.

(** X12.  If no file-transfer event reports more corrupted files than
    files, the stored overall score of every peer lies within [0,1] after
    any sequence of events. *)
Theorem overall_score_in_unit (evs : list event) (p : string) (r : reputation) :
  Forall event_sane evs →
  record_all evs !! p = Some r →
  0 <= overallScore r ∧ overallScore r <= 1.
Proof.
  intros Hsane Hp.
  assert (Hf : files_ok r).
  { apply (record_all_invariant files_ok event_sane) with (evs := evs) (p := p);
      [| | |exact Hsane|exact Hp].
    - intros q now. split; cbn; lia.
    - intros e x He [H0 Hle].
      destruct e as [q rt ok now|q ok rt now|q ok n c now|q up now];
        cbn [applied]; try (split; cbn; assumption).
      cbn in He. split; cbn; lia.
    - intros x [H0 Hle]. unfold rescored. destruct (_ && _); split; cbn; assumption. }
  destruct (store_ok_record_all evs p r Hp) as [Hc Hs].
  destruct (weightedScore_in_unit r Hc Hf) as [Hw0 Hw1].
  destruct Hs as [Hs|(_ & _ & Hz & _)].
  - rewrite Hs. split; assumption.
  - rewrite Hz. split; discriminate.
Qed.

Lemma overall_score_in_unit_witness :
  ∃ r, record_all [FileTransferEvent "p" true 4 1 10;
                   ConnectionEvent "p" (1500 # 1) true 11] !! "p"%string = Some r
     ∧ 0 <= overallScore r ∧ overallScore r <= 1.
Proof.
  eexists. split; [vm_compute; reflexivity|].
  apply (overall_score_in_unit
           [FileTransferEvent "p" true 4 1 10;
            ConnectionEvent "p" (1500 # 1) true 11] "p").
  - repeat constructor. cbn. lia.
  - vm_compute. reflexivity.
Defined.

(** ** Blacklist, clean-up and merge *)

(** X13.  Removing a peer from the blacklist recomputes its score at once.
    If the weighted score of its counters is 0.2 or more, the flag and the
    reason are cleared and the score and trust level are those of the
    counters.  If it is below 0.2 the automatic blacklist fires inside the
    same call: the peer ends up blacklisted again, with score 0 and the
    automatic reason. *)
Theorem unblacklist_recomputes (st : peers) (p : string) (r : reputation) (now : Z) :
  st !! p = Some r →
  ∃ r', unblacklistPeer st p now = <[p := r']> st
    ∧ (¬ weightedScore r < 2 # 10 →
         isBlacklisted r' = false ∧ blacklistReason r' = None
         ∧ overallScore r' = weightedScore r
         ∧ trustLevel r' = getTrustLevel (weightedScore r))
    ∧ (weightedScore r < 2 # 10 →
         isBlacklisted r' = true
         ∧ blacklistReason r' = Some "Automatic blacklist due to low reputation"%string
         ∧ overallScore r' = 0
         ∧ trustLevel r' = "blacklisted"%string).
Proof.
  intros Hp. unfold unblacklistPeer, getPeerReputation. rewrite Hp.
  rewrite (updateOverallScore_present _ p _ now (lookup_insert_eq _ _ _)).
  rewrite insert_insert_eq. eexists. split; [reflexivity|].
  unfold rescored. cbn [isBlacklisted unblacklisted_record negb].
  change (weightedScore (unblacklisted_record r)) with (weightedScore r).
  rewrite andb_true_r.
  destruct (Qltb (weightedScore r) thresholds_blacklisted) eqn:Hlow.
  - apply Qltb_lt in Hlow. split; [intros Hn; contradiction|].
    intros _. cbn. auto.
  - split; [intros _; cbn; auto|].
    intros Hl. apply Qltb_lt in Hl. unfold thresholds_blacklisted in Hlow.
    congruence.
Qed.

(** A peer driven below 0.2 stays blacklisted when it is unblacklisted. *)
Lemma unblacklist_recomputes_witness :
  ∃ r', unblacklistPeer
          (record_all [ConnectionEvent "p" 0 false 10; VerificationEvent "p" false 0 11;
                       FileTransferEvent "p" true 1 1 12]) "p" 13 !! "p"%string
        = Some r'
     ∧ isBlacklisted r' = true.
Proof.
  assert (Hr : is_Some (record_all [ConnectionEvent "p" 0 false 10;
                          VerificationEvent "p" false 0 11;
                          FileTransferEvent "p" true 1 1 12] !! "p"%string))
    by (vm_compute; eauto).
  destruct Hr as [r Hr].
  destruct (unblacklist_recomputes _ "p" r 13 Hr) as (r' & Heq & _ & Hlow).
  exists r'. split; [rewrite Heq; apply lookup_insert_eq|].
  apply Hlow.
  assert (Hw : weightedScore r == 1 # 10).
  { vm_compute in Hr. injection Hr as <-. vm_compute. reflexivity. }
  rewrite Hw. reflexivity.
Defined.

Lemma isBlacklisted_applied e r : isBlacklisted (applied e r) = isBlacklisted r.
Proof. destruct e; reflexivity. Qed.

Lemma isBlacklisted_rescored r : isBlacklisted r = true → isBlacklisted (rescored r) = true.
Proof. intros H. unfold rescored. destruct (_ && _); cbn; auto. Qed.

(** X14.  No recorded event lifts a blacklist.  Once a peer has been
    blacklisted it still has a record with the flag set after any sequence
    of connection, verification, file-transfer and uptime events, for it
    or for others, and the acceptance predicate rejects it as blacklisted
    whatever minimum score is asked for. *)
Theorem blacklist_survives_events (st : peers) (p why : string) (now : Z)
    (evs : list event) :
  ∃ r, fold_left record evs (blacklistPeer st p why now) !! p = Some r
     ∧ isBlacklisted r = true
     ∧ ∀ minScore now',
         (isPeerAcceptable (fold_left record evs (blacklistPeer st p why now))
            p minScore now').2 = RejectedBlacklisted.
Proof.
  assert (Hgen : ∀ st0 : peers,
            (∃ r, st0 !! p = Some r ∧ isBlacklisted r = true) →
            ∃ r, fold_left record evs st0 !! p = Some r ∧ isBlacklisted r = true).
  { induction evs as [|e evs IH]; intros st0 Hst0; cbn [fold_left]; [exact Hst0|].
    apply IH. destruct Hst0 as (r0 & Hr0 & Hb). rewrite record_eq.
    destruct (decide (event_peer e = p)) as [->|Hne].
    - rewrite lookup_insert_eq. eexists. split; [reflexivity|].
      apply isBlacklisted_rescored. rewrite isBlacklisted_applied.
      unfold getPeerReputation. rewrite Hr0. exact Hb.
    - rewrite lookup_insert_ne by exact Hne. eauto. }
  destruct (Hgen (blacklistPeer st p why now)) as (r & Hr & Hb).
  { unfold blacklistPeer, getPeerReputation.
    destruct (st !! p); rewrite lookup_insert_eq; eexists; split; reflexivity. }
  exists r. split; [exact Hr|]. split; [exact Hb|].
  intros minScore now'. unfold isPeerAcceptable, getPeerReputation.
  rewrite Hr, Hb. reflexivity.
Qed.

Lemma size_filter_split (cutoff : Z) (m : peers) :
  (size (filter (λ kv : string * reputation, stale cutoff kv.2 = true) m)
   + size (filter (λ kv : string * reputation, stale cutoff kv.2 = false) m)
   = size m)%nat.
Proof.
  induction m as [|i x m Hi IH] using map_ind.
  - rewrite !map_filter_empty, map_size_empty. reflexivity.
  - rewrite map_size_insert_None by exact Hi.
    destruct (stale cutoff x) eqn:Hs.
    + rewrite (map_filter_insert_True _ m i x) by exact Hs.
      rewrite (map_filter_insert_not' _ m i x);
        [|cbn; congruence|intros y Hy; congruence].
      rewrite map_size_insert_None by (apply map_lookup_filter_None_2; auto).
      lia.
    + rewrite (map_filter_insert_True (λ kv, stale cutoff kv.2 = false) m i x) by exact Hs.
      rewrite (map_filter_insert_not' (λ kv, stale cutoff kv.2 = true) m i x);
        [|cbn; congruence|intros y Hy; congruence].
      rewrite map_size_insert_None by (apply map_lookup_filter_None_2; auto).
      lia.
Qed.

(** X15.  [cleanup] deletes exactly the records that are at once older
    than the cut-off ([lastSeen < now - maxAge]) and without significant
    history (fewer than 5 connections and fewer than 5 challenges): every
    other record is kept unchanged, nothing is added, and the number it
    returns is the number of records deleted. *)
Theorem cleanup_removes_only_stale (st : peers) (maxAge now : Z) :
  (∀ p r, (cleanup st maxAge now).1 !! p = Some r ↔
          st !! p = Some r
          ∧ ¬ (lastSeen r < now - maxAge ∧ totalConnections r < 5
               ∧ totalChallenges r < 5)%Z)
  ∧ ((cleanup st maxAge now).2 + size (cleanup st maxAge now).1 = size st)%nat.
Proof.
  unfold cleanup. cbn [fst snd]. split; [|apply size_filter_split].
  intros p r. rewrite map_lookup_filter_Some. cbn [snd]. unfold stale.
  split; intros [Hp Hs]; (split; [exact Hp|]).
  - intros (H1 & H2 & H3).
    apply Z.ltb_lt in H1, H2, H3. rewrite H1, H2, H3 in Hs. discriminate.
  - destruct (Z.ltb_spec (lastSeen r) (now - maxAge)); [|reflexivity].
    destruct (Z.ltb_spec (totalConnections r) 5); [|reflexivity].
    destruct (Z.ltb_spec (totalChallenges r) 5); [|reflexivity].
    exfalso. apply Hs. auto.
Qed.

(** X16.  Merging an imported record into the current one keeps the
    tallies consistent when both are, never moves [lastSeen] backwards and
    never clears a blacklist flag set on either side; the derived fields
    (overall score, trust level, integrity score) are those of the current
    record: the merge does not recompute them. *)
Theorem merge_keeps_tallies (current : reputation) (incoming : raw_reputation) :
  tallies_ok current → incoming_tallies_ok incoming →
  tallies_ok (mergeReputationData current incoming)
  ∧ (lastSeen current ≤ lastSeen (mergeReputationData current incoming))%Z
  ∧ (isBlacklisted current = true ∨ raw_isBlacklisted incoming = Some true →
       isBlacklisted (mergeReputationData current incoming) = true)
  ∧ overallScore (mergeReputationData current incoming) = overallScore current
  ∧ trustLevel (mergeReputationData current incoming) = trustLevel current
  ∧ dataIntegrityScore (mergeReputationData current incoming)
    = dataIntegrityScore current.
Proof.
  intros [Hc [Hc1 Hc2] Hv [Hv1 Hv2] [Hf1 Hf2] Hw]
         (Ic & Ic1 & Ic2 & Iv & Iv1 & Iv2 & If1 & If2).
  split; [split; cbn; try assumption; lia|].
  split; [cbn; lia|].
  split; [|repeat split].
  intros [Hb|Hb]; cbn; rewrite Hb; [reflexivity|apply orb_true_r].
Qed.

Lemma merge_keeps_tallies_witness :
  ∃ r, record_all [ConnectionEvent "p" 0 true 10] !! "p"%string = Some r
     ∧ totalConnections
         (mergeReputationData r
            (Raw "p" None (Some 5%Z) (Some 3%Z) (Some 2%Z) (Some 1%Z) None
                 None None None None None None None None None None None
                 (Some true) (Some "abuse"%string) None None None)) = 4%Z
     ∧ tallies_ok
         (mergeReputationData r
            (Raw "p" None (Some 5%Z) (Some 3%Z) (Some 2%Z) (Some 1%Z) None
                 None None None None None None None None None None None
                 (Some true) (Some "abuse"%string) None None None)).
Proof.
  eexists. split; [vm_compute; reflexivity|].
  split; [vm_compute; reflexivity|].
  apply merge_keeps_tallies.
  - split; cbn; lia.
  - repeat split; cbn; lia.
Defined.

End ReputationFacts.

(** ** Crypto component *)

Module BackupCryptoFacts.
Import BackupCrypto.

Example to_hex_bytes : to_hex [Byte.x00; Byte.x1f; Byte.xff] = "001fff"%string.
Proof. reflexivity. Qed.

Example from_hex_mixed_case : from_hex "001Fff" = [Byte.x00; Byte.x1f; Byte.xff].
Proof. reflexivity. Qed.

Example from_hex_stops_at_bad_pair : from_hex "0a1g22" = [Byte.x0a].
Proof. reflexivity. Qed.

Lemma from_hex_byte (b : Byte.byte) (s : string) :
  from_hex (hex_of_byte b ++ s) = b :: from_hex s.
Proof. destruct b; reflexivity. Qed.

(** Decoding the hexadecimal form of a buffer gives the buffer back. *)
Lemma from_hex_to_hex (l : buffer) : from_hex (to_hex l) = l.
Proof.
  induction l as [|b l IH]; [reflexivity|].
  cbn [to_hex]. rewrite from_hex_byte, IH. reflexivity.
Qed.

Section WithPlatform.
Context {P : Platform}.

Lemma verifyPeerIdHash_valid_iff (sh : signed_hash) (now : Z) :
  valid (verifyPeerIdHash sh now) = true ↔
    sh_version sh = "1.0"%string
    ∧ older_than_an_hour (sh_timestamp sh) now = false
    ∧ crypto_sign_verify_detached (from_hex (sh_signature sh))
        (from_hex (sh_peerIdHash sh)) (from_hex (sh_publicKey sh)) = Ok true
    ∧ sh_peerIdHash sh
      = String.substring 0 16 (to_hex (sha256 (from_hex (sh_publicKey sh)))).
Proof.
  unfold verifyPeerIdHash.
  destruct (String.eqb_spec (sh_version sh) "1.0") as [Hv|Hv]; cbn [negb].
  2: { cbn. split; [discriminate|]. intros (? & _). contradiction. }
  destruct (older_than_an_hour (sh_timestamp sh) now) eqn:Ht.
  { cbn. split; [discriminate|]. intros (_ & ? & _). discriminate. }
  destruct (crypto_sign_verify_detached _ _ _) as [isValid|msg].
  2: { cbn. split; [discriminate|]. intros (_ & _ & ? & _). discriminate. }
  cbn [valid].
  destruct (String.eqb_spec
              (String.substring 0 16 (to_hex (sha256 (from_hex (sh_publicKey sh)))))
              (sh_peerIdHash sh)) as [Hh|Hh];
    destruct isValid; cbn; split; try discriminate;
    try (intros (_ & _ & Hs & Hm); congruence).
  intros _. repeat split; try assumption; try reflexivity. symmetry. exact Hh.
Qed.

(** An identity that carries a timestamp is accepted only within the hour
    after it. *)
Lemma dated_identity_expires (sh : signed_hash) (t now : Z) :
  sh_timestamp sh = Some t →
  valid (verifyPeerIdHash sh now) = true → now - t ≤ 3600000.
Proof.
  intros Ht Hv. apply verifyPeerIdHash_valid_iff in Hv as (_ & Hage & _).
  rewrite Ht in Hage. cbn in Hage. apply Z.ltb_ge in Hage. exact Hage.
Qed.

(** C8 (the code on an identity without a timestamp).  The test of the
    age is [Date.now() - timestamp > 3600000]; on an identity whose
    [timestamp] field is missing the difference is NaN and the test is
    false.  Such an identity, of the supported version, whose signature
    over the hash verifies against the bundled key and whose hash is that
    of the bundled key, is accepted at every time, however long after it
    was signed. *)
Theorem undated_identity_is_accepted (sh : signed_hash) (now : Z) :
  sh_version sh = "1.0"%string →
  sh_timestamp sh = None →
  crypto_sign_verify_detached (from_hex (sh_signature sh))
    (from_hex (sh_peerIdHash sh)) (from_hex (sh_publicKey sh)) = Ok true →
  sh_peerIdHash sh
  = String.substring 0 16 (to_hex (sha256 (from_hex (sh_publicKey sh)))) →
  valid (verifyPeerIdHash sh now) = true
  ∧ v_peerIdHash (verifyPeerIdHash sh now) = Some (sh_peerIdHash sh).
Proof.
  intros Hver Hts Hsig Hhash.
  assert (Hv : valid (verifyPeerIdHash sh now) = true).
  { apply verifyPeerIdHash_valid_iff. rewrite Hts. auto. }
  split; [exact Hv|].
  unfold verifyPeerIdHash in *. rewrite Hts in *. cbn [older_than_an_hour] in *.
  destruct (negb _); [discriminate|]. rewrite Hsig. reflexivity.
Qed.

End WithPlatform.

(** The identity of the small platform with its timestamp removed,
    presented at a clock reading of 2000000000000. *)
Lemma undated_identity_is_accepted_witness :
  valid (verifyPeerIdHash (P:=demo_platform) (Demo.demo_signed_hash None)
           2000000000000) = true
  ∧ valid (verifyPeerIdHash (P:=demo_platform) (Demo.demo_signed_hash (Some 1000))
             2000000000000) = false.
Proof.
  split; [|vm_compute; reflexivity].
  apply (undated_identity_is_accepted (P:=demo_platform)
           (Demo.demo_signed_hash None) 2000000000000);
    vm_compute; reflexivity.
Defined.

(** ** Identities, session proofs and the channel between two peers *)

Section WithPlatformExt.
Context {P : Platform} {E : PlatformExt}.

(** C9 (the code with the binding it loads).  [generateSharedSecret],
    [encrypt] and [decrypt] go through [crypto_box_beforenm],
    [crypto_box_easy_afternm] and [crypto_box_open_easy_afternm], which
    sodium-native does not have.  With it, deriving a secret throws for
    every key and caches nothing, [encrypt] throws for every plaintext
    (at the call of the missing function when a secret is cached, for
    want of a secret otherwise), and so does [decrypt] for every buffer:
    no plaintext is ever encrypted, and none comes back. *)
Theorem encrypt_throws_on_sodium_native {S : SodiumNative P E}
    (c : backup_crypto) (peer : string) :
  (∀ peerPublicKey, ∃ msg, generateSharedSecret c peerPublicKey peer = Throw msg)
  ∧ (∀ p nonce, ∃ msg, encrypt c p peer nonce = Throw msg)
  ∧ (∀ secret p nonce, sharedSecrets c !! peer = Some secret →
       encrypt c p peer nonce
       = Throw "sodium.crypto_box_easy_afternm is not a function")
  ∧ (∀ ct, ∃ msg, decrypt c ct peer = Throw msg).
Proof.
  split; [|split; [|split]].
  - intros pk. unfold generateSharedSecret.
    destruct (keyPair c); [|eexists; reflexivity].
    rewrite no_BEFORENMBYTES. eexists; reflexivity.
  - intros p nonce. unfold encrypt.
    destruct (sharedSecrets c !! peer); [|eexists; reflexivity].
    rewrite no_easy_afternm. eexists; reflexivity.
  - intros secret p nonce Hs. unfold encrypt. rewrite Hs, no_easy_afternm.
    reflexivity.
  - intros ct. unfold decrypt.
    destruct (sharedSecrets c !! peer); [|eexists; reflexivity].
    destruct (_ <? _)%nat; [eexists; reflexivity|].
    rewrite no_open_easy_afternm. eexists; reflexivity.
Qed.

(** X17.  Identity round trip.  With signing keys whose signatures verify,
    [createPeerIdentity] succeeds, the identity it returns carries the
    peer-id-hash of the component, and [verifyPeerIdHash] accepts it at
    every time up to one hour after its creation and rejects it as
    expired afterwards. *)
Theorem created_identity_verifies (c : backup_crypto) (kp : key_pair) (now : Z) :
  signingKeyPair c = Some kp →
  (∀ m, crypto_sign_verify_detached
          (crypto_sign_detached m (kp_privateKey kp)) m (kp_publicKey kp)
        = Ok true) →
  ∃ id, createPeerIdentity c now = Ok id
      ∧ getMyPeerIdHash c = Ok (sh_peerIdHash (pi_signed id))
      ∧ (∀ now', now' - now ≤ 3600000 →
           valid (verifyPeerIdHash (pi_signed id) now') = true
           ∧ v_peerIdHash (verifyPeerIdHash (pi_signed id) now')
             = Some (sh_peerIdHash (pi_signed id)))
      ∧ (∀ now', 3600000 < now' - now →
           verifyPeerIdHash (pi_signed id) now' = rejected "Signature expired").
Proof.
  intros Hk Hsig. unfold createPeerIdentity, getMyPeerIdHash, signPeerIdHash,
    generatePeerIdHash. rewrite Hk. eexists. split; [reflexivity|].
  cbn [pi_signed sh_peerIdHash]. split; [reflexivity|]. split.
  - intros now' Hage.
    assert (Hv : valid (verifyPeerIdHash
                   {| sh_peerIdHash := String.substring 0 16 (to_hex (sha256 (kp_publicKey kp)));
                      sh_signature := to_hex (crypto_sign_detached
                         (from_hex (String.substring 0 16 (to_hex (sha256 (kp_publicKey kp)))))
                         (kp_privateKey kp));
                      sh_publicKey := to_hex (kp_publicKey kp);
                      sh_timestamp := Some now; sh_version := "1.0" |} now') = true).
    { apply verifyPeerIdHash_valid_iff. cbn.
      rewrite !from_hex_to_hex. repeat split; [apply Z.ltb_ge; lia|apply Hsig]. }
    split; [exact Hv|].
    unfold verifyPeerIdHash in *. cbn in *.
    destruct (3600000 <? now' - now); [discriminate|].
    destruct (crypto_sign_verify_detached _ _ _); [reflexivity|discriminate].
  - intros now' Hold. unfold verifyPeerIdHash. cbn.
    destruct (Z.ltb_spec 3600000 (now' - now)); [reflexivity|lia].
Qed.

(** X18.  Session-proof round trip.  A proof generated with signing keys
    whose signatures verify is accepted by [verifySessionProof] under the
    public key of those keys and the same ICE candidate (a missing
    candidate and the placeholder 'no-ice' are the same) at every time
    within five minutes of the proof's timestamp, before or after, and
    rejected as too old outside that window. *)
Theorem generated_session_proof_verifies (c : backup_crypto) (kp : key_pair)
    (sessionData : session_data) (expectedIce : option string) :
  signingKeyPair c = Some kp →
  (∀ m, crypto_sign_verify_detached
          (crypto_sign_detached m (kp_privateKey kp)) m (kp_publicKey kp)
        = Ok true) →
  ice_or_default expectedIce = ice_or_default (sd_iceCandidate sessionData) →
  ∃ sp, generateSessionProof c sessionData = Ok sp
      ∧ (∀ now, Z.abs (now - sd_timestamp sessionData) ≤ 300000 →
           sv_valid (verifySessionProof sp (kp_publicKey kp) expectedIce now) = true)
      ∧ (∀ now, 300000 < Z.abs (now - sd_timestamp sessionData) →
           verifySessionProof sp (kp_publicKey kp) expectedIce now
           = session_rejected "Session proof timestamp too old").
Proof.
  intros Hk Hsig Hice. unfold generateSessionProof. rewrite Hk.
  eexists. split; [reflexivity|]. split.
  - intros now Hnow. unfold verifySessionProof. cbn.
    destruct (Z.ltb_spec 300000 (Z.abs (now - sd_timestamp sessionData))); [lia|].
    rewrite Hice, String.eqb_refl. cbn.
    rewrite !from_hex_to_hex, Hsig. reflexivity.
  - intros now Hnow. unfold verifySessionProof. cbn.
    destruct (Z.ltb_spec 300000 (Z.abs (now - sd_timestamp sessionData))); [|lia].
    reflexivity.
Qed.

(** X20.  Refusals of the channel encryption.  For a peer with a cached
    secret [decrypt] refuses any buffer shorter than 40 bytes (24-byte
    nonce and 16-byte tag) before it tries to open it; for a peer without
    a cached secret [encrypt] and [decrypt] both throw, naming the peer. *)
Theorem channel_refusals (c : backup_crypto) (peer : string) :
  (∀ secret short, sharedSecrets c !! peer = Some secret →
     (length short < 40)%nat →
     decrypt c short peer = Throw "Invalid encrypted data length")
  ∧ (sharedSecrets c !! peer = None →
     (∀ data nonce, encrypt c data peer nonce
                    = Throw ("No shared secret for peer: " ++ peer))
     ∧ ∀ x, decrypt c x peer = Throw ("No shared secret for peer: " ++ peer)).
Proof.
  split.
  - intros secret short Hs Hshort. unfold decrypt. rewrite Hs.
    destruct (Nat.ltb_spec (length short)
                (crypto_box_NONCEBYTES + crypto_box_MACBYTES)) as [_|Hge];
      [reflexivity|].
    unfold crypto_box_NONCEBYTES, crypto_box_MACBYTES in Hge. lia.
  - intros Hs. unfold encrypt, decrypt. rewrite Hs. split; reflexivity.
Qed.

End WithPlatformExt.

(** The small instance with the exports of sodium-native is one. *)
Lemma sodium_native_exports : SodiumNative sodium_native_platform sodium_native_ext.
Proof. split; reflexivity. Qed.

(** Two bytes for a peer whose secret is cached, with the exports of
    sodium-native. *)
Lemma encrypt_throws_on_sodium_native_witness :
  encrypt (P:=sodium_native_platform) Demo.demo_crypto [Byte.x68; Byte.x69]
    "peerA" (replicate 24 Byte.x07)
  = Throw "sodium.crypto_box_easy_afternm is not a function".
Proof.
  apply (proj1 (proj2 (proj2
    (encrypt_throws_on_sodium_native (S:=sodium_native_exports)
       Demo.demo_crypto "peerA"))) [Byte.x01; Byte.x02]).
  vm_compute. reflexivity.
Defined.

(** An identity created on the small platform verifies a second later. *)
Lemma created_identity_verifies_witness :
  ∃ id, createPeerIdentity (P:=demo_platform) (E:=demo_platform_ext)
          (Demo.demo_keyed_crypto Byte.x33) 5000 = Ok id
      ∧ valid (verifyPeerIdHash (P:=demo_platform) (pi_signed id) 6000) = true.
Proof.
  destruct (created_identity_verifies (P:=demo_platform) (E:=demo_platform_ext)
              (Demo.demo_keyed_crypto Byte.x33)
              (KeyPair (replicate 32 Byte.x33) (replicate 64 Byte.x44)) 5000)
    as (id & Hc & _ & Hin & _); [reflexivity|intros m; reflexivity|].
  exists id. split; [exact Hc|]. apply Hin. lia.
Defined.

(** A session proof generated on the small platform verifies four minutes
    later, against a missing ICE candidate as against the placeholder. *)
Lemma generated_session_proof_verifies_witness :
  ∃ sp, generateSessionProof (P:=demo_platform) (E:=demo_platform_ext)
          (Demo.demo_keyed_crypto Byte.x33)
          {| sd_iceCandidate := None; sd_timestamp := 5000; sd_nonce := "n1" |}
        = Ok sp
      ∧ sv_valid (verifySessionProof (P:=demo_platform) (E:=demo_platform_ext) sp
                    (replicate 32 Byte.x33) (Some "no-ice"%string) 245000) = true.
Proof.
  destruct (generated_session_proof_verifies (P:=demo_platform) (E:=demo_platform_ext)
              (Demo.demo_keyed_crypto Byte.x33)
              (KeyPair (replicate 32 Byte.x33) (replicate 64 Byte.x44))
              {| sd_iceCandidate := None; sd_timestamp := 5000; sd_nonce := "n1" |}
              (Some "no-ice"%string))
    as (sp & Hg & Hin & _); [reflexivity|intros m; reflexivity|reflexivity|].
  exists sp. split; [exact Hg|]. apply Hin. cbn. lia.
Defined.

End BackupCryptoFacts.

(** ** Verification protocol *)

Module StorageVerificationFacts.
Import StorageVerification.

Section WithPlatform.
Context {P : Platform}.

(** The [try] block falls through exactly when the signature object is
    present and well-sized, verifies over the canonical subset, and names
    the public key of the commitment. *)
Lemma verifySignature_passes_iff (c : commitment) :
  verifySignature c = None ↔
    ∃ s, signature c = Some s
      ∧ length (from_hex (cs_publicKey s)) = crypto_sign_PUBLICKEYBYTES
      ∧ length (from_hex (cs_signature s)) = crypto_sign_BYTES
      ∧ crypto_sign_verify_detached (from_hex (cs_signature s))
          (from_utf8 (stringify_commitment (peerId c) (storageOffered c)
                        (timestamp c) (expiresAt c)))
          (from_hex (cs_publicKey s)) = Ok true
      ∧ cs_publicKey s = publicKey c.
Proof.
  unfold verifySignature. destruct (signature c) as [s|].
  2: { split; [discriminate|]. intros (s & Hs & _). discriminate. }
  destruct (Nat.eqb_spec (length (from_hex (cs_publicKey s))) crypto_sign_PUBLICKEYBYTES)
    as [Hk|Hk]; cbn [negb].
  2: { split; [discriminate|]. intros (s' & [= <-] & ? & _). contradiction. }
  destruct (Nat.eqb_spec (length (from_hex (cs_signature s))) crypto_sign_BYTES)
    as [Hl|Hl]; cbn [negb].
  2: { split; [discriminate|]. intros (s' & [= <-] & _ & ? & _). contradiction. }
  destruct (crypto_sign_verify_detached _ _ _) as [[|]|msg] eqn:Hv; cbn [negb].
  - destruct (String.eqb_spec (cs_publicKey s) (publicKey c)) as [He|He]; cbn [negb].
    + split; [|reflexivity]. intros _. exists s. repeat split; assumption.
    + split; [discriminate|]. intros (s' & [= <-] & _ & _ & _ & ?). contradiction.
  - split; [discriminate|]. intros (s' & [= <-] & _ & _ & Hv' & _). congruence.
  - split; [discriminate|]. intros (s' & [= <-] & _ & _ & Hv' & _). congruence.
Qed.

Lemma verifyCommitment_valid_iff (c : commitment) (now : Z) :
  valid (verifyCommitment c now) = true ↔
    verifySignature c = None
    ∧ field_below (expiresAt c) now = false
    ∧ field_below (storageOffered c) MiB = false
    ∧ below_field TiB (storageOffered c) = false.
Proof.
  unfold verifyCommitment. destruct (verifySignature c) as [r|] eqn:Hs.
  - split; [|intros (? & _); discriminate].
    intros Hv. exfalso. unfold verifySignature in Hs.
    repeat (match type of Hs with
            | match ?x with _ => _ end = _ => destruct x
            | (if ?x then _ else _) = _ => destruct x
            end; try discriminate);
      injection Hs as <-; discriminate.
  - destruct (field_below (expiresAt c) now);
      [cbn; split; [discriminate|intros (_ & ? & _); discriminate]|].
    destruct (field_below (storageOffered c) MiB);
      [cbn; split; [discriminate|intros (_ & _ & ? & _); discriminate]|].
    destruct (below_field TiB (storageOffered c));
      [cbn; split; [discriminate|intros (_ & _ & _ & ?); discriminate]|].
    cbn. split; [intros _; repeat split|reflexivity].
Qed.

(** A commitment whose expiry and offer are numbers is accepted only
    when it is not expired and the offer lies within 1 MiB and 1 TiB. *)
Lemma numeric_commitment_accepted_only_if (c : commitment) (e o now : Z) :
  expiresAt c = Some e → storageOffered c = Some o →
  valid (verifyCommitment c now) = true →
  now ≤ e ∧ 1048576 ≤ o ∧ o ≤ 1099511627776.
Proof.
  intros He Ho Hv. apply verifyCommitment_valid_iff in Hv as (_ & H1 & H2 & H3).
  rewrite He in H1. rewrite Ho in H2, H3. cbn in H1, H2, H3.
  unfold MiB, TiB in *. lia.
Qed.

(** C7 (the code on a commitment with a field missing).  The tests of the
    expiry and of the two bounds are comparisons with the fields of the
    commitment; when a field is missing they compare with [undefined] and
    are false.  A commitment whose signature block passes and that
    carries no [expiresAt] is accepted at every time; when it carries no
    [storageOffered] either, it is accepted without any bound on the
    offer. *)
Theorem commitment_without_expiry_is_accepted (c : commitment) (now : Z) :
  verifySignature c = None →
  expiresAt c = None →
  (∀ o, storageOffered c = Some o → 1048576 ≤ o ∧ o ≤ 1099511627776) →
  verifyCommitment c now = Valid.
Proof.
  intros Hs He Ho. unfold verifyCommitment. rewrite Hs, He. cbn [field_below].
  destruct (storageOffered c) as [o|]; [|reflexivity].
  destruct (Ho o eq_refl) as [Hlo Hhi]. cbn [field_below below_field].
  unfold MiB, TiB.
  destruct (Z.ltb_spec o (1024 * 1024)); [lia|].
  destruct (Z.ltb_spec (1024 * 1024 * 1024 * 1024) o); [lia|]. reflexivity.
Qed.

(** C2, amended.  The verifier accepts a random-blocks (file-hash) proof
    exactly when the proof carries no error and returns as many blocks
    (files) as indices were challenged, and accepts a metadata proof
    exactly when the proof carries no error, a non-empty metadata hash and
    the nonce of the challenge echoed back; it never consults the local
    backup metadata. *)
Theorem verifyProof_accepts_iff (c : challenge) (p : proof) :
  verifyProof c p = true ↔
    truthy (pr_error p) = false
    ∧ match ch_kind c with
      | random_blocks blockIndices =>
          ∃ blocks, pr_blocks p = Some blocks
                    ∧ length blocks = length blockIndices
      | file_hash fileIndices =>
          ∃ files, pr_files p = Some files
                   ∧ length files = length fileIndices
      | metadata_proof nonce =>
          truthy (pr_metadataHash p) = true ∧ pr_nonce p = Some nonce
      | unknown_kind _ => False
      end.
Proof.
  unfold verifyProof. destruct (truthy (pr_error p)).
  { split; [discriminate|]. intros [? _]. discriminate. }
  destruct (ch_kind c) as [idx|idx|nonce|ty].
  - destruct (pr_blocks p) as [blocks|].
    + rewrite Nat.eqb_eq. split.
      * intros H. split; [reflexivity|]. exists blocks. auto.
      * intros [_ (b & [= <-] & H)]. exact H.
    + split; [discriminate|]. intros [_ (b & ? & _)]. discriminate.
  - destruct (pr_files p) as [files|].
    + rewrite Nat.eqb_eq. split.
      * intros H. split; [reflexivity|]. exists files. auto.
      * intros [_ (b & [= <-] & H)]. exact H.
    + split; [discriminate|]. intros [_ (b & ? & _)]. discriminate.
  - rewrite andb_true_iff. destruct (pr_nonce p) as [n|].
    + rewrite String.eqb_eq. split.
      * intros [Hh ->]. auto.
      * intros [_ [Hh [= ->]]]. auto.
    + split; [intros [_ ?]; discriminate|]. intros [_ [_ ?]]. discriminate.
  - split; [discriminate|]. intros [_ []].
Qed.

End WithPlatform.

(** C2, as stated, fails.  Two blocks are challenged; the custodian answers
    with hashes that are not those of the local metadata, and the verifier
    accepts; it also accepts a metadata proof whose hash is not the one
    recomputed with the echoed nonce. *)
Lemma verifyProof_accepts_mismatching_proof :
  let blocks := {| pr_error := None; pr_backupId := Some "backup-1"%string;
                   pr_blocks := Some [ProofEntry 0 "ffff" 10; ProofEntry 1 "eeee" 20];
                   pr_files := None; pr_metadataHash := None; pr_nonce := None |} in
  let meta := {| pr_error := None; pr_backupId := Some "backup-1"%string;
                 pr_blocks := None; pr_files := None;
                 pr_metadataHash := Some "deadbeef"%string;
                 pr_nonce := Some "n0"%string |} in
  verifyProof (Demo.demo_challenge (random_blocks [0; 1]%nat)) blocks = true
  ∧ spec_proof_matches (P:=demo_platform) Demo.demo_backup
      (Demo.demo_challenge (random_blocks [0; 1]%nat)) blocks = false
  ∧ verifyProof (Demo.demo_challenge (metadata_proof "n0")) meta = true
  ∧ spec_proof_matches (P:=demo_platform) Demo.demo_backup
      (Demo.demo_challenge (metadata_proof "n0")) meta = false.
Proof. vm_compute. repeat split; reflexivity. Qed.

(** Commitments of the small platform made at 1000, presented at a clock
    reading of 2000000000000: one offering 2 MiB without an expiry, one
    without expiry and offer, and one that expired at 9000. *)
Lemma commitment_without_expiry_is_accepted_witness :
  verifyCommitment (P:=demo_platform)
    (Demo.demo_commitment (Some 2097152) None) 2000000000000 = Valid
  ∧ verifyCommitment (P:=demo_platform)
      (Demo.demo_commitment None None) 2000000000000 = Valid
  ∧ verifyCommitment (P:=demo_platform)
      (Demo.demo_commitment (Some 2097152) (Some 9000)) 2000000000000
    = Invalid "Commitment expired".
Proof.
  split; [|split; [|vm_compute; reflexivity]].
  - apply (commitment_without_expiry_is_accepted (P:=demo_platform)
             (Demo.demo_commitment (Some 2097152) None) 2000000000000);
      [vm_compute; reflexivity|reflexivity|].
    intros o [= <-]. lia.
  - apply (commitment_without_expiry_is_accepted (P:=demo_platform)
             (Demo.demo_commitment None None) 2000000000000);
      [vm_compute; reflexivity|reflexivity|].
    intros o [=].
Defined.

(** ** The custodian's proofs and the accounting *)

Section Custodian.
Context {P : Platform}.

Lemma block_entries_length (files : list file_meta) (idx : list nat) :
  (length (block_entries files idx) ≤ length idx)%nat
  ∧ (length (block_entries files idx) = length idx ↔
     Forall (λ i, (i < length files)%nat) idx).
Proof.
  induction idx as [|i idx [IHle IH]]; cbn.
  - split; [lia|]. split; [constructor|reflexivity].
  - destruct (files !! i) as [f|] eqn:Hf; cbn.
    + apply lookup_lt_Some in Hf. split; [lia|]. split.
      * intros H. constructor; [exact Hf|]. apply IH. lia.
      * intros H. inversion H; subst. f_equal. apply IH. assumption.
    + apply lookup_ge_None in Hf. split; [lia|]. split.
      * intros H. lia.
      * intros H. inversion H; subst. lia.
Qed.

Lemma block_entries_match (local : backup) (asked idx : list nat) :
  (∀ i, i ∈ idx → i ∈ asked) →
  forallb (entry_matches local asked) (block_entries (b_files local) idx) = true.
Proof.
  intros Hsub. induction idx as [|i idx IH]; [reflexivity|].
  cbn. destruct (b_files local !! i) as [f|] eqn:Hf.
  - cbn. rewrite IH by (intros j Hj; apply Hsub; right; exact Hj).
    rewrite andb_true_r. unfold entry_matches. cbn. rewrite Hf, String.eqb_refl.
    rewrite andb_true_r. apply existsb_exists. exists i. split.
    + apply list_elem_of_In. apply Hsub. left.
    + apply Nat.eqb_refl.
  - apply IH. intros j Hj. apply Hsub. right. exact Hj.
Qed.

(** X21.  An honest custodian and a random-blocks challenge.  The proof
    that [generateBlockProof] builds from the backup is accepted by
    [verifyProof] exactly when every challenged index is below the number
    of files of the backup: an index at or beyond it gets no entry, and
    the count no longer matches.  When it is accepted its entries are
    those of the backup's metadata at the challenged indices. *)
Theorem honest_block_proof_accepted_iff (b : backup) (c : challenge)
    (blockIndices : list nat) :
  ch_kind c = random_blocks blockIndices →
  (verifyProof c (gp_proof (generateBlockProof b blockIndices)) = true ↔
     Forall (λ i, (i < length (b_files b))%nat) blockIndices)
  ∧ spec_proof_matches b c (gp_proof (generateBlockProof b blockIndices)) = true.
Proof.
  intros Hk. split.
  - unfold verifyProof. rewrite Hk. cbn. rewrite Nat.eqb_eq.
    apply block_entries_length.
  - unfold spec_proof_matches. rewrite Hk. cbn.
    apply block_entries_match. auto.
Qed.

Lemma to_hex_nonempty (l : buffer) : l ≠ [] → to_hex l ≠ ""%string.
Proof. destruct l as [|x l]; [congruence|]. intros _. cbn. discriminate. Qed.

(** X22.  An honest custodian and a metadata challenge.  The proof that
    [generateMetadataProof] builds with the nonce of the challenge is
    accepted by [verifyProof], and its hash is the one recomputed from the
    same backup with the echoed nonce (SHA-256 digests being non-empty). *)
Theorem honest_metadata_proof_accepted (b : backup) (c : challenge) (nonce : string) :
  (∀ x, sha256 x ≠ []) →
  ch_kind c = metadata_proof nonce →
  verifyProof c (gp_proof (generateMetadataProof b nonce)) = true
  ∧ spec_proof_matches b c (gp_proof (generateMetadataProof b nonce)) = true.
Proof.
  intros Hsha Hk. split.
  - unfold verifyProof. rewrite Hk. cbn. rewrite String.eqb_refl, andb_true_r.
    destruct (String.eqb_spec (metadata_hash b nonce) "") as [He|_]; [|reflexivity].
    exfalso. revert He. apply to_hex_nonempty, Hsha.
  - unfold spec_proof_matches. rewrite Hk. cbn. apply String.eqb_refl.
Qed.

End Custodian.

(** The two-file backup, challenged on indices 1 and 0. *)
Lemma honest_block_proof_accepted_iff_witness :
  let c := Demo.demo_challenge (random_blocks [1; 0]%nat) in
  let p := gp_proof (generateBlockProof Demo.demo_backup [1; 0]%nat) in
  ch_kind c = random_blocks [1; 0]%nat
  ∧ (verifyProof c p = true ↔
       Forall (λ i, (i < length (b_files Demo.demo_backup))%nat) [1; 0]%nat)
  ∧ spec_proof_matches (P:=demo_platform) Demo.demo_backup c p = true.
Proof.
  split; [reflexivity|].
  exact (honest_block_proof_accepted_iff (P:=demo_platform) Demo.demo_backup
           (Demo.demo_challenge (random_blocks [1; 0]%nat)) [1; 0]%nat eq_refl).
Defined.

Lemma honest_metadata_proof_accepted_witness :
  verifyProof (Demo.demo_challenge (metadata_proof "n0"))
    (gp_proof (generateMetadataProof (P:=demo_platform) Demo.demo_backup "n0")) = true.
Proof.
  apply (honest_metadata_proof_accepted (P:=demo_platform) Demo.demo_backup
           (Demo.demo_challenge (metadata_proof "n0")) "n0").
  - intros x. cbn. destruct x as [|y x]; discriminate.
  - reflexivity.
Defined.

Lemma last_drop_lt {A} (n : nat) (l : list A) :
  (n < length l)%nat → last (drop n l) = last l.
Proof.
  revert l. induction n as [|n IH]; intros l Hn; [reflexivity|].
  destruct l as [|x l]; [cbn in Hn; lia|]. cbn [drop].
  rewrite IH by (cbn in Hn; lia).
  destruct l as [|y l]; [cbn in Hn; lia|]. reflexivity.
Qed.

(** X23.  Every challenge is accounted at most once.  A reply for a
    challenge that is not active changes nothing and emits nothing.  A
    reply with a proof for an active challenge emits exactly one result,
    successful exactly when [verifyProof] accepts the proof, with the
    response time measured from the sending, and removes the challenge
    from the active ones: a second reply, or the timeout, for the same
    challenge then changes nothing.  A reply without a proof (the reply a
    custodian sends when it fails to build one) makes the handler throw
    after it marked the challenge as completed: no result is recorded,
    the challenge stays active, and its timeout no longer records a
    failure either. *)
Theorem challenge_accounted_at_most_once (st : accounting) (i : string) (now : Z) :
  (∀ p, activeVerifications st !! i = None → handleProof st i p now = (st, Ok []))
  ∧ (∀ v p, activeVerifications st !! i = Some v →
       let after := handleProof st i (Some p) now in
       ∃ r, after.2 = Ok [r]
          ∧ vr_success r = verifyProof (vf_challenge v) p
          ∧ vr_peerId r = vf_peerId v
          ∧ vr_responseTime r = Some (now - vf_startTime v)
          ∧ (∃ h, challengeHistory after.1 !! vf_peerId v = Some h
                  ∧ last h = Some r)
          ∧ (∀ p' now', handleProof after.1 i p' now' = (after.1, Ok []))
          ∧ (∀ now', challengeTimeout after.1 i now' = (after.1, [])))
  ∧ (∀ v, activeVerifications st !! i = Some v →
       let after := handleProof st i None now in
       (∃ msg, after.2 = Throw msg)
       ∧ challengeHistory after.1 = challengeHistory st
       ∧ (∃ v', activeVerifications after.1 !! i = Some v'
                ∧ vf_status v' = "completed"%string)
       ∧ (∀ now', challengeTimeout after.1 i now' = (after.1, []))).
Proof.
  split; [|split].
  - intros p Hi. unfold handleProof. rewrite Hi. reflexivity.
  - intros v p Hv. cbn zeta. unfold handleProof, handleVerificationResult.
    rewrite Hv. cbn [set_verification activeVerifications challengeHistory].
    rewrite lookup_insert_eq. cbn [fst snd]. eexists. split; [reflexivity|].
    cbn [vr_success vr_peerId vr_responseTime vf_peerId vf_responseTime answered
         activeVerifications challengeHistory].
    split; [destruct (verifyProof (vf_challenge v) p); reflexivity|].
    split; [reflexivity|]. split; [reflexivity|]. split; [|split].
    + rewrite lookup_insert_eq. eexists. split; [reflexivity|].
      unfold keep_last_100.
      destruct (100 <? length _)%nat eqn:Hlen.
      * rewrite last_drop_lt; [apply last_snoc|].
        rewrite length_app. cbn. lia.
      * apply last_snoc.
    + intros p' now'. rewrite lookup_delete_eq. reflexivity.
    + intros now'. unfold challengeTimeout. cbn [activeVerifications].
      rewrite lookup_delete_eq. reflexivity.
  - intros v Hv. cbn zeta. unfold handleProof. rewrite Hv. cbn [fst snd].
    split; [eexists; reflexivity|]. split; [reflexivity|]. split.
    + eexists. split; [apply lookup_insert_eq|reflexivity].
    + intros now'. unfold challengeTimeout.
      cbn [set_verification activeVerifications]. rewrite lookup_insert_eq.
      reflexivity.
Qed.

Lemma keep_last_100_length {A} (l : list A) : (length (keep_last_100 l) ≤ 100)%nat.
Proof.
  unfold keep_last_100. destruct (Nat.ltb_spec 100 (length l)).
  - rewrite length_drop. lia.
  - lia.
Qed.

Lemma histories_capped_result st i err now :
  histories_capped st → histories_capped (handleVerificationResult st i err now).1.
Proof.
  intros Hc. unfold handleVerificationResult.
  destruct (activeVerifications st !! i) as [v|]; [|exact Hc].
  unfold histories_capped. cbn.
  apply map_Forall_insert_2; [apply keep_last_100_length|exact Hc].
Qed.

Lemma histories_capped_account (calls : list accounting_call) :
  ∀ st, histories_capped st → histories_capped (fold_left account calls st).
Proof.
  induction calls as [|call calls IH]; intros st Hst; cbn [fold_left];
    [exact Hst|].
  apply IH. destruct call as [c peer now|i p now|i now]; cbn [account].
  - exact Hst.
  - unfold handleProof. destruct (activeVerifications st !! i) as [v|]; [|exact Hst].
    destruct p as [p|]; [|exact Hst].
    pose proof (histories_capped_result
                  (set_verification st i (answered v (now - vf_startTime v))) i
                  (if verifyProof (vf_challenge v) p then None
                   else Some "Invalid proof"%string) now Hst) as Hr.
    destruct (handleVerificationResult _ _ _ _) as [st2 results]. exact Hr.
  - unfold challengeTimeout. destruct (activeVerifications st !! i) as [v|];
      [|exact Hst].
    destruct (String.eqb (vf_status v) "pending"); [|exact Hst].
    apply (histories_capped_result
             (set_verification st i (with_vf_status v "timeout"))), Hst.
Qed.

(** X24.  The history of every peer holds at most 100 results, whatever
    sequence of challenges sent, proofs received and timeouts is
    accounted, starting with no history. *)
Theorem histories_hold_at_most_100 (calls : list accounting_call) :
  histories_capped
    (fold_left account calls
       {| activeVerifications := ∅; challengeHistory := ∅ |}).
Proof. apply histories_capped_account, map_Forall_empty. Qed.

Lemma filter_length_bound {A} (f : A → bool) (l : list A) :
  (length (List.filter f l) ≤ length l)%nat.
Proof.
  induction l as [|x l IH]; cbn; [lia|]. destruct (f x); cbn; lia.
Qed.

Lemma success_ratio_in_unit (s t : nat) :
  (s ≤ t)%nat → (0 < t)%nat →
  (0 <= inject_Z (Z.of_nat s) / inject_Z (Z.of_nat t) <= 1)%Q
  ∧ ((inject_Z (Z.of_nat s) / inject_Z (Z.of_nat t) == 1)%Q ↔ s = t).
Proof.
  intros Hst Ht.
  assert (Hpos : (0 < inject_Z (Z.of_nat t))%Q).
  { change 0%Q with (inject_Z 0). rewrite <- Zlt_Qlt. lia. }
  assert (Hne : ¬ (inject_Z (Z.of_nat t) == 0)%Q).
  { intros H0. rewrite H0 in Hpos. exact (Qlt_irrefl 0 Hpos). }
  split; [split|split].
  - apply Qle_shift_div_l; [exact Hpos|]. rewrite Qmult_0_l.
    change 0%Q with (inject_Z 0). rewrite <- Zle_Qle. lia.
  - apply Qle_shift_div_r; [exact Hpos|]. rewrite Qmult_1_l.
    rewrite <- Zle_Qle. lia.
  - intros H1. apply Nat2Z.inj, inject_Z_injective.
    apply Qeq_trans with
      (inject_Z (Z.of_nat t) * (inject_Z (Z.of_nat s) / inject_Z (Z.of_nat t)))%Q.
    + apply Qeq_sym, Qmult_div_r, Hne.
    + apply Qeq_trans with (inject_Z (Z.of_nat t) * 1)%Q; [|apply Qmult_1_r].
      apply Qmult_comp; [apply Qeq_refl|exact H1].
  - intros ->. unfold Qdiv. apply Qmult_inv_r, Hne.
Qed.

(** X29.  The statistics of a peer, after whatever was accounted: at most
    100 challenges are counted, the successful ones are among them, the
    success rate lies between 0 and 1, and it is 1 exactly when there is a
    recent challenge and every recent challenge succeeded. *)
Theorem peer_stats_bounds (calls : list accounting_call) (peer : string) (now : Z) :
  let s := getPeerStats
             (fold_left account calls
                {| activeVerifications := ∅; challengeHistory := ∅ |}) peer now in
  (ps_successfulChallenges s ≤ ps_totalChallenges s
   ∧ ps_totalChallenges s ≤ 100)%nat
  ∧ (0 <= ps_successRate s <= 1)%Q
  ∧ ((ps_successRate s == 1)%Q ↔
     (0 < ps_totalChallenges s)%nat
     ∧ ps_successfulChallenges s = ps_totalChallenges s).
Proof.
  cbn zeta.
  pose proof (histories_capped_account calls
                {| activeVerifications := ∅; challengeHistory := ∅ |}
                (map_Forall_empty _)) as Hcap.
  unfold getPeerStats. cbn [ps_successfulChallenges ps_totalChallenges ps_successRate].
  set (history := match challengeHistory _ !! peer with Some h => h | None => [] end).
  assert (Hlen : (length history ≤ 100)%nat).
  { subst history. destruct (challengeHistory _ !! peer) as [h|] eqn:Hh;
      [exact (Hcap _ _ Hh)|cbn; lia]. }
  set (recent := recentResults now history).
  assert (Hrecent : (length recent ≤ length history)%nat)
    by apply filter_length_bound.
  assert (Hsucc : (length (List.filter vr_success recent) ≤ length recent)%nat)
    by apply filter_length_bound.
  split; [split; lia|].
  destruct (Nat.ltb_spec 0 (length recent)) as [Hpos|Hzero].
  - destruct (success_ratio_in_unit _ _ Hsucc Hpos) as [Hunit Hone].
    split; [exact Hunit|]. rewrite Hone. split; [intros H; split; [exact Hpos|exact H]|].
    intros [_ H]. exact H.
  - split; [split; discriminate|]. split; [discriminate|]. intros [H _]. lia.
Qed.

End StorageVerificationFacts.

(** ** Transfer pipeline, receive side *)

Module FileTransferFacts.
Import FileTransfer.

Section WithPlatform.
Context {P : Platform}.

(** The [try] block ends normally only behind both checks. *)
Lemma processChunk_ok (st : file_transfer) (m : file_chunk) (from : string) st' :
  processChunk st m from = (st', inl tt) →
  ∃ d, BackupCrypto.decrypt (crypto st) (base64_decode (encryptedData m)) from = Ok d
     ∧ BackupCrypto.hashData d = chunkHash m
     ∧ ∃ chunks, receivedChunks st !! transferId m = Some chunks
         ∧ receivedChunks st' !! transferId m = Some (<[chunkIndex m := d]> chunks).
Proof.
  unfold processChunk.
  destruct (BackupCrypto.decrypt _ _ _) as [d|msg]; [|discriminate].
  destruct (String.eqb_spec (BackupCrypto.hashData d) (chunkHash m)) as [Hh|Hh];
    cbn [negb]; [|discriminate].
  destruct (receivedChunks st !! transferId m) as [chunks|] eqn:Hc; [|discriminate].
  destruct (activeTransfers st !! transferId m) as [t|]; [|discriminate].
  intros [= <-]. exists d. split; [reflexivity|]. split; [exact Hh|].
  exists chunks. split; [reflexivity|]. cbn. apply lookup_insert_eq.
Qed.

(** C3.  The receiver sends exactly one [chunk_ack] per [file_chunk]; it
    has status 'received' only if decryption with the sender's shared
    secret succeeded and the SHA-256 of the decrypted chunk equals the
    claimed chunk hash; and a chunk whose decryption or hash check fails
    gets an error acknowledgement and leaves the receive state, hence the
    stored chunks, unchanged. *)
Theorem chunk_ack_received_only_if_verified (st : file_transfer)
    (m : file_chunk) (from : string) :
  (∃ s, (handleFileChunk st m from).2
        = [ChunkAck (transferId m) (chunkIndex m) s])
  ∧ (∀ a, a ∈ (handleFileChunk st m from).2 → ack_status_of a = received →
       ∃ d, BackupCrypto.decrypt (crypto st) (base64_decode (encryptedData m)) from
            = Ok d
          ∧ BackupCrypto.hashData d = chunkHash m)
  ∧ (∀ msg, BackupCrypto.decrypt (crypto st) (base64_decode (encryptedData m)) from
            = Throw msg →
       handleFileChunk st m from
       = (st, [ChunkAck (transferId m) (chunkIndex m) (error (CryptoFailure msg))]))
  ∧ (∀ d, BackupCrypto.decrypt (crypto st) (base64_decode (encryptedData m)) from
          = Ok d →
       BackupCrypto.hashData d ≠ chunkHash m →
       handleFileChunk st m from
       = (st, [ChunkAck (transferId m) (chunkIndex m)
                 (error (IntegrityFailure (chunkIndex m)))])).
Proof.
  unfold handleFileChunk. split; [|split; [|split]].
  - destruct (processChunk st m from) as [st' [[]|why]]; eexists; reflexivity.
  - intros a Ha Hr.
    destruct (processChunk st m from) as [st' [[]|why]] eqn:Hp; cbn in Ha;
      apply list_elem_of_singleton in Ha; subst a; cbn in Hr; [|discriminate].
    destruct (processChunk_ok st m from st' Hp) as (d & Hd & Hh & _).
    exists d. auto.
  - intros msg Hd. unfold processChunk. rewrite Hd. reflexivity.
  - intros d Hd Hh. unfold processChunk. rewrite Hd.
    destruct (String.eqb_spec (BackupCrypto.hashData d) (chunkHash m)) as [He|He];
      [contradiction|]. reflexivity.
Qed.

End WithPlatform.

(** The handler on the small platform: a chunk that opens and hashes to
    the claimed value is stored and acknowledged; the same chunk with
    another claimed hash, or with a broken tag, is answered with an error
    and changes nothing. *)
Example handleFileChunk_on_demo :
  let payload := [Byte.x68; Byte.x69] in
  let good := Demo.demo_chunk payload
                (BackupCrypto.hashData (P:=demo_platform) payload) in
  let wrong_hash := Demo.demo_chunk payload "0000" in
  let broken := {| transferId := "t1"; chunkIndex := 0;
                   encryptedData := to_hex (replicate 42 Byte.x07);
                   chunkHash := "0000" |} in
  (handleFileChunk (P:=demo_platform) Demo.demo_receiver good "peerA").2
    = [ChunkAck "t1" 0 received]
  ∧ receivedChunks
      (handleFileChunk (P:=demo_platform) Demo.demo_receiver good "peerA").1
      !! "t1"%string = Some {[ 0 := payload ]}
  ∧ handleFileChunk (P:=demo_platform) Demo.demo_receiver wrong_hash "peerA"
    = (Demo.demo_receiver, [ChunkAck "t1" 0 (error (IntegrityFailure 0))])
  ∧ handleFileChunk (P:=demo_platform) Demo.demo_receiver broken "peerA"
    = (Demo.demo_receiver,
       [ChunkAck "t1" 0
          (error (CryptoFailure "Decryption failed - invalid ciphertext or key"))]).
Proof. vm_compute. repeat split; reflexivity. Qed.

(** ** Completing a transfer, and what a receiver keeps *)

Section Transfers.
Context {P : Platform} {E : PlatformExt}.

Lemma write_from_spec (chunks : gmap Z buffer) (count : nat) :
  ∀ i w missing, write_from chunks i count = (w, missing) →
    (∀ k, (k < length w)%nat → chunks !! (i + Z.of_nat k) = w !! k)
    ∧ match missing with
      | None => length w = count
      | Some j => chunks !! j = None ∧ j = i + Z.of_nat (length w)
                  ∧ (length w < count)%nat
      end.
Proof.
  induction count as [|count IH]; intros i w missing; cbn [write_from].
  - intros [= <- <-]. split; [|reflexivity]. cbn. intros k Hk. lia.
  - destruct (chunks !! i) as [chunk|] eqn:Hi.
    + destruct (write_from chunks (i + 1) count) as [w' missing'] eqn:Hw.
      intros [= <- <-]. destruct (IH _ _ _ Hw) as [Hlook Hend]. split.
      * intros [|k] Hk; cbn.
        { rewrite Z.add_0_r. exact Hi. }
        { cbn in Hk. rewrite <- Hlook by lia. f_equal. lia. }
      * destruct missing' as [j|]; cbn [length].
        { destruct Hend as (Hj & -> & Hlt). split; [exact Hj|]. split; lia. }
        { lia. }
    + intros [= <- <-]. split.
      * cbn. intros k Hk. lia.
      * cbn. split; [exact Hi|]. split; lia.
Qed.

(** X25.  Completing a transfer.  A [file_complete] for an unknown
    transfer, or announcing another number of chunks than are stored, is
    dropped: nothing is sent or written and the state stays.  A success
    acknowledgement is sent only when the chunks stored at 0, 1, ... up to
    the announced number were written in that order and the hash of what
    was written is the hash of the [file_complete] message; the stored
    chunks are then released.  A failure acknowledgement keeps the stored
    chunks. *)
Theorem file_complete_outcomes (st : file_transfer) (m : file_complete) (now : Z) :
  ((activeTransfers st !! fc_transferId m = None
    ∨ receivedChunks st !! fc_transferId m = None
    ∨ ∃ chunks, receivedChunks st !! fc_transferId m = Some chunks
              ∧ Z.of_nat (size chunks) ≠ fc_totalChunks m) →
   handleFileComplete st m now = (st, [], None))
  ∧ (∀ a path, a ∈ (handleFileComplete st m now).1.2 →
       ca_status a = success path →
       ∃ t chunks c,
         activeTransfers st !! fc_transferId m = Some t ∧ path = fileName t
         ∧ receivedChunks st !! fc_transferId m = Some chunks
         ∧ (handleFileComplete st m now).2 = Some c
         ∧ Z.of_nat (length (co_written c)) = fc_totalChunks m
         ∧ (∀ k, (k < length (co_written c))%nat →
              chunks !! Z.of_nat k = co_written c !! k)
         ∧ BackupCrypto.hashData (concat (co_written c)) = fc_fileHash m
         ∧ receivedChunks (handleFileComplete st m now).1.1 !! fc_transferId m
           = None)
  ∧ (∀ a why, a ∈ (handleFileComplete st m now).1.2 →
       ca_status a = failed why →
       receivedChunks (handleFileComplete st m now).1.1 = receivedChunks st
       ∧ status <$> activeTransfers (handleFileComplete st m now).1.1
                      !! fc_transferId m = Some "error"%string).
Proof.
  unfold handleFileComplete. split; [|split].
  - intros [Ht|[Hc|(chunks & Hc & Hsize)]].
    + rewrite Ht. reflexivity.
    + rewrite Hc. destruct (activeTransfers st !! fc_transferId m); reflexivity.
    + rewrite Hc. destruct (activeTransfers st !! fc_transferId m); [|reflexivity].
      destruct (Z.eqb_spec (Z.of_nat (size chunks)) (fc_totalChunks m));
        [contradiction|reflexivity].
  - intros a path.
    destruct (activeTransfers st !! fc_transferId m) as [t|];
      [|cbn; intros Ha; inversion Ha].
    destruct (receivedChunks st !! fc_transferId m) as [chunks|];
      [|cbn; intros Ha; inversion Ha].
    destruct (Z.eqb_spec (Z.of_nat (size chunks)) (fc_totalChunks m)) as [Hsize|];
      cbn [negb]; [|cbn; intros Ha; inversion Ha].
    destruct (write_from chunks 0 (Z.to_nat (fc_totalChunks m)))
      as [w missing] eqn:Hw.
    destruct (write_from_spec _ _ _ _ _ Hw) as [Hlook Hend].
    destruct missing as [j|].
    { cbn. intros Ha%list_elem_of_singleton Hs. subst a. discriminate. }
    destruct (String.eqb_spec (BackupCrypto.hashData (concat w)) (fc_fileHash m))
      as [Hh|]; cbn [negb].
    2:{ cbn. intros Ha%list_elem_of_singleton Hs. subst a. discriminate. }
    cbn. intros Ha%list_elem_of_singleton Hs. subst a. cbn in Hs.
    injection Hs as <-. eexists t, chunks, _.
    split; [reflexivity|]. split; [reflexivity|]. split; [reflexivity|].
    split; [reflexivity|]. cbn. split; [lia|]. split; [exact Hlook|].
    split; [exact Hh|]. apply lookup_delete_eq.
  - intros a why.
    destruct (activeTransfers st !! fc_transferId m) as [t|];
      [|cbn; intros Ha; inversion Ha].
    destruct (receivedChunks st !! fc_transferId m) as [chunks|];
      [|cbn; intros Ha; inversion Ha].
    destruct (Z.eqb_spec (Z.of_nat (size chunks)) (fc_totalChunks m)) as [Hsize|];
      cbn [negb]; [|cbn; intros Ha; inversion Ha].
    destruct (write_from chunks 0 (Z.to_nat (fc_totalChunks m)))
      as [w missing] eqn:Hw.
    destruct missing as [j|].
    { cbn. intros _ _. split; [reflexivity|]. rewrite lookup_insert_eq. reflexivity. }
    destruct (String.eqb_spec (BackupCrypto.hashData (concat w)) (fc_fileHash m))
      as [Hh|]; cbn [negb].
    2:{ cbn. intros _ _. split; [reflexivity|]. rewrite lookup_insert_eq. reflexivity. }
    cbn. intros Ha%list_elem_of_singleton Hs. subst a. discriminate.
Qed.

Lemma chunks_have_entry_start st m now :
  chunks_have_entry st → chunks_have_entry (handleFileStart st m now).1.
Proof.
  intros Hwf id chunks. cbn.
  destruct (decide (id = fs_transferId m)) as [->|Hne].
  - rewrite !lookup_insert_eq. intros [= <-]. eexists. split; [reflexivity|].
    cbn. rewrite map_size_empty. lia.
  - rewrite !lookup_insert_ne by congruence. apply Hwf.
Qed.

Lemma chunks_have_entry_chunk st m from :
  chunks_have_entry st →
  chunks_have_entry (handleFileChunk st m from).1
  ∧ ((handleFileChunk st m from).1 = st
     ∨ (handleFileChunk st m from).2
       = [ChunkAck (transferId m) (chunkIndex m) received]).
Proof.
  intros Hwf. unfold handleFileChunk, processChunk.
  destruct (BackupCrypto.decrypt _ _ _) as [d|msg]; [|split; [exact Hwf|left; reflexivity]].
  destruct (negb _); [split; [exact Hwf|left; reflexivity]|].
  destruct (receivedChunks st !! transferId m) as [chunks|] eqn:Hc;
    [|split; [exact Hwf|left; reflexivity]].
  destruct (Hwf _ _ Hc) as (t & Ht & Hsize). rewrite Ht. cbn.
  split; [|right; reflexivity].
  intros id chunks'. cbn.
  destruct (decide (id = transferId m)) as [->|Hne].
  - rewrite !lookup_insert_eq. intros [= <-]. eexists. split; [reflexivity|].
    cbn. rewrite map_size_insert. destruct (chunks !! chunkIndex m); cbn; lia.
  - rewrite !lookup_insert_ne by congruence. apply Hwf.
Qed.

Lemma chunks_have_entry_complete st m now :
  chunks_have_entry st → chunks_have_entry (handleFileComplete st m now).1.1.
Proof.
  intros Hwf. unfold handleFileComplete.
  destruct (activeTransfers st !! fc_transferId m) as [t|] eqn:Ht; [|exact Hwf].
  destruct (receivedChunks st !! fc_transferId m) as [chunks|] eqn:Hc; [|exact Hwf].
  destruct (negb _); [exact Hwf|].
  destruct (write_from chunks 0 (Z.to_nat (fc_totalChunks m))) as [w missing].
  assert (Herr : chunks_have_entry
            {| crypto := crypto st;
               activeTransfers :=
                 <[fc_transferId m := with_status t "error"]> (activeTransfers st);
               receivedChunks := receivedChunks st |}).
  { intros id chunks'. cbn. destruct (decide (id = fc_transferId m)) as [->|Hne].
    - rewrite lookup_insert_eq. intros Hc'. destruct (Hwf _ _ Hc') as (t' & Ht' & Hs).
      rewrite Ht in Ht'. injection Ht' as <-. eexists. split; [reflexivity|exact Hs].
    - rewrite lookup_insert_ne by congruence. apply Hwf. }
  destruct missing as [j|]; [exact Herr|].
  destruct (negb _); [exact Herr|].
  intros id chunks'. cbn. destruct (decide (id = fc_transferId m)) as [->|Hne].
  - rewrite lookup_delete_eq. discriminate.
  - rewrite lookup_delete_ne, lookup_insert_ne by congruence. apply Hwf.
Qed.

(** X26.  Whatever transfer messages a receiver has handled since its
    construction, every transfer with stored chunks has its entry, with a
    counter no smaller than the number of chunks stored; and a chunk that
    is not acknowledged as received leaves the receive state as it was. *)
Theorem receiver_keeps_entries (c : BackupCrypto.backup_crypto)
    (run : list (string * Z * transfer_message)) (m : file_chunk) (from : string) :
  let st := handleTransferMessages (new_file_transfer c) run in
  chunks_have_entry st
  ∧ ((handleFileChunk st m from).2
       ≠ [ChunkAck (transferId m) (chunkIndex m) received] →
     (handleFileChunk st m from).1 = st).
Proof.
  cbn zeta.
  assert (Hgen : ∀ st, chunks_have_entry st →
            chunks_have_entry (handleTransferMessages st run)).
  { unfold handleTransferMessages.
    induction run as [|[[peer now] msg] run IH]; intros st Hst; cbn [fold_left];
      [exact Hst|].
    apply IH. destruct msg as [s|ch|fc|a|ty]; cbn [handleTransferMessage fst snd].
    - apply chunks_have_entry_start, Hst.
    - apply chunks_have_entry_chunk, Hst.
    - apply chunks_have_entry_complete, Hst.
    - exact Hst.
    - exact Hst. }
  assert (Hwf : chunks_have_entry (handleTransferMessages (new_file_transfer c) run)).
  { apply Hgen. intros id chunks. cbn. rewrite lookup_empty. discriminate. }
  split; [exact Hwf|].
  intros Hack. destruct (chunks_have_entry_chunk _ m from Hwf) as [_ [Hst|Hr]];
    [exact Hst|contradiction].
Qed.

End Transfers.

End FileTransferFacts.

(* ===================================================================== *)
(** * Reconnection: statements *)
(* ===================================================================== *)

Module ReconnectionFacts.
Import Reconnection.

Lemma drops_from (n : nat) :
  ∀ (c : link) (a : nat),
    reconnectAttempts c = Z.of_nat a → (a ≤ 5)%nat →
    (drops n c).2
    = ((λ i, retry_in (1000 * 2 ^ Z.of_nat i)) <$> seq a (min n (5 - a)))
      ++ replicate (n - (5 - a)) connection_failed
    ∧ reconnectAttempts (drops n c).1 = Z.of_nat (a + min n (5 - a)).
Proof.
  induction n as [|n IH]; intros c a Ha Hle.
  - cbn. split; [reflexivity|]. rewrite Ha. f_equal. lia.
  - cbn [drops]. unfold handleConnectionDrop, maxReconnectAttempts, reconnectDelay.
    destruct (Z.ltb_spec (reconnectAttempts c) 5) as [Hlt|Hge].
    + destruct (drops n _) as [c'' os] eqn:Hd.
      destruct (IH {| connected := false; reconnectAttempts := reconnectAttempts c + 1 |}
                   (S a)) as [Hos Hat]; [cbn; lia|lia|].
      rewrite Hd in Hos, Hat. cbn [fst snd] in *.
      assert (5 - a = S (5 - S a))%nat as -> by lia.
      cbn [min Nat.min seq fmap list_fmap app Nat.sub]. split.
      * rewrite Hos. replace (5 - S a)%nat with (4 - a)%nat by lia.
        replace (reconnectAttempts c + 1 - 1) with (Z.of_nat a) by lia.
        reflexivity.
      * rewrite Hat. f_equal. lia.
    + destruct (drops n _) as [c'' os] eqn:Hd.
      destruct (IH {| connected := false; reconnectAttempts := reconnectAttempts c |} a)
        as [Hos Hat]; [exact Ha|exact Hle|].
      rewrite Hd in Hos, Hat. cbn [fst snd] in *.
      assert (a = 5)%nat as -> by lia. cbn in Hos, Hat |- *.
      rewrite Nat.min_0_r in Hos, Hat. cbn in Hos. rewrite Nat.sub_0_r in Hos.
      split; [rewrite Hos; reflexivity|exact Hat].
Qed.

Lemma totalDelay_failed (os : list drop_outcome) (k : nat) :
  totalDelay (os ++ replicate k connection_failed) = totalDelay os.
Proof.
  induction os as [|o os IH]; cbn.
  - induction k as [|k IHk]; [reflexivity|exact IHk].
  - unfold totalDelay in IH. rewrite IH. reflexivity.
Qed.

(** X28.  Backing off.  After a connection was established, the k-th drop
    in a row arms a reconnection after 1000 * 2^(k-1) milliseconds for k
    up to 5, and every further drop reports [connection_failed] instead:
    a run of drops leads to at most five attempts and at most 31 seconds
    of waiting, whatever its length. *)
Theorem backoff_doubles_then_gives_up (c : link) (n : nat) :
  (drops n (onConnect c)).2
  = ((λ i, retry_in (1000 * 2 ^ Z.of_nat i)) <$> seq 0 (min n 5))
    ++ replicate (n - 5) connection_failed
  ∧ reconnectAttempts (drops n (onConnect c)).1 = Z.of_nat (min n 5)
  ∧ totalDelay (drops n (onConnect c)).2 ≤ 31000.
Proof.
  destruct (drops_from n (onConnect c) 0 eq_refl) as [Hos Hat]; [lia|].
  cbn [Nat.sub Nat.add] in Hos, Hat.
  split; [exact Hos|]. split; [exact Hat|].
  rewrite Hos, totalDelay_failed.
  assert (Hm : (min n 5 ≤ 5)%nat) by lia.
  destruct (min n 5) as [|[|[|[|[|[|m]]]]]]; cbn; lia.
Qed.

End ReconnectionFacts.
